(** * memdb: an indexed in-memory table, verified against its specification

    The repository holds two generations of the table:

    - the composite-key table ([Table] with [cols]/[key], rows of class
      [Row], a nested [Map] index and the four change-tracking [Set]s),
      embedded below as module [KeyTable];
    - the older table with named secondary indexes ([Table] with
      [upsert]/[save], classes [Index] and [UniqueIndex]), embedded as
      module [IndexTable].

    JavaScript objects are mutable and shared, so both modules keep an
    explicit heap of row objects and address rows by reference.  An
    exception leaves every mutation made before it in place; every
    operation therefore returns the state it reached together with either
    a value or the error thrown. *)

From stdpp Require Import gmap strings list fin_maps sorting.
From Stdlib Require Import ZArith.
From Stdlib Require OrderedTypeEx.

#[local] Set Warnings "-register-all".
#[local] Open Scope Z_scope.

(** ** JavaScript values and plain objects *)

(** The primitive values a column holds: [undefined] (also the result of
    reading an absent property), numbers (integers here) and strings. *)
Inductive value :=
  | VUndef
  | VNum (n : Z)
  | VStr (s : string).

#[global] Instance value_eq_dec : EqDecision value.
Proof. solve_decision. Defined.

#[global] Instance value_countable : Countable value.
Proof.
  refine (inj_countable'
    (fun v => match v with
              | VUndef => inl ()
              | VNum n => inr (inl n)
              | VStr s => inr (inr s)
              end)
    (fun x => match x with
              | inl _ => VUndef
              | inr (inl n) => VNum n
              | inr (inr s) => VStr s
              end) _).
  by intros [].
Defined.

(** Own enumerable string-keyed properties, in insertion order. *)
Fixpoint al_lookup {A} (o : list (string * A)) (k : string) : option A :=
  match o with
  | [] => None
  | (k', v) :: o' => if decide (k = k') then Some v else al_lookup o' k
  end.

(** [k in o] (prototype properties are not modelled). *)
Definition al_has {A} (o : list (string * A)) (k : string) : bool :=
  match al_lookup o k with Some _ => true | None => false end.

(** [o[k] = v]: overwrite in place, or append a new property. *)
Fixpoint al_set {A} (o : list (string * A)) (k : string) (v : A)
  : list (string * A) :=
  match o with
  | [] => [(k, v)]
  | (k', v') :: o' =>
      if decide (k = k') then (k, v) :: o' else (k', v') :: al_set o' k v
  end.

(** A plain object ("POJO"): the records handed to [add], [find], [load],
    [upsert], and the ones [serialize] returns. *)
Abbreviation pojo := (list (string * value)).

(** [o[k]]: [undefined] when the property is absent. *)
Definition obj_get (o : pojo) (k : string) : value :=
  default VUndef (al_lookup o k).

(** [{ ...a, ...b }] onto an existing object literal [a]. *)
Definition obj_spread (a b : pojo) : pojo :=
  foldl (fun o kv => al_set o kv.1 kv.2) a b.

(** Deep equality of [@ludlovian/equal] on two plain objects holding
    primitive values: the same number of keys, and every key of the first
    present in the second with the same value. *)
Definition equal (a b : pojo) : bool :=
  bool_decide (length a = length b)
  && forallb (fun kv => bool_decide (al_lookup b kv.1 = Some kv.2)) a.

(** ** JavaScript [Set]: insertion-ordered, no duplicates *)

Definition Set_has {A} `{EqDecision A} (s : list A) (x : A) : bool :=
  bool_decide (x ∈ s).

Definition Set_add {A} `{EqDecision A} (s : list A) (x : A) : list A :=
  if Set_has s x then s else s ++ [x].

Definition Set_delete {A} `{EqDecision A} (s : list A) (x : A) : list A :=
  filter (fun y => y ≠ x) s.

(** [new Set(iterable)] *)
Definition Set_from {A} `{EqDecision A} (l : list A) : list A :=
  foldl Set_add [] l.

(** ** [Array.prototype.sort(comparefn)]

    The sort is stable; for a consistent comparator every stable sort
    returns the same array, so insertion is as good a model as any.  An
    element moves in front of the first one it does not compare greater
    than. *)
Fixpoint sort_insert {A} (cmp : A -> A -> Z) (x : A) (l : list A) : list A :=
  match l with
  | [] => [x]
  | y :: l' => if 0 <? cmp x y then y :: sort_insert cmp x l' else x :: l
  end.

Fixpoint Array_sort {A} (cmp : A -> A -> Z) (l : list A) : list A :=
  match l with
  | [] => []
  | x :: l' => sort_insert cmp x (Array_sort cmp l')
  end.

(** ** Errors and results *)

Inductive error :=
  | KeyNotSupplied (col : string)   (* 'Key not supplied: ' + col *)
  | MissingKey (col : string)       (* 'Missing key: ' + col *)
  | DuplicateKey                    (* 'Duplicate key: ...' *)
  | NotCurrentRow                   (* 'Not a current row' *)
  | NoSuchIndex (k : string)        (* 'No such index: ' + k *)
  | KeyViolation (row : nat)        (* new KeyViolation(row) *)
  | TypeError                       (* thrown by the language itself *)
  | Unmodelled.                     (* a use of the language not covered *)

#[global] Instance error_eq_dec : EqDecision error.
Proof. solve_decision. Defined.

Inductive result (A : Type) :=
  | Ok (a : A)
  | Throw (e : error).
Arguments Ok {A} a.
Arguments Throw {A} e.

Definition is_duplicate {A} (r : result A) : bool :=
  match r with Throw DuplicateKey => true | _ => false end.

(** ** Methods run on a state and may throw

    A thrown error keeps the state reached so far. *)

Definition M (S A : Type) : Type := S -> S * result A.

Definition ret {S A} (a : A) : M S A := fun st => (st, Ok a).

Definition throw {S A} (e : error) : M S A := fun st => (st, Throw e).

Definition bind {S A B} (m : M S A) (k : A -> M S B) : M S B :=
  fun st =>
    match m st with
    | (st', Ok a) => k a st'
    | (st', Throw e) => (st', Throw e)
    end.

Definition gets {S A} (f : S -> A) : M S A := fun st => (st, Ok (f st)).

Definition modify {S} (f : S -> S) : M S unit := fun st => (f st, Ok tt).

Definition lift {S A} (r : result A) : M S A := fun st => (st, r).

(** [assert(ok, msg)] *)
Definition assert {S} (ok : bool) (e : error) : M S unit :=
  if ok then ret tt else throw e.

Notation "'let*' x ':=' m 'in' k" := (bind m (fun x => k))
  (at level 10, x name, m at level 100, k at level 200).
Notation "'do*' m 'in' k" := (bind m (fun _ => k))
  (at level 10, m at level 100, k at level 200).

(** [list.forEach(f)] *)
Fixpoint forEach {S A} (l : list A) (f : A -> M S unit) : M S unit :=
  match l with
  | [] => ret tt
  | x :: l' => do* f x in forEach l' f
  end.

(** ** The composite-key table *)

Module KeyTable.

(** A registered column type: [{ serialize, deserialize }], either of which
    may be missing. *)
Record type_hooks := {
  serialize_fn : option (value -> value);
  deserialize_fn : option (value -> value)
}.

(** What a table never changes after construction: the parsed column
    definitions [#columns] (column name to type name, in declared order),
    the key columns [#key], and, from its surroundings, the static type
    registry [Table.#types] and the language's conversion of a string to a
    number ([None] is [NaN]), which decides [<] between a number and a
    string. *)
Record config := {
  columns : list (string * string);
  key : list string;
  types : list (string * type_hooks);
  StringToNumber : string -> option Z
}.

(** The constructor's assertions on the parsed definitions, together with
    what [Object.fromEntries] guarantees of [#columns]. *)
Record constructible (C : config) : Prop := {
  columns_distinct : NoDup (columns C).*1;
  types_known : Forall (fun ct => al_has (types C) ct.2 = true) (columns C);
  key_declared : Forall (fun col => al_has (columns C) col = true) (key C);
  key_nonempty : key C <> []
}.

(** A property of a [Row]: always enumerable, so only the value and the
    [writable] flag are kept. *)
Record prop := {
  prop_value : value;
  prop_writable : bool
}.

(** A [Row] object: its own properties in definition order.  It is not
    extensible. *)
Abbreviation row := (list (string * prop)).

(** Rows are compared and stored by reference. *)
Abbreviation rowid := nat.

Definition row_get (rw : row) (col : string) : value :=
  match al_lookup rw col with Some p => prop_value p | None => VUndef end.

(** [{ ...row }] *)
Definition spread (rw : row) : pojo :=
  map (fun kp => (kp.1, prop_value kp.2)) rw.

(** [cols.forEach(col => { defs[col] = { enumerable, value: data[col],
    writable: true } })] *)
Definition Row_defs (data : pojo) (cols : list string) : row :=
  foldl (fun defs col =>
           al_set defs col
             {| prop_value := obj_get data col; prop_writable := true |})
        [] cols.

(** [keys.forEach(col => { assert(col in data, 'Missing key: ' + col);
    defs[col].writable = false })] *)
Fixpoint Row_lock (data : pojo) (keys : list string) (defs : row)
  : result row :=
  match keys with
  | [] => Ok defs
  | col :: rest =>
      if al_has data col then
        match al_lookup defs col with
        | None => Throw TypeError
        | Some p =>
            Row_lock data rest
              (al_set defs col
                 {| prop_value := prop_value p; prop_writable := false |})
        end
      else Throw (MissingKey col)
  end.

(** [new Row(data, table, cols, keys)] *)
Definition Row_new (data : pojo) (cols keys : list string) : result row :=
  Row_lock data keys (Row_defs data cols).

(** [Object.assign(row, data)]: each property of [data] in turn is set on
    the row; a read-only or an undeclared property makes it throw, with the
    properties set so far left changed. *)
Fixpoint assign_loop (rw : row) (data : pojo) : row * result unit :=
  match data with
  | [] => (rw, Ok tt)
  | (k, v) :: rest =>
      match al_lookup rw k with
      | Some p =>
          if prop_writable p
          then assign_loop
                 (al_set rw k {| prop_value := v; prop_writable := true |})
                 rest
          else (rw, Throw TypeError)
      | None => (rw, Throw TypeError)
      end
  end.

(** *** [<] and the sort function *)

Definition ToNumber (C : config) (v : value) : option Z :=
  match v with
  | VUndef => None
  | VNum n => Some n
  | VStr s => StringToNumber C s
  end.

(** [a < b]: two strings compare by code units, anything else as numbers,
    and a comparison with [NaN] is false. *)
Definition js_lt (C : config) (a b : value) : bool :=
  match a, b with
  | VStr s, VStr t => String.ltb s t
  | _, _ =>
      match ToNumber C a, ToNumber C b with
      | Some x, Some y => x <? y
      | _, _ => false
      end
  end.

Fixpoint sortFn_loop (C : config) (key : list string) (a b : row) : Z :=
  match key with
  | [] => 0
  | col :: rest =>
      let va := row_get a col in
      let vb := row_get b col in
      if js_lt C va vb then -1
      else if js_lt C vb va then 1
      else sortFn_loop C rest a b
  end.

(** [#makeSortFn(key)] *)
Definition makeSortFn (C : config) (key : list string) : row -> row -> Z :=
  sortFn_loop C key.

(** *** The nested index

    Every level is a [Map]; what a level holds is either the next level or,
    at the last key column, the row. *)
Inductive entry :=
  | ERow (r : rowid)
  | EMap (m : gmap value entry).

(** *** Table state *)

Record state := {
  heap : list row;           (* every Row ever constructed *)
  all : list rowid;          (* #all *)
  index : entry;             (* #index *)
  untouched : list rowid;    (* #untouched *)
  added : list rowid;        (* #added *)
  changed : list rowid;      (* #changed *)
  deleted : list rowid;      (* #deleted *)
  needSort : bool            (* #needSort, falsy until the first add *)
}.

Definition set_heap (f : list row -> list row) (st : state) : state :=
  {| heap := f (heap st); all := all st; index := index st;
     untouched := untouched st; added := added st; changed := changed st;
     deleted := deleted st; needSort := needSort st |}.

Definition set_all (f : list rowid -> list rowid) (st : state) : state :=
  {| heap := heap st; all := f (all st); index := index st;
     untouched := untouched st; added := added st; changed := changed st;
     deleted := deleted st; needSort := needSort st |}.

Definition set_index (f : entry -> entry) (st : state) : state :=
  {| heap := heap st; all := all st; index := f (index st);
     untouched := untouched st; added := added st; changed := changed st;
     deleted := deleted st; needSort := needSort st |}.

Definition set_untouched (f : list rowid -> list rowid) (st : state) : state :=
  {| heap := heap st; all := all st; index := index st;
     untouched := f (untouched st); added := added st; changed := changed st;
     deleted := deleted st; needSort := needSort st |}.

Definition set_added (f : list rowid -> list rowid) (st : state) : state :=
  {| heap := heap st; all := all st; index := index st;
     untouched := untouched st; added := f (added st); changed := changed st;
     deleted := deleted st; needSort := needSort st |}.

Definition set_changed (f : list rowid -> list rowid) (st : state) : state :=
  {| heap := heap st; all := all st; index := index st;
     untouched := untouched st; added := added st; changed := f (changed st);
     deleted := deleted st; needSort := needSort st |}.

Definition set_deleted (f : list rowid -> list rowid) (st : state) : state :=
  {| heap := heap st; all := all st; index := index st;
     untouched := untouched st; added := added st; changed := changed st;
     deleted := f (deleted st); needSort := needSort st |}.

Definition set_needSort (b : bool) (st : state) : state :=
  {| heap := heap st; all := all st; index := index st;
     untouched := untouched st; added := added st; changed := changed st;
     deleted := deleted st; needSort := b |}.

(** The object a reference points to. *)
Definition deref (h : list row) (r : rowid) : row := default [] (h !! r).

(** *** Index

    The loops change the [Map]s in place.  Here each loop returns the level
    it was given as it stands afterwards, also when it throws, and the
    caller puts it back where it came from. *)

(** [#seek(keyData)]: [ix] and [row] are the loop's variables. *)
Fixpoint seek_loop (cols : list string) (nKey : Z) (ix : entry)
    (row : option entry) (keyData : pojo) : result (option entry) :=
  match cols with
  | [] => Ok row
  | col :: rest =>
      if al_has keyData col then
        let key := obj_get keyData col in
        let nKey := nKey - 1 in
        match ix with
        | ERow _ => Throw TypeError          (* a row has no [get] *)
        | EMap m =>
            if bool_decide (nKey <> 0) then
              match m !! key with
              | None => Ok row                                  (* break *)
              | Some ix' => seek_loop rest nKey ix' row keyData
              end
            else seek_loop rest nKey ix (m !! key) keyData
        end
      else Throw (KeyNotSupplied col)
  end.

Definition seek (C : config) (keyData : pojo) : M state (option entry) :=
  fun st =>
    (st, seek_loop (key C) (Z.of_nat (length (key C))) (index st) None
           keyData).

(** [#addToIndex(data)], called with a row: [r] is the reference stored,
    [data] what the row's properties read. *)
Fixpoint addToIndex_loop (cols : list string) (nKey : Z) (ix : entry)
    (data : pojo) (r : rowid) : entry * result unit :=
  match cols with
  | [] => (ix, Ok tt)
  | col :: rest =>
      if al_has data col then
        let key := obj_get data col in
        let nKey := nKey - 1 in
        match ix with
        | ERow _ => (ix, Throw TypeError)
        | EMap m =>
            if bool_decide (nKey <> 0) then
              (* ix = ix.get(key) ?? ix.set(key, new Map()).get(key) *)
              let child := default (EMap ∅) (m !! key) in
              let '(child', res) := addToIndex_loop rest nKey child data r in
              (EMap (<[key := child']> m), res)
            else if bool_decide (is_Some (m !! key)) then
              (ix, Throw DuplicateKey)
            else addToIndex_loop rest nKey (EMap (<[key := ERow r]> m)) data r
        end
      else (ix, Throw (KeyNotSupplied col))
  end.

Definition addToIndex (C : config) (r : rowid) : M state unit :=
  fun st =>
    let '(ix, res) :=
      addToIndex_loop (key C) (Z.of_nat (length (key C))) (index st)
        (spread (deref (heap st) r)) r in
    (set_index (fun _ => ix) st, res).

(** [#removeFromIndex(keyData)], called with a row. *)
Fixpoint removeFromIndex_loop (cols : list string) (nKey : Z) (ix : entry)
    (removed : bool) (keyData : pojo) : entry * result bool :=
  match cols with
  | [] => (ix, Ok removed)
  | col :: rest =>
      if al_has keyData col then
        let key := obj_get keyData col in
        let nKey := nKey - 1 in
        match ix with
        | ERow _ => (ix, Throw TypeError)
        | EMap m =>
            if bool_decide (nKey <> 0) then
              match m !! key with
              | None => (ix, Ok removed)                        (* break *)
              | Some child =>
                  let '(child', res) :=
                    removeFromIndex_loop rest nKey child removed keyData in
                  (EMap (<[key := child']> m), res)
              end
            else
              removeFromIndex_loop rest nKey (EMap (delete key m))
                (bool_decide (is_Some (m !! key))) keyData
        end
      else (ix, Throw (KeyNotSupplied col))
  end.

Definition removeFromIndex (C : config) (r : rowid) : M state bool :=
  fun st =>
    let '(ix, res) :=
      removeFromIndex_loop (key C) (Z.of_nat (length (key C))) (index st)
        false (spread (deref (heap st) r)) in
    (set_index (fun _ => ix) st, res).

(** *** Public API *)

Definition resetChanges : M state unit :=
  do* modify (fun st => set_untouched (fun _ => Set_from (all st)) st) in
  do* modify (set_added (fun _ => [])) in
  do* modify (set_changed (fun _ => [])) in
  modify (set_deleted (fun _ => [])).

Definition clear : M state unit :=
  do* modify (set_all (fun _ => [])) in
  do* modify (set_index (fun _ => EMap ∅)) in
  resetChanges.

(** The state the constructor leaves: nothing allocated, [clear()] run. *)
Definition fresh : state :=
  {| heap := []; all := []; index := EMap ∅; untouched := []; added := [];
     changed := []; deleted := []; needSort := false |}.

(** [new Row(...)] allocates the object. *)
Definition alloc (rw : row) : M state rowid :=
  fun st => (set_heap (fun h => h ++ [rw]) st, Ok (length (heap st))).

Definition add (C : config) (data : pojo) : M state rowid :=
  let* rw := lift (Row_new data (columns C).*1 (key C)) in
  let* row := alloc rw in
  do* modify (set_all (fun s => Set_add s row)) in
  do* modify (set_added (fun s => Set_add s row)) in
  do* addToIndex C row in
  do* modify (set_needSort true) in
  ret row.

(** [Object.assign(row, data)] on the shared row object. *)
Definition assign (row : rowid) (data : pojo) : M state unit :=
  fun st =>
    let '(rw, res) := assign_loop (deref (heap st) row) data in
    (set_heap (fun h => <[row := rw]> h) st, res).

(** [update(row, data)].  The argument is a reference to a [Row], so the
    [instanceof] assertion holds. *)
Definition update (C : config) (row : rowid) (data : pojo) : M state rowid :=
  let* live := gets (fun st => Set_has (all st) row) in
  do* assert live NotCurrentRow in
  let* rw := gets (fun st => deref (heap st) row) in
  if equal (spread rw) (obj_spread (spread rw) data) then ret row
  else
    do* assign row data in
    do* modify (set_untouched (fun s => Set_delete s row)) in
    let* isnew := gets (fun st => Set_has (added st) row) in
    do* (if isnew then ret tt
         else modify (set_changed (fun s => Set_add s row))) in
    ret row.

(** [delete_(row)]; it returns [null]. *)
Definition delete_ (C : config) (row : rowid) : M state unit :=
  let* live := gets (fun st => Set_has (all st) row) in
  do* assert live NotCurrentRow in
  do* modify (set_all (fun s => Set_delete s row)) in
  do* modify (set_deleted (fun s => Set_add s row)) in
  do* modify (set_added (fun s => Set_delete s row)) in
  do* modify (set_changed (fun s => Set_delete s row)) in
  do* modify (set_untouched (fun s => Set_delete s row)) in
  do* removeFromIndex C row in
  ret tt.

(** [find(keyData)]: [None] is [null]. *)
Definition find (C : config) (keyData : pojo) : M state (option entry) :=
  seek C keyData.

(** [get_(keyData)]: [row ?? this.add(keyData)] *)
Definition get_ (C : config) (keyData : pojo) : M state entry :=
  let* row := find C keyData in
  match row with
  | Some e => ret e
  | None => let* r := add C keyData in ret (ERow r)
  end.

(** The comparator [#sort] as [sort] calls it, on two references. *)
Definition sortFn (C : config) (h : list row) (a b : rowid) : Z :=
  makeSortFn C (key C) (deref h a) (deref h b).

(** [get data ()] *)
Definition data (C : config) : M state (list rowid) :=
  let* need := gets needSort in
  do* (if need then
         do* modify (fun st =>
               set_all (fun s => Set_from (Array_sort (sortFn C (heap st)) s))
                 st) in
         modify (set_needSort false)
       else ret tt) in
  gets all.

(** [get changes ()]: copies of the four sets. *)
Definition changes
  : M state (list rowid * list rowid * list rowid * list rowid) :=
  gets (fun st =>
          (Set_from (added st), Set_from (changed st), Set_from (deleted st),
           Set_from (untouched st))).

(** [#serialize(row)] and [#deserialize(obj)]: one column after the other,
    through the hook of its type when there is one. *)
Fixpoint convert_loop (C : config)
    (hook : type_hooks -> option (value -> value))
    (cols : list (string * string)) (src obj : pojo) : result pojo :=
  match cols with
  | [] => Ok obj
  | (col, type) :: rest =>
      match al_lookup (types C) type with
      | None => Throw TypeError
      | Some t =>
          let v :=
            match hook t with
            | Some fn => fn (obj_get src col)
            | None => obj_get src col
            end in
          convert_loop C hook rest src (al_set obj col v)
      end
  end.

Definition serialize_row (C : config) (rw : row) : result pojo :=
  convert_loop C serialize_fn (columns C) (spread rw) [].

Definition deserialize (C : config) (obj : pojo) : result pojo :=
  convert_loop C deserialize_fn (columns C) obj [].

(** [array.map(f)] for an [f] that may throw. *)
Fixpoint Array_map {A B} (f : A -> result B) (l : list A) : result (list B) :=
  match l with
  | [] => Ok []
  | x :: l' =>
      match f x with
      | Throw e => Throw e
      | Ok y =>
          match Array_map f l' with
          | Throw e => Throw e
          | Ok ys => Ok (y :: ys)
          end
      end
  end.

Definition serialize (C : config) : M state (list pojo) :=
  let* rows := data C in
  let* h := gets heap in
  lift (Array_map (fun r => serialize_row C (deref h r)) rows).

Definition load (C : config) (records : list pojo) : M state unit :=
  do* clear in
  do* forEach records (fun obj =>
        let* d := lift (deserialize C obj) in
        do* add C d in ret tt) in
  resetChanges.

(** *** Histories of calls *)

Inductive op :=
  | Add (data : pojo)
  | Update (row : rowid) (data : pojo)
  | Delete (row : rowid)
  | RowSet (row : rowid) (data : pojo)     (* row.set(data) *)
  | RowDelete (row : rowid)                (* row.delete() *)
  | Find (keyData : pojo)
  | Get (keyData : pojo)
  | Data
  | Changes
  | Serialize
  | Load (records : list pojo)
  | Clear
  | ResetChanges.

(** One call, its value dropped. *)
Definition step (C : config) (o : op) : M state unit :=
  match o with
  | Add d => do* add C d in ret tt
  | Update r d => do* update C r d in ret tt
  | Delete r => delete_ C r
  | RowSet r d => do* update C r d in ret tt
  | RowDelete r => delete_ C r
  | Find kd => do* find C kd in ret tt
  | Get kd => do* get_ C kd in ret tt
  | Data => do* data C in ret tt
  | Changes => do* changes in ret tt
  | Serialize => do* serialize C in ret tt
  | Load rs => load C rs
  | Clear => clear
  | ResetChanges => resetChanges
  end.

(** The state after a sequence of calls, whatever each one returned or
    threw. *)
Fixpoint run (C : config) (ops : list op) (st : state) : state :=
  match ops with
  | [] => st
  | o :: ops' => run C ops' (step C o st).1
  end.

(** No call of the sequence was rejected for a duplicate key. *)
Fixpoint accepted (C : config) (ops : list op) (st : state) : bool :=
  match ops with
  | [] => true
  | o :: ops' =>
      negb (is_duplicate (step C o st).2)
      && accepted C ops' (step C o st).1
  end.

End KeyTable.

(** ** The table with named secondary indexes *)

Module IndexTable.

(** Rows are ordinary objects, shared by reference. *)
Abbreviation rowid := nat.

(** The two index classes.  [fn] derives the key from a row or from the
    data of a query; [Index] keeps a [Set] of rows per key, [UniqueIndex]
    one row. *)
Inductive index :=
  | Index (fn : pojo -> value) (map : gmap value (list rowid))
  | UniqueIndex (fn : pojo -> value) (map : gmap value rowid).

Record state := {
  heap : list pojo;                (* the row objects *)
  _data : list rowid;
  _changed : list rowid;
  _deleted : list rowid;
  _ix : list (string * index);
  onsave : bool;                   (* is there an [onsave] callback *)
  factory : pojo                   (* what [new Factory()] starts out as *)
}.

Definition set_heap (f : list pojo -> list pojo) (st : state) : state :=
  {| heap := f (heap st); _data := _data st; _changed := _changed st;
     _deleted := _deleted st; _ix := _ix st; onsave := onsave st;
     factory := factory st |}.

Definition set_data (f : list rowid -> list rowid) (st : state) : state :=
  {| heap := heap st; _data := f (_data st); _changed := _changed st;
     _deleted := _deleted st; _ix := _ix st; onsave := onsave st;
     factory := factory st |}.

Definition set_changed (f : list rowid -> list rowid) (st : state) : state :=
  {| heap := heap st; _data := _data st; _changed := f (_changed st);
     _deleted := _deleted st; _ix := _ix st; onsave := onsave st;
     factory := factory st |}.

Definition set_deleted (f : list rowid -> list rowid) (st : state) : state :=
  {| heap := heap st; _data := _data st; _changed := _changed st;
     _deleted := f (_deleted st); _ix := _ix st; onsave := onsave st;
     factory := factory st |}.

Definition set_ix (f : list (string * index) -> list (string * index))
    (st : state) : state :=
  {| heap := heap st; _data := _data st; _changed := _changed st;
     _deleted := _deleted st; _ix := f (_ix st); onsave := onsave st;
     factory := factory st |}.

Definition deref (h : list pojo) (r : rowid) : pojo := default [] (h !! r).

(** *** [class Index] *)

Definition Index_add (fn : pojo -> value) (map : gmap value (list rowid))
    (h : list pojo) (row : rowid) : gmap value (list rowid) :=
  let key := fn (deref h row) in
  match map !! key with
  | Some entry => <[key := Set_add entry row]> map
  | None => <[key := [row]]> map
  end.

Definition Index_delete (fn : pojo -> value) (map : gmap value (list rowid))
    (h : list pojo) (row : rowid) : result (gmap value (list rowid)) :=
  let key := fn (deref h row) in
  match map !! key with
  | None => Throw TypeError                 (* [entry] is [undefined] *)
  | Some entry =>
      let entry := Set_delete entry row in
      if bool_decide (length entry = 0%nat) then Ok (delete key map)
      else Ok (<[key := entry]> map)
  end.

Definition Index_get (fn : pojo -> value) (map : gmap value (list rowid))
    (data : pojo) : list rowid :=
  default [] (map !! fn data).

(** *** [class UniqueIndex extends Index] *)

Definition UniqueIndex_add (fn : pojo -> value) (map : gmap value rowid)
    (h : list pojo) (row : rowid) : result (gmap value rowid) :=
  let key := fn (deref h row) in
  if bool_decide (is_Some (map !! key)) then Throw (KeyViolation row)
  else Ok (<[key := row]> map).

Definition UniqueIndex_delete (fn : pojo -> value) (map : gmap value rowid)
    (h : list pojo) (row : rowid) : gmap value rowid :=
  delete (fn (deref h row)) map.

(** [None] is [undefined]. *)
Definition UniqueIndex_get (fn : pojo -> value) (map : gmap value rowid)
    (data : pojo) : option rowid :=
  map !! fn data.

(** *** Method calls on an index of either class *)

Definition ix_clear (ix : index) : index :=
  match ix with
  | Index fn _ => Index fn ∅
  | UniqueIndex fn _ => UniqueIndex fn ∅
  end.

(** The index as the call leaves it, and what the call threw. *)
Definition ix_add (ix : index) (h : list pojo) (row : rowid)
  : index * result unit :=
  match ix with
  | Index fn map => (Index fn (Index_add fn map h row), Ok tt)
  | UniqueIndex fn map =>
      match UniqueIndex_add fn map h row with
      | Ok map' => (UniqueIndex fn map', Ok tt)
      | Throw e => (ix, Throw e)
      end
  end.

Definition ix_delete (ix : index) (h : list pojo) (row : rowid)
  : index * result unit :=
  match ix with
  | Index fn map =>
      match Index_delete fn map h row with
      | Ok map' => (Index fn map', Ok tt)
      | Throw e => (ix, Throw e)
      end
  | UniqueIndex fn map => (UniqueIndex fn (UniqueIndex_delete fn map h row), Ok tt)
  end.

(** What [get] returns: a row or [undefined] from a unique index, a [Set]
    from the other kind. *)
Inductive got :=
  | GotRow (row : option rowid)
  | GotSet (rows : list rowid).

Definition ix_get (ix : index) (data : pojo) : got :=
  match ix with
  | Index fn map => GotSet (Index_get fn map data)
  | UniqueIndex fn map => GotRow (UniqueIndex_get fn map data)
  end.

(** [for (const k in this._ix) this._ix[k].method(row)]: the indexes in
    the order they were first named (names are taken not to look like
    array indices, which [for ... in] visits first), up to the first that
    throws. *)
Fixpoint each_ix (method : index -> index * result unit)
    (ixs : list (string * index)) : list (string * index) * result unit :=
  match ixs with
  | [] => ([], Ok tt)
  | (k, ix) :: rest =>
      match method ix with
      | (ix', Throw e) => ((k, ix') :: rest, Throw e)
      | (ix', Ok _) =>
          let '(rest', res) := each_ix method rest in
          ((k, ix') :: rest', res)
      end
  end.

Definition add_to_indexes (row : rowid) : M state unit :=
  fun st =>
    let '(ixs, res) := each_ix (fun ix => ix_add ix (heap st) row) (_ix st) in
    (set_ix (fun _ => ixs) st, res).

Definition delete_from_indexes (row : rowid) : M state unit :=
  fun st =>
    let '(ixs, res) :=
      each_ix (fun ix => ix_delete ix (heap st) row) (_ix st) in
    (set_ix (fun _ => ixs) st, res).

(** *** [class Table] *)

(** The state [new Table({ onsave, main, factory })] leaves. *)
Definition Table_new (has_onsave : bool) (main : option (pojo -> value))
    (Factory : option pojo) : state :=
  {| heap := []; _data := []; _changed := []; _deleted := [];
     _ix := match main with
            | Some fn => [("main", UniqueIndex fn ∅)]
            | None => []
            end;
     onsave := has_onsave;
     factory := default [] Factory |}.

(** [load(source)]: the rows of [source] are objects the caller made. *)
Definition load (source : list rowid) : M state unit :=
  do* modify (set_data (fun _ => [])) in
  do* modify (set_changed (fun _ => [])) in
  do* modify (set_deleted (fun _ => [])) in
  do* modify (set_ix (map (fun kix => (kix.1, ix_clear kix.2)))) in
  forEach source (fun row =>
    do* modify (set_data (fun s => Set_add s row)) in
    add_to_indexes row).




(** [get(data, k = 'main')] *)
Definition get (data : pojo) (k : string) : M state got :=
  let* ix := gets (fun st => al_lookup (_ix st) k) in
  match ix with
  | None => throw (NoSuchIndex k)
  | Some ix => ret (ix_get ix data)
  end.

(** [this._ix.main && this._ix.main.get(data)], as [upsert] and [delete]
    go on to use it: a row, or something falsy.  Were [main] an index of
    the non-unique kind, a [Set] would come back and be taken for a row;
    the README rules that out and rows here are never [Set]s. *)
Definition main_row (data : pojo) : M state (option rowid) :=
  let* main := gets (fun st => al_lookup (_ix st) "main") in
  match main with
  | None => ret None
  | Some (UniqueIndex fn map) => ret (UniqueIndex_get fn map data)
  | Some (Index _ _) => throw Unmodelled
  end.

(** [new Factory()] *)
Definition alloc : M state rowid :=
  fun st => (set_heap (fun h => h ++ [factory st]) st, Ok (length (heap st))).

(** [Object.assign(row, data)] *)
Definition assign (row : rowid) (data : pojo) : M state unit :=
  modify (fun st =>
    set_heap (fun h => <[row := obj_spread (deref h row) data]> h) st).

(** [upsert(data)] for a single record. *)
Definition upsert (data : pojo) : M state rowid :=
  let* found := main_row data in
  let* row :=
    match found with
    | Some row => do* delete_from_indexes row in ret row
    | None =>
        let* row := alloc in
        do* modify (set_data (fun s => Set_add s row)) in
        ret row
    end in
  do* assign row data in
  do* add_to_indexes row in
  do* modify (set_changed (fun s => Set_add s row)) in
  ret row.

(** [delete(data)] for a single record; [None] is [undefined]. *)
Definition delete (data : pojo) : M state (option rowid) :=
  let* has_main := gets (fun st => al_has (_ix st) "main") in
  if has_main then
    let* found := main_row data in
    match found with
    | Some row =>
        do* delete_from_indexes row in
        do* modify (set_data (fun s => Set_delete s row)) in
        do* modify (set_changed (fun s => Set_delete s row)) in
        do* modify (set_deleted (fun s => Set_add s row)) in
        ret (Some row)
    | None => ret None
    end
  else ret None.

(** [save()]: the value is the pair of sets handed to [onsave], when
    there is one to call. *)
Definition save : M state (option (list rowid * list rowid)) :=
  let* changed := gets (fun st => Set_from (_changed st)) in
  let* deleted := gets (fun st => Set_from (_deleted st)) in
  do* modify (set_changed (fun _ => [])) in
  do* modify (set_deleted (fun _ => [])) in
  let* has := gets onsave in
  if has then ret (Some (changed, deleted)) else ret None.

(** [all()] *)
Definition all : M state (list rowid) := gets _data.

End IndexTable.

(** ** Vocabulary of the properties *)

Module KeyTableSpec.
Import KeyTable.

(** The state right after a checkpoint: every live row is untouched and
    the other three buckets are empty. *)
Definition checkpointed (st : state) : Prop :=
  (forall r, r ∈ untouched st <-> r ∈ all st)
  /\ NoDup (untouched st)
  /\ added st = [] /\ changed st = [] /\ deleted st = [].

(** The values a row holds in the key columns, in key order. *)
Definition key_values (C : config) (rw : row) : list value :=
  map (row_get rw) (key C).

(** What the [Row] constructor makes for this table: one property per
    declared column, in order, read-only exactly on the key columns. *)
Definition row_shape (C : config) (rw : row) : Prop :=
  rw.*1 = (columns C).*1
  /\ forall k p, al_lookup rw k = Some p ->
       prop_writable p = negb (bool_decide (k ∈ key C)).

(** The property [Row] first defines for a column, and what becomes of a
    property once the key columns have been made read-only. *)
Definition fresh_prop (data : pojo) (col : string) : prop :=
  {| prop_value := obj_get data col; prop_writable := true |}.

Definition lock_prop (keys : list string) (k : string) (p : prop) : prop :=
  {| prop_value := prop_value p;
     prop_writable := if decide (k ∈ keys) then false else prop_writable p |}.

(** Every row object has that shape, and every live reference points to
    one. *)
Definition heap_ok (C : config) (st : state) : Prop :=
  Forall (row_shape C) (heap st)
  /\ forall r, r ∈ all st -> (r < length (heap st))%nat.

(** The heap only grows, and no row's key values change. *)
Definition heap_le (C : config) (h h' : list row) : Prop :=
  (length h <= length h')%nat
  /\ forall r, (r < length h)%nat ->
       key_values C (deref h' r) = key_values C (deref h r).

(** A method keeps the heap in shape and the key values in place. *)
Definition preserves (C : config) {A} (m : M state A) : Prop :=
  forall st, heap_ok C st ->
    heap_ok C (m st).1 /\ heap_le C (heap st) (heap (m st).1).

(** Following key values down the index, one level per value. *)
Fixpoint lookup_path (ks : list value) (e : entry) : option entry :=
  match ks with
  | [] => Some e
  | k :: ks' =>
      match e with
      | EMap m => m !! k ≫= lookup_path ks'
      | ERow _ => None
      end
  end.

(** An index of [n] levels: rows sit exactly [n] levels down. *)
Fixpoint levels (n : nat) (e : entry) : Prop :=
  match n, e with
  | O, ERow _ => True
  | S n', EMap m => map_Forall (fun _ e' => levels n' e') m
  | _, _ => False
  end.

(** A row is reachable through the index. *)
Definition indexed (st : state) (r : rowid) : Prop :=
  exists ks, lookup_path ks (index st) = Some (ERow r).

(** The index and the live rows agree: the index has one level per key
    column, and the rows it leads to are the live rows, each under its own
    key values and nowhere else. *)
Definition index_ok (C : config) (st : state) : Prop :=
  levels (length (key C)) (index st)
  /\ forall ks r,
       lookup_path ks (index st) = Some (ERow r)
       <-> r ∈ all st /\ ks = key_values C (deref (heap st) r).

Definition consistent (C : config) (st : state) : Prop :=
  heap_ok C st /\ NoDup (all st) /\ index_ok C st.

(** A method keeps the table consistent unless it throws the
    duplicate-key error. *)
Definition keeps (C : config) {A} (m : M state A) : Prop :=
  forall st, consistent C st -> is_duplicate (m st).2 = false ->
    consistent C (m st).1.

(** Ascending by the key columns in declared order, the first differing
    column deciding: at the first position where the two lists of key
    values differ, the first holds the smaller value. *)
Fixpoint lex_le (C : config) (ka kb : list value) : Prop :=
  match ka, kb with
  | a :: ka', b :: kb' =>
      if decide (a = b) then lex_le C ka' kb' else js_lt C a b = true
  | _, _ => True
  end.

Definition ascending (C : config) (h : list row) (r1 r2 : rowid) : Prop :=
  lex_le C (key_values C (deref h r1)) (key_values C (deref h r2)).

(** [<] is a strict total order on these values. *)
Definition ordered_values (C : config) (vs : list value) : Prop :=
  Forall (fun a =>
    js_lt C a a = false
    /\ Forall (fun b =>
         (a = b \/ js_lt C a b = true \/ js_lt C b a = true)
         /\ Forall (fun d =>
              js_lt C a b = true -> js_lt C b d = true -> js_lt C a d = true)
              vs) vs) vs.

(** Key values of one kind: all numbers, or all strings. *)
Definition is_number (v : value) : Prop :=
  match v with VNum _ => True | _ => False end.

Definition is_string (v : value) : Prop :=
  match v with VStr _ => True | _ => False end.

(** In each of these columns, [<] is a strict total order on the values
    the rows hold there. *)
Definition comparable (C : config) (cols : list string) (h : list row)
  : Prop :=
  Forall (fun col => ordered_values C (map (fun rw => row_get rw col) h)) cols.

(** So it is in every key column, for the rows made so far. *)
Definition keys_ordered (C : config) (h : list row) : Prop :=
  comparable C (key C) h.

#[global] Instance ordered_values_dec C vs : Decision (ordered_values C vs).
Proof. unfold ordered_values. apply _. Defined.

#[global] Instance keys_ordered_dec C h : Decision (keys_ordered C h).
Proof. unfold keys_ordered, comparable. apply _. Defined.

(** Unless a sort is pending, [#all] is in ascending order. *)
Definition sorted_ok (C : config) (st : state) : Prop :=
  needSort st = false -> StronglySorted (ascending C (heap st)) (all st).

(** A method keeps the table consistent and, as long as the key values
    stay ordered, sorted, unless it throws the duplicate-key error. *)
Definition keeps_sorted (C : config) {A} (m : M state A) : Prop :=
  forall st, consistent C st -> sorted_ok C st ->
    is_duplicate (m st).2 = false -> keys_ordered C (heap (m st).1) ->
    sorted_ok C (m st).1.

(** What a column of this type is written out as and read back as: the
    value itself unless the type has the hook. *)
Definition through (C : config)
    (hook : type_hooks -> option (value -> value)) (type : string)
    (v : value) : value :=
  match al_lookup (types C) type with
  | Some t => match hook t with Some fn => fn v | None => v end
  | None => v
  end.

(** For every column, reading back what was written out of a live row
    gives the value the row holds. *)
Definition hooks_invert (C : config) (st : state) : Prop :=
  forall r col type,
    r ∈ all st -> (col, type) ∈ columns C ->
    through C deserialize_fn type
      (through C serialize_fn type (row_get (deref (heap st) r) col))
    = row_get (deref (heap st) r) col.

End KeyTableSpec.

(** ** Concrete tables used below *)

Module Examples.

Definition default_type : KeyTable.type_hooks :=
  {| KeyTable.serialize_fn := None; KeyTable.deserialize_fn := None |}.

(** [new Table({ cols: 'k1,k2,foo', key: 'k1,k2' })] *)
Definition cfg : KeyTable.config :=
  {| KeyTable.columns :=
       [("k1", "default"); ("k2", "default"); ("foo", "default")];
     KeyTable.key := ["k1"; "k2"];
     KeyTable.types := [("default", default_type)];
     KeyTable.StringToNumber := fun _ => None |}.

(** [{ k1, k2, foo }] *)
Definition rec (k1 k2 : Z) (foo : string) : pojo :=
  [("k1", VNum k1); ("k2", VNum k2); ("foo", VStr foo)].

(** [{ k1, k2 }] *)
Definition keyOf (k1 k2 : Z) : pojo := [("k1", VNum k1); ("k2", VNum k2)].

(** One row, [{ k1: 1, k2: 2, foo: 'bar' }], added to a new table. *)
Abbreviation one_row :=
  (KeyTable.run cfg [KeyTable.Add (rec 1 2 "bar")] KeyTable.fresh).

(** The same after [resetChanges()]: the row is untouched. *)
Abbreviation one_row_saved :=
  (KeyTable.run cfg [KeyTable.Add (rec 1 2 "bar"); KeyTable.ResetChanges]
     KeyTable.fresh).

(** The three rows of the README's ordering example, in insertion order. *)
Definition three_adds : list KeyTable.op :=
  [KeyTable.Add (rec 2 2 "bar"); KeyTable.Add (rec 1 2 "baz");
   KeyTable.Add (rec 2 3 "boz")].

Abbreviation three_rows := (KeyTable.run cfg three_adds KeyTable.fresh).

(** A row whose first key column holds [undefined], then the row
    [(1, 1, 'b')]. *)
Definition undefined_key : list KeyTable.op :=
  [KeyTable.Add [("k1", VUndef); ("k2", VNum 2); ("foo", VStr "a")];
   KeyTable.Add (rec 1 1 "b")].

(** A unique index on [foo] that already holds row 0 under ['bar']. *)
Definition by_foo (o : pojo) : value := obj_get o "foo".

Definition by_id (o : pojo) : value := obj_get o "id".

Definition foo_heap : list pojo :=
  [[("id", VNum 1); ("foo", VStr "bar")];
   [("id", VNum 2); ("foo", VStr "bar")];
   [("id", VNum 3); ("foo", VStr "baz")]].

Definition foo_map : gmap value IndexTable.rowid := {[ VStr "bar" := 0%nat ]}.

(** [new Table({ main: x => x.id, onsave })], then
    [upsert({ id: 1, foo: 'bar' })] and [save()]. *)
Definition saved_table : IndexTable.state :=
  (IndexTable.save
     (IndexTable.upsert [("id", VNum 1); ("foo", VStr "bar")]
        (IndexTable.Table_new true (Some by_id) None)).1).1.

End Examples.

Module TrackerSpec.
Import KeyTable.

(** The change tracker files every live row under exactly one of
    [untouched], [added] and [changed], keeps what it deleted apart from
    the live rows, and all five sets hold rows that exist. *)
Definition tracked (st : state) : Prop :=
  (NoDup (all st) /\ NoDup (untouched st) /\ NoDup (added st)
   /\ NoDup (changed st) /\ NoDup (deleted st))
  /\ (forall r, r ∈ all st <->
        r ∈ untouched st \/ r ∈ added st \/ r ∈ changed st)
  /\ (forall r, r ∈ untouched st -> (r ∉ added st) /\ (r ∉ changed st))
  /\ (forall r, r ∈ added st -> r ∉ changed st)
  /\ (forall r, r ∈ deleted st -> r ∉ all st)
  /\ (forall r, r ∈ all st \/ r ∈ deleted st -> (r < length (heap st))%nat).

(** A method leaves the tracker in that state, whether it returns or
    throws. *)
Definition tracks {A} (m : M state A) : Prop :=
  forall st, tracked st -> tracked (m st).1.

End TrackerSpec.

Module LoadSpec.
Import KeyTable KeyTableSpec.



(** What [#serialize] writes out of a row. *)
Definition written (C : config) (rw : row) : pojo :=
  map (fun ct => (ct.1, through C serialize_fn ct.2 (row_get rw ct.1)))
    (columns C).

End LoadSpec.

(** ** Construction of the composite-key table *)

Module Schema.
Import KeyTable.
Import Stdlib.Strings.Ascii.

(** The messages of the constructor's assertions. *)
Inductive schema_error :=
  | MustSupplyDefinition            (* 'Must supply table definition' *)
  | NoColumnsSupplied               (* 'No columns supplied' *)
  | NoKeySupplied                   (* 'No key supplied' *)
  | UnknownType (type : string)     (* 'Unknown type: ' + type *)
  | NoSuchColumn (col : string)     (* 'No such column: ' + col *)
  | KeyEmpty                        (* 'Key must have at least one column' *)
  | NumericName (col : string).     (* not covered, see [parseColumns] *)

Inductive outcome (A : Type) :=
  | Made (a : A)
  | Failed (e : schema_error).
Arguments Made {A} a.
Arguments Failed {A} e.

(** The argument of the constructor: [None] is a falsy [defs]; of an
    object only [cols] and [key] are read, and each is kept only if it is
    a string. *)
Record table_defs := {
  defs_cols : option string;
  defs_key : option string
}.

(** [s.split(sep)] for a separator that matches one character at a time,
    the regular expression [/[ ,]/] or the string [':']: the pieces
    between the matches, empty ones included. *)
Fixpoint String_split (sep : Ascii.ascii -> bool) (s : string) : list string :=
  match s with
  | EmptyString => [EmptyString]
  | String c s' =>
      if sep c then EmptyString :: String_split sep s'
      else match String_split sep s' with
           | piece :: pieces => String c piece :: pieces
           | [] => [String c EmptyString]
           end
  end.

(** [/[ ,]/] *)
Definition space_or_comma (c : Ascii.ascii) : bool :=
  Ascii.eqb c " "%char || Ascii.eqb c ","%char.

(** [':'] *)
Definition colon (c : Ascii.ascii) : bool := Ascii.eqb c ":"%char.

(** [.filter(Boolean)] on strings: the empty string is the falsy one. *)
Definition filter_Boolean (l : list string) : list string :=
  filter (fun s => s <> EmptyString) l.

(** [s.includes(':')] *)
Fixpoint includes_colon (s : string) : bool :=
  match s with
  | EmptyString => false
  | String c s' => colon c || includes_colon s'
  end.

(** The decimal digits; a property name that is an array index starts
    with one. *)
Definition starts_with_digit (s : string) : bool :=
  match s with
  | EmptyString => false
  | String c _ =>
      let n := Ascii.nat_of_ascii c in
      bool_decide (48 <= n)%nat && bool_decide (n <= 57)%nat
  end.

(** [array.map(f)] for an [f] whose assertion may fail. *)
Fixpoint Array_map_assert {A B} (f : A -> outcome B) (l : list A)
  : outcome (list B) :=
  match l with
  | [] => Made []
  | x :: l' =>
      match f x with
      | Failed e => Failed e
      | Made y =>
          match Array_map_assert f l' with
          | Failed e => Failed e
          | Made ys => Made (y :: ys)
          end
      end
  end.

(** [Object.fromEntries(entries)]: a later entry for the same name
    overwrites the value and keeps the place. *)
Definition fromEntries {A} (entries : list (string * A)) : list (string * A) :=
  foldl (fun o kv => al_set o kv.1 kv.2) [] entries.

(** [list.forEach(x => assert(ok(x), msg(x)))]: the first element that
    fails the assertion, if any. *)
Fixpoint first_failing {A} (ok : A -> bool) (l : list A) : option A :=
  match l with
  | [] => None
  | x :: l' => if ok x then first_failing ok l' else Some x
  end.

Section Realm.

(** The property names that a plain object inherits from
    [Object.prototype]: the operator [in] finds them as well as the
    object's own. *)
Variable inherited : string -> bool.

(** [k in o] *)
Definition has_property {A} (o : list (string * A)) (k : string) : bool :=
  al_has o k || inherited k.

(** The body of the [map] in [#parseColumns].  A definition without a
    colon has [':default'] appended, so the split has two pieces at
    least; with fewer, [type] would be [undefined]. *)
Definition parseColumn (types : list (string * type_hooks)) (colDef : string)
  : outcome (string * string) :=
  let colDef :=
    if includes_colon colDef then colDef else (colDef +:+ ":default")%string in
  match String_split colon colDef with
  | name :: type :: _ =>
      if has_property types type then Made (name, type)
      else Failed (UnknownType type)
  | _ => Failed (UnknownType "undefined")
  end.

(** [#parseColumns(colString)].  The object is kept as the list of its
    entries in the order [keys] and [entries] give them, which is the
    order of definition as long as no name is an array index; a
    definition with a name that starts with a digit is not covered. *)
Definition parseColumns (types : list (string * type_hooks))
    (colString : string) : outcome (list (string * string)) :=
  match Array_map_assert (parseColumn types)
          (filter_Boolean (String_split space_or_comma colString)) with
  | Failed e => Failed e
  | Made entries =>
      match first_failing (fun kv => negb (starts_with_digit kv.1)) entries with
      | Some kv => Failed (NumericName kv.1)
      | None => Made (fromEntries entries)
      end
  end.

(** [#parseKey(keyString)] *)
Definition parseKey (columns : list (string * string)) (keyString : string)
  : outcome (list string) :=
  let key := filter_Boolean (String_split space_or_comma keyString) in
  match first_failing (has_property columns) key with
  | Some col => Failed (NoSuchColumn col)
  | None => if bool_decide (key = []) then Failed KeyEmpty else Made key
  end.

(** [new Table(defs)]: what the table is made with; its state is
    [fresh], the one [clear()] leaves.  The registry [Table.#types] and
    the conversion of strings to numbers are the surroundings'. *)
Definition Table_new (types : list (string * type_hooks))
    (StringToNumber : string -> option Z) (defs : option table_defs)
  : outcome config :=
  match defs with
  | None => Failed MustSupplyDefinition
  | Some defs =>
      match defs_cols defs with
      | None => Failed NoColumnsSupplied
      | Some colString =>
          match defs_key defs with
          | None => Failed NoKeySupplied
          | Some keyString =>
              match parseColumns types colString with
              | Failed e => Failed e
              | Made columns =>
                  match parseKey columns keyString with
                  | Failed e => Failed e
                  | Made key =>
                      Made {| columns := columns; key := key;
                              types := types;
                              StringToNumber := StringToNumber |}
                  end
              end
          end
      end
  end.

End Realm.

(** [get cols ()] and [get key ()] *)
Definition cols (C : config) : list string := (columns C).*1.

Definition key (C : config) : list string := KeyTable.key C.

(** [Table.registerType(name, { serialize, deserialize })] on the
    registry.  (Assigning to the name ['__proto__'] would not define a
    property; the registry is left as it is then, which only matters for
    what it inherits.) *)
Definition registerType (name : string) (hooks : type_hooks)
    (types : list (string * type_hooks)) : list (string * type_hooks) :=
  if decide (name = "__proto__") then types else al_set types name hooks.

(** What an object inherits where nobody has added to
    [Object.prototype]. *)
Definition Object_prototype (k : string) : bool :=
  bool_decide
    (k ∈ ["constructor"; "__defineGetter__"; "__defineSetter__";
          "hasOwnProperty"; "__lookupGetter__"; "__lookupSetter__";
          "isPrototypeOf"; "propertyIsEnumerable"; "toString"; "valueOf";
          "__proto__"; "toLocaleString"]).

End Schema.

Module SchemaSpec.
Import KeyTable Schema.
Import Stdlib.Strings.Ascii.

(** No character of the string is one of these. *)
Fixpoint without (p : ascii -> bool) (s : string) : bool :=
  match s with
  | EmptyString => true
  | String c s' => negb (p c) && without p s'
  end.

(** A piece of a definition string: no space, comma or colon in it. *)
Definition bare (s : string) : Prop :=
  without (fun c => space_or_comma c || colon c) s = true.

(** A column name as a definition string can hold it: a piece that is
    not empty. *)
Definition plain (s : string) : Prop := s <> EmptyString /\ bare s.

(** Spaces and commas only, and at least one. *)
Definition separator (s : string) : Prop :=
  s <> EmptyString /\ without (fun c => negb (space_or_comma c)) s = true.

(** A column with or without a type, as written in a definition string
    ([name] or [name:type]) and as parsed. *)
Definition column_token (ct : string * option string) : string :=
  match ct.2 with
  | None => ct.1
  | Some type => (ct.1 +:+ ":" +:+ type)%string
  end.

Definition column_entry (ct : string * option string) : string * string :=
  (ct.1, default "default"%string ct.2).

(** A column the parser takes as written. *)
Definition well_formed (ct : string * option string) : Prop :=
  plain ct.1 /\ starts_with_digit ct.1 = false
  /\ match ct.2 with Some type => bare type | None => True end.

End SchemaSpec.

(** ** [upsert] and [delete] of several records at once *)

Module IndexTableArrays.
Import IndexTable.

(** What [upsert] and [delete] are given, plain data or something
    iterable, an array say, whose elements are such again; and what they
    return for it, a value or an array of what they return for the
    elements. *)
Inductive nested (A : Type) :=
  | One (a : A)
  | Many (l : list (nested A)).
Arguments One {A} a.
Arguments Many {A} l.

(** [if (data[Symbol.iterator]) return [...data].map(d => this.method(d))],
    and the method's own body otherwise. *)
Fixpoint each_record {A B} (method : A -> M state B) (data : nested A)
  : M state (nested B) :=
  match data with
  | One d => let* b := method d in ret (One b)
  | Many l =>
      let* bs :=
        (fix map (l : list (nested A)) : M state (list (nested B)) :=
           match l with
           | [] => ret []
           | d :: l' =>
               let* b := each_record method d in
               let* bs := map l' in
               ret (b :: bs)
           end) l in
      ret (Many bs)
  end.

(** [upsert(data)] *)
Definition upsert (data : nested pojo) : M state (nested rowid) :=
  each_record IndexTable.upsert data.

(** [delete(data)] *)
Definition delete (data : nested pojo) : M state (nested (option rowid)) :=
  each_record IndexTable.delete data.



End IndexTableArrays.

(** ** Vocabulary for the table with named indexes *)

Module IndexTableSpec.
Import IndexTable.

(** An index holds exactly these rows, each under the key its function
    derives from the row as it is now: a non-unique index keeps under a
    key the set of the rows deriving it and no empty set, a unique index
    the one row deriving it. *)
Definition holds (h : list pojo) (rows : list rowid) (ix : index) : Prop :=
  match ix with
  | Index fn map =>
      forall key,
        match map !! key with
        | Some entry =>
            entry <> [] /\ NoDup entry
            /\ forall r, r ∈ entry <-> r ∈ rows /\ fn (deref h r) = key
        | None => forall r, r ∈ rows -> fn (deref h r) <> key
        end
  | UniqueIndex fn map =>
      forall key r,
        map !! key = Some r <-> r ∈ rows /\ fn (deref h r) = key
  end.

(** The class of an index, unique or not, and its function; neither ever
    changes. *)
Definition ix_fn (ix : index) : bool * (pojo -> value) :=
  match ix with
  | Index fn _ => (false, fn)
  | UniqueIndex fn _ => (true, fn)
  end.

(** Every index of the table holds exactly the rows of [_data], which are
    distinct objects that exist; index names are distinct. *)
Definition indexes_agree (st : state) : Prop :=
  NoDup (_data st)
  /\ (forall r, r ∈ _data st -> (r < length (heap st))%nat)
  /\ NoDup (_ix st).*1
  /\ Forall (fun kix => holds (heap st) (_data st) kix.2) (_ix st).

(** The change tracking is sound: changed rows are rows of the table,
    deleted rows are not, and all of them exist. *)
Definition tracking_ok (st : state) : Prop :=
  (NoDup (_data st) /\ NoDup (_changed st) /\ NoDup (_deleted st))
  /\ (forall r, r ∈ _changed st -> r ∈ _data st)
  /\ (forall r, r ∈ _deleted st -> r ∉ _data st)
  /\ (forall r, r ∈ _data st \/ r ∈ _deleted st ->
        (r < length (heap st))%nat).

End IndexTableSpec.

Module IndexTableLaws.
Import IndexTable IndexTableSpec.

(** The table is sound: its indexes agree with its rows and its change
    tracking is in order. *)
Definition table_ok (st : state) : Prop :=
  indexes_agree st /\ tracking_ok st.

End IndexTableLaws.

(** * Properties *)

(** ** Sets and objects *)

Section SetFacts.
Context {A : Type} `{EqDecision A}.
Implicit Types (s l : list A) (x y : A).

Lemma Set_has_true s x : Set_has s x = true <-> x ∈ s.
Proof. unfold Set_has. by rewrite bool_decide_eq_true. Qed.

Lemma Set_has_false s x : Set_has s x = false <-> x ∉ s.
Proof. unfold Set_has. by rewrite bool_decide_eq_false. Qed.

Lemma elem_of_Set_add s x y : y ∈ Set_add s x <-> y ∈ s \/ y = x.
Proof.
  unfold Set_add. destruct (Set_has s x) eqn:E.
  - apply Set_has_true in E. split; [by left|]. intros [?| ->]; done.
  - rewrite elem_of_app, list_elem_of_singleton. done.
Qed.

Lemma Set_add_here s x : x ∈ Set_add s x.
Proof. apply elem_of_Set_add. by right. Qed.

Lemma NoDup_Set_add s x : NoDup s -> NoDup (Set_add s x).
Proof.
  intros Hs. unfold Set_add. destruct (Set_has s x) eqn:E; [done|].
  apply Set_has_false in E. apply NoDup_app. split_and!; [done| |].
  - intros y Hy ->%list_elem_of_singleton. done.
  - apply NoDup_singleton.
Qed.

Lemma elem_of_Set_delete s x y : y ∈ Set_delete s x <-> y ∈ s /\ y <> x.
Proof. unfold Set_delete. rewrite list_elem_of_filter. tauto. Qed.

Lemma NoDup_Set_delete s x : NoDup s -> NoDup (Set_delete s x).
Proof. apply NoDup_filter. Qed.

Lemma elem_of_foldl_Set_add l s y : y ∈ foldl Set_add s l <-> y ∈ s \/ y ∈ l.
Proof.
  revert s. induction l as [|x l IH]; intros s; simpl.
  - rewrite elem_of_nil. tauto.
  - rewrite IH, elem_of_Set_add, elem_of_cons. intuition.
Qed.

Lemma elem_of_Set_from l y : y ∈ Set_from l <-> y ∈ l.
Proof.
  unfold Set_from. rewrite elem_of_foldl_Set_add, elem_of_nil. tauto.
Qed.

Lemma NoDup_foldl_Set_add l s : NoDup s -> NoDup (foldl Set_add s l).
Proof.
  revert s. induction l as [|x l IH]; intros s Hs; simpl; [done|].
  by apply IH, NoDup_Set_add.
Qed.

Lemma NoDup_Set_from l : NoDup (Set_from l).
Proof. apply NoDup_foldl_Set_add, NoDup_nil_2. Qed.

Lemma foldl_Set_add_NoDup l s :
  NoDup (s ++ l) -> foldl Set_add s l = s ++ l.
Proof.
  revert s. induction l as [|x l IH]; intros s Hnd; simpl.
  - by rewrite app_nil_r.
  - assert (x ∉ s) as Hx.
    { apply NoDup_app in Hnd as (_ & Hd & _). intros Hin.
      apply (Hd x Hin). by left. }
    unfold Set_add at 2. apply Set_has_false in Hx. rewrite Hx.
    rewrite IH; rewrite <- (assoc_L (++)); done.
Qed.

(** Copying a set gives the same set. *)
Lemma Set_from_NoDup l : NoDup l -> Set_from l = l.
Proof. intros Hnd. unfold Set_from. by rewrite foldl_Set_add_NoDup. Qed.

End SetFacts.

(** ** Running methods *)

Section MonadFacts.
Context {S A B : Type}.
Implicit Types (m : M S A) (k : A -> M S B).

Lemma bind_Ok m k st st' b :
  bind m k st = (st', Ok b) ->
  exists st1 a, m st = (st1, Ok a) /\ k a st1 = (st', Ok b).
Proof.
  unfold bind. destruct (m st) as [st1 [a|e]]; [eauto|discriminate].
Qed.

Lemma bind_run m k st :
  bind m k st =
  match (m st).2 with
  | Ok a => k a (m st).1
  | Throw e => ((m st).1, Throw e)
  end.
Proof. unfold bind. by destruct (m st) as [st1 [a|e]]. Qed.

End MonadFacts.

(** Take a successful run of a sequence of steps apart, one [bind] at a
    time. *)
Ltac bind_inv H :=
  repeat
    (let st1 := fresh "st" in
     let a := fresh "a" in
     let H1 := fresh "Hm" in
     apply bind_Ok in H as (st1 & a & H1 & H)).

(** ** Unique secondary indexes *)

Section UniqueIndexFacts.
Import IndexTable.
Implicit Types (fn : pojo -> value) (map : gmap value rowid)
  (h : list pojo) (row : rowid).

(** C7, as far as the code goes.  [add(row)] throws a [KeyViolation]
    carrying [row] exactly when the derived key is already mapped, to
    whichever row, [row] itself included; when the key is free it maps
    the key to [row] and leaves every other key as it was.  [get] returns
    the row mapped to the derived key, or [undefined]: right after a
    successful [add(row)] that is [row] for data deriving the same key. *)
Theorem UniqueIndex_add_get fn map h row :
  (UniqueIndex_add fn map h row = Throw (KeyViolation row)
   <-> is_Some (map !! fn (deref h row)))
  /\ (UniqueIndex_add fn map h row = Ok (<[fn (deref h row) := row]> map)
      <-> map !! fn (deref h row) = None)
  /\ (forall map' data,
        UniqueIndex_add fn map h row = Ok map' ->
        UniqueIndex_get fn map' data =
          if decide (fn data = fn (deref h row)) then Some row
          else UniqueIndex_get fn map data).
Proof.
  unfold UniqueIndex_add, UniqueIndex_get.
  destruct (map !! fn (deref h row)) as [other|] eqn:E.
  - rewrite bool_decide_eq_true_2 by eauto. split_and!.
    + split; [eauto|done].
    + split; discriminate.
    + discriminate.
  - rewrite bool_decide_eq_false_2 by (by intros [? ?]). split_and!.
    + split; [discriminate|]. by intros [? ?].
    + done.
    + intros map' d [= <-]. case_decide as Hd.
      * rewrite Hd. apply lookup_insert_eq.
      * by apply lookup_insert_ne.
Qed.

Lemma UniqueIndex_add_get_witness :
  UniqueIndex_add Examples.by_foo Examples.foo_map Examples.foo_heap 2
    = Ok (<[VStr "baz" := 2%nat]> Examples.foo_map)
  /\ UniqueIndex_get Examples.by_foo
       (<[VStr "baz" := 2%nat]> Examples.foo_map) [("foo", VStr "baz")]
     = Some 2%nat.
Proof.
  pose proof (UniqueIndex_add_get Examples.by_foo Examples.foo_map
                Examples.foo_heap 2) as (_ & Hadd & Hget).
  assert (UniqueIndex_add Examples.by_foo Examples.foo_map Examples.foo_heap 2
          = Ok (<[VStr "baz" := 2%nat]> Examples.foo_map)) as Hok.
  { apply Hadd. reflexivity. }
  split; [exact Hok|].
  rewrite (Hget _ [("foo", VStr "baz")] Hok). reflexivity.
Defined.

(** C7 as stated fails: the index holds row 0 under ['bar']; adding row 0
    again throws, although the key maps to no different row. *)
Lemma UniqueIndex_add_same_row :
  UniqueIndex_add Examples.by_foo Examples.foo_map Examples.foo_heap 0
    = Throw (KeyViolation 0)
  /\ ~ (exists other : rowid,
          Examples.foo_map !! Examples.by_foo (deref Examples.foo_heap 0)
            = Some other
          /\ other <> 0%nat).
Proof.
  split; [reflexivity|].
  intros (other & Hother & Hne). apply Hne.
  by injection Hother.
Qed.

End UniqueIndexFacts.

(** ** [upsert] and [save] *)

Section UpsertFacts.
Import IndexTable.

(** C10.  A single-record [upsert] that returns has put the row it
    returns into [_changed], whatever the data (nothing compares them with
    the row's values), and a [save()] called then hands [onsave] a
    [changed] set holding that row. *)
Theorem upsert_marks_changed (data : pojo) (st st' : state) (row : rowid) :
  upsert data st = (st', Ok row) ->
  row ∈ _changed st'
  /\ (onsave st' = true ->
      exists st'' changed deleted,
        save st' = (st'', Ok (Some (changed, deleted))) /\ row ∈ changed).
Proof.
  intros H. unfold upsert in H. bind_inv H.
  injection H as <- <-. injection Hm3 as <- _.
  assert (a0 ∈ _changed (set_changed (fun s => Set_add s a0) st3)) as Hin.
  { simpl. apply Set_add_here. }
  split; [exact Hin|].
  intros Hsave. simpl in Hsave.
  unfold save, bind, gets, modify, ret. simpl. rewrite Hsave.
  eexists _, _, _. split; [reflexivity|].
  apply elem_of_Set_from, Set_add_here.
Qed.

(** The row was saved with these very values just before. *)
Lemma upsert_marks_changed_witness :
  _changed Examples.saved_table = []
  /\ deref (heap Examples.saved_table) 0
     = [("id", VNum 1); ("foo", VStr "bar")]
  /\ 0%nat ∈ _changed
       (upsert [("id", VNum 1); ("foo", VStr "bar")] Examples.saved_table).1.
Proof.
  split; [reflexivity|]. split; [reflexivity|].
  apply (upsert_marks_changed [("id", VNum 1); ("foo", VStr "bar")]
           Examples.saved_table _ 0%nat).
  vm_compute. reflexivity.
Defined.

End UpsertFacts.

(** ** Property lists *)

Section AlFacts.
Context {A : Type}.
Implicit Types (o : list (string * A)) (k : string) (v : A).

Lemma al_lookup_set o k v k' :
  al_lookup (al_set o k v) k' =
  if decide (k' = k) then Some v else al_lookup o k'.
Proof.
  induction o as [|[k0 v0] o IH]; simpl.
  - repeat case_decide; congruence.
  - repeat (case_decide; simpl); congruence.
Qed.

Lemma al_lookup_None o k : al_lookup o k = None <-> k ∉ o.*1.
Proof.
  induction o as [|[k0 v0] o IH]; simpl.
  - split; [intros _; apply not_elem_of_nil|done].
  - rewrite not_elem_of_cons. case_decide; [|tauto].
    split; [done|]. intros [? _]. done.
Qed.

Lemma al_lookup_is_Some o k : is_Some (al_lookup o k) <-> k ∈ o.*1.
Proof.
  rewrite <- not_eq_None_Some, al_lookup_None.
  split; [apply dec_stable|]. intros H Hn. done.
Qed.

Lemma al_has_true o k : al_has o k = true <-> k ∈ o.*1.
Proof.
  rewrite <- al_lookup_is_Some. unfold al_has.
  destruct (al_lookup o k); split; try done; eauto.
Qed.

Lemma al_set_names_present o k v : k ∈ o.*1 -> (al_set o k v).*1 = o.*1.
Proof.
  induction o as [|[k0 v0] o IH]; csimpl.
  - by intros ?%elem_of_nil.
  - intros Hin. case_decide as Hk; csimpl; [by rewrite Hk|].
    rewrite IH; [done|]. apply elem_of_cons in Hin as [?|?]; done.
Qed.

Lemma al_set_names_absent o k v : k ∉ o.*1 -> al_set o k v = o ++ [(k, v)].
Proof.
  induction o as [|[k0 v0] o IH]; csimpl; [done|].
  intros [Hne Hin]%not_elem_of_cons. rewrite decide_False by done.
  by rewrite IH.
Qed.

End AlFacts.

(** ** Row objects *)

Section RowFacts.
Import KeyTable KeyTableSpec.
Implicit Types (C : config) (data : pojo) (rw defs : row) (k col : string).

Lemma row_get_spread rw col : obj_get (spread rw) col = row_get rw col.
Proof.
  unfold obj_get, row_get, spread.
  induction rw as [|[k0 p0] rw IH]; simpl; [done|].
  case_decide; done.
Qed.

Lemma al_has_spread rw col : al_has (spread rw) col = al_has rw col.
Proof.
  unfold al_has, spread.
  induction rw as [|[k0 p0] rw IH]; simpl; [done|].
  case_decide; done.
Qed.

Lemma spread_names rw : (spread rw).*1 = rw.*1.
Proof. unfold spread. induction rw as [|[k0 p0] rw IH]; csimpl; congruence. Qed.

Lemma Row_defs_lookup_acc data cols defs k :
  al_lookup
    (foldl (fun defs col => al_set defs col (fresh_prop data col)) defs cols) k
  = if decide (k ∈ cols) then Some (fresh_prop data k) else al_lookup defs k.
Proof.
  revert defs. induction cols as [|c cols IH]; intros defs; simpl.
  - done.
  - rewrite IH, al_lookup_set.
    destruct (decide (k ∈ cols)) as [Hin|Hin].
    + rewrite decide_True; [done|by right].
    + destruct (decide (k = c)) as [->|Hne].
      * rewrite decide_True; [done|by left].
      * rewrite decide_False; [done|]. by intros [?|?]%elem_of_cons.
Qed.

Lemma Row_defs_names_acc data cols defs :
  NoDup (defs.*1 ++ cols) ->
  (foldl (fun defs col => al_set defs col (fresh_prop data col)) defs cols).*1
  = defs.*1 ++ cols.
Proof.
  revert defs. induction cols as [|c cols IH]; intros defs Hnd; simpl.
  - by rewrite app_nil_r.
  - assert (c ∉ defs.*1) as Hc.
    { apply NoDup_app in Hnd as (_ & Hd & _). intros Hin.
      apply (Hd c Hin). by left. }
    rewrite al_set_names_absent by done.
    rewrite IH; rewrite fmap_app; csimpl; rewrite <- (assoc_L (++)); done.
Qed.

Lemma Row_defs_lookup data cols k :
  al_lookup (Row_defs data cols) k
  = if decide (k ∈ cols) then Some (fresh_prop data k) else None.
Proof. apply Row_defs_lookup_acc. Qed.

Lemma Row_defs_names data cols : NoDup cols -> (Row_defs data cols).*1 = cols.
Proof. intros Hnd. exact (Row_defs_names_acc data cols [] Hnd). Qed.

Lemma Row_lock_Ok data keys defs rw :
  Row_lock data keys defs = Ok rw ->
  rw.*1 = defs.*1
  /\ (forall k, al_lookup rw k = lock_prop keys k <$> al_lookup defs k)
  /\ Forall (fun col => al_has data col = true) keys.
Proof.
  revert defs. induction keys as [|c keys IH]; intros defs; simpl.
  - intros [= <-]. split_and!; [done| |done].
    intros k. destruct (al_lookup defs k) as [[v w]|]; simpl; [|done].
    done.
  - destruct (al_has data c) eqn:Hhas; [|done].
    destruct (al_lookup defs c) as [p|] eqn:Hc; [|done].
    intros (Hn & Hl & Hk)%IH. split_and!.
    + rewrite Hn. apply al_set_names_present, al_lookup_is_Some. eauto.
    + intros k. rewrite Hl, al_lookup_set.
      destruct (decide (k = c)) as [->|Hne]; simpl.
      * rewrite Hc. simpl. unfold lock_prop. simpl.
        rewrite (decide_True (P := c ∈ c :: keys)) by (by left).
        by destruct (decide (c ∈ keys)).
      * destruct (al_lookup defs k) as [q|]; simpl; [|done].
        unfold lock_prop. f_equal. f_equal.
        destruct (decide (k ∈ keys)) as [Hin|Hin].
        -- rewrite decide_True; [done|by right].
        -- rewrite decide_False; [done|]. by intros [?|?]%elem_of_cons.
    + by constructor.
Qed.

Lemma Row_lock_succeeds data keys defs :
  Forall (fun col => al_has data col = true) keys ->
  Forall (fun col => col ∈ defs.*1) keys ->
  exists rw, Row_lock data keys defs = Ok rw.
Proof.
  revert defs. induction keys as [|c keys IH]; intros defs Hd Hk; simpl.
  - eauto.
  - apply Forall_cons in Hd as [-> Hd]. apply Forall_cons in Hk as [Hc Hk].
    apply al_lookup_is_Some in Hc as [p Hp]. rewrite Hp.
    apply IH; [done|].
    eapply Forall_impl; [exact Hk|]. intros col Hcol. simpl in Hcol.
    rewrite al_set_names_present; [done|].
    apply al_lookup_is_Some. eauto.
Qed.

Lemma Row_new_lookup C data rw k :
  Row_new data (columns C).*1 (key C) = Ok rw ->
  al_lookup rw k =
  if decide (k ∈ (columns C).*1)
  then Some {| prop_value := obj_get data k;
               prop_writable := negb (bool_decide (k ∈ key C)) |}
  else None.
Proof.
  intros (_ & Hl & _)%Row_lock_Ok. rewrite Hl, Row_defs_lookup.
  case_decide; simpl; [|done]. unfold lock_prop. simpl.
  f_equal. f_equal. case_decide.
  - by rewrite bool_decide_eq_true_2.
  - by rewrite bool_decide_eq_false_2.
Qed.

Lemma Row_new_shape C data rw :
  constructible C ->
  Row_new data (columns C).*1 (key C) = Ok rw -> row_shape C rw.
Proof.
  intros HC H. split.
  - apply Row_lock_Ok in H as (-> & _ & _).
    apply Row_defs_names, HC.
  - intros k p Hk. rewrite (Row_new_lookup C data rw k H) in Hk.
    case_decide; [|done]. by injection Hk as <-.
Qed.

Lemma Row_new_get C data rw col :
  Row_new data (columns C).*1 (key C) = Ok rw ->
  col ∈ (columns C).*1 -> row_get rw col = obj_get data col.
Proof.
  intros H Hin. unfold row_get. rewrite (Row_new_lookup C data rw col H).
  by rewrite decide_True.
Qed.

Lemma key_in_columns C col :
  constructible C -> col ∈ key C -> col ∈ (columns C).*1.
Proof.
  intros HC Hin. apply al_has_true.
  by apply (proj1 (Forall_forall _ _) (key_declared C HC)).
Qed.

End RowFacts.

Section AssignFacts.
Import KeyTable KeyTableSpec.
Implicit Types (C : config) (data : pojo) (rw : row) (k col : string).

Lemma spread_al_set rw k v w :
  spread (al_set rw k {| prop_value := v; prop_writable := w |})
  = al_set (spread rw) k v.
Proof.
  unfold spread. induction rw as [|[k0 p0] rw IH]; simpl; [done|].
  case_decide; simpl; [done|]. by rewrite IH.
Qed.

Lemma assign_loop_frame rw data :
  (assign_loop rw data).1.*1 = rw.*1
  /\ (forall k, prop_writable <$> al_lookup (assign_loop rw data).1 k
                = prop_writable <$> al_lookup rw k)
  /\ (forall k p, al_lookup rw k = Some p -> prop_writable p = false ->
        al_lookup (assign_loop rw data).1 k = Some p).
Proof.
  revert rw. induction data as [|[k v] data IH]; intros rw; simpl; [done|].
  destruct (al_lookup rw k) as [p|] eqn:Hk; [|done].
  destruct (prop_writable p) eqn:Hw; [|done].
  destruct (IH (al_set rw k {| prop_value := v; prop_writable := true |}))
    as (Hn & Hf & Hro).
  split_and!.
  - rewrite Hn. apply al_set_names_present, al_lookup_is_Some. eauto.
  - intros k'. rewrite Hf, al_lookup_set. case_decide as Hkk; [|done].
    subst k'. rewrite Hk. simpl. by rewrite Hw.
  - intros k' q Hq Hqw. apply Hro; [|done].
    rewrite al_lookup_set. case_decide as Hkk; [|done].
    subst k'. congruence.
Qed.

Lemma assign_loop_Ok rw data :
  (forall k, k ∈ data.*1 ->
     exists p, al_lookup rw k = Some p /\ prop_writable p = true) ->
  (assign_loop rw data).2 = Ok tt
  /\ spread (assign_loop rw data).1 = obj_spread (spread rw) data.
Proof.
  revert rw. induction data as [|[k v] data IH]; intros rw Hd; simpl; [done|].
  destruct (Hd k) as (p & -> & ->); [by left|].
  unfold obj_spread. simpl. rewrite <- (spread_al_set rw k v true). apply IH.
  intros k' Hk'. destruct (Hd k') as (q & Hq & Hqw); [by right|].
  rewrite al_lookup_set. case_decide; eauto.
Qed.

Lemma assign_loop_shape C rw data :
  row_shape C rw -> row_shape C (assign_loop rw data).1.
Proof.
  destruct (assign_loop_frame rw data) as (Hn & Hf & _).
  intros [Hnames Hw]. split; [congruence|].
  intros k p Hk. specialize (Hf k). rewrite Hk in Hf. simpl in Hf.
  destruct (al_lookup rw k) as [q|] eqn:Hq; [|done].
  injection Hf as ->. by apply Hw.
Qed.

Lemma assign_loop_key_values C rw data :
  constructible C -> row_shape C rw ->
  key_values C (assign_loop rw data).1 = key_values C rw.
Proof.
  intros HC [Hnames Hw]. unfold key_values.
  apply map_ext_in. intros col Hcol%list_elem_of_In. unfold row_get.
  destruct (al_lookup rw col) as [p|] eqn:Hp.
  - destruct (assign_loop_frame rw data) as (_ & _ & Hro).
    rewrite (Hro col p Hp); [done|].
    rewrite (Hw col p Hp). by rewrite bool_decide_eq_true_2.
  - apply al_lookup_None in Hp. destruct Hp. rewrite Hnames.
    by apply key_in_columns.
Qed.

End AssignFacts.

Section HeapFacts.
Import KeyTable KeyTableSpec.
Implicit Types (C : config) (h : list row) (rw : row) (r : rowid).

Lemma deref_lookup h r rw : h !! r = Some rw -> deref h r = rw.
Proof. unfold deref. by intros ->. Qed.

Lemma deref_app_old h rw r : (r < length h)%nat -> deref (h ++ [rw]) r = deref h r.
Proof. intros Hr. unfold deref. by rewrite lookup_app_l. Qed.

Lemma deref_app_new h rw : deref (h ++ [rw]) (length h) = rw.
Proof. unfold deref. by rewrite list_lookup_middle. Qed.

Lemma deref_insert_ne h r r' rw : r <> r' -> deref (<[r := rw]> h) r' = deref h r'.
Proof. intros Hne. unfold deref. by rewrite list_lookup_insert_ne. Qed.

Lemma deref_insert_eq h r rw : (r < length h)%nat -> deref (<[r := rw]> h) r = rw.
Proof. intros Hr. unfold deref. by rewrite list_lookup_insert_eq. Qed.

Lemma heap_le_refl C h : heap_le C h h.
Proof. split; [lia|done]. Qed.

Lemma heap_le_trans C h1 h2 h3 :
  heap_le C h1 h2 -> heap_le C h2 h3 -> heap_le C h1 h3.
Proof.
  intros [Hl1 Hk1] [Hl2 Hk2]. split; [lia|].
  intros r Hr. rewrite Hk2 by lia. by apply Hk1.
Qed.

Lemma heap_le_app C h rw : heap_le C h (h ++ [rw]).
Proof.
  split; [rewrite length_app; simpl; lia|].
  intros r Hr. by rewrite deref_app_old.
Qed.

Lemma heap_le_insert C h r rw :
  key_values C rw = key_values C (deref h r) -> heap_le C h (<[r := rw]> h).
Proof.
  intros Hk. split; [by rewrite length_insert|].
  intros r' Hr'. destruct (decide (r = r')) as [<-|Hne].
  - by rewrite deref_insert_eq.
  - by rewrite deref_insert_ne.
Qed.

End HeapFacts.

Section RunFacts.
Import KeyTable KeyTableSpec.
Implicit Types (C : config) (st : state) (data : pojo) (row : rowid).

(** What [add] comes to. *)
Lemma add_run C data st :
  add C data st =
  match Row_new data (columns C).*1 (key C) with
  | Throw e => (st, Throw e)
  | Ok rw =>
      let row := length (heap st) in
      let st1 :=
        set_added (fun s => Set_add s row)
          (set_all (fun s => Set_add s row)
             (set_heap (fun h => h ++ [rw]) st)) in
      let ir :=
        addToIndex_loop (key C) (Z.of_nat (length (key C))) (index st)
          (spread rw) row in
      match ir.2 with
      | Throw e => (set_index (fun _ => ir.1) st1, Throw e)
      | Ok _ => (set_needSort true (set_index (fun _ => ir.1) st1), Ok row)
      end
  end.
Proof.
  unfold add, bind, lift, alloc, modify, addToIndex, ret.
  destruct (Row_new data (columns C).*1 (key C)) as [rw|e]; [|done].
  simpl. rewrite deref_app_new.
  destruct (addToIndex_loop _ _ _ _ _) as [ix [[]|e]]; done.
Qed.

Lemma update_run C row data st :
  update C row data st =
  if Set_has (all st) row then
    let rw := deref (heap st) row in
    if equal (spread rw) (obj_spread (spread rw) data) then (st, Ok row)
    else
      let ar := assign_loop rw data in
      let st1 := set_heap (fun h => <[row := ar.1]> h) st in
      match ar.2 with
      | Throw e => (st1, Throw e)
      | Ok _ =>
          (let st2 := set_untouched (fun s => Set_delete s row) st1 in
           if Set_has (added st) row then st2
           else set_changed (fun s => Set_add s row) st2,
           Ok row)
      end
  else (st, Throw NotCurrentRow).
Proof.
  unfold update, bind, gets, assert, assign, modify, ret, throw. simpl.
  destruct (Set_has (all st) row); [|done].
  destruct (equal _ _); [done|].
  destruct (assign_loop _ _) as [rw' [[]|e]]; simpl; [|done].
  by destruct (Set_has (added st) row).
Qed.

Lemma delete_run C row st :
  delete_ C row st =
  if Set_has (all st) row then
    let st1 :=
      set_untouched (fun s => Set_delete s row)
        (set_changed (fun s => Set_delete s row)
           (set_added (fun s => Set_delete s row)
              (set_deleted (fun s => Set_add s row)
                 (set_all (fun s => Set_delete s row) st)))) in
    let rr :=
      removeFromIndex_loop (key C) (Z.of_nat (length (key C))) (index st)
        false (spread (deref (heap st) row)) in
    (set_index (fun _ => rr.1) st1,
     match rr.2 with Ok _ => Ok tt | Throw e => Throw e end)
  else (st, Throw NotCurrentRow).
Proof.
  unfold delete_, bind, gets, assert, modify, removeFromIndex, ret, throw.
  simpl. destruct (Set_has (all st) row); [|done]. simpl.
  destruct (removeFromIndex_loop _ _ _ _ _) as [ix [b|e]]; done.
Qed.

Lemma data_run C st :
  data C st =
  (if needSort st then
     set_needSort false
       (set_all (fun s => Set_from (Array_sort (sortFn C (heap st)) s)) st)
   else st,
   Ok (if needSort st then Set_from (Array_sort (sortFn C (heap st)) (all st))
       else all st)).
Proof.
  unfold data, bind, gets, modify, ret. simpl. by destruct (needSort st).
Qed.

Lemma resetChanges_run st :
  resetChanges st =
  ({| heap := heap st; all := all st; index := index st;
      untouched := Set_from (all st); added := []; changed := [];
      deleted := []; needSort := needSort st |}, Ok tt).
Proof. reflexivity. Qed.

Lemma clear_run st :
  clear st =
  ({| heap := heap st; all := []; index := EMap ∅; untouched := [];
      added := []; changed := []; deleted := [];
      needSort := needSort st |}, Ok tt).
Proof. reflexivity. Qed.

Lemma find_run C keyData st :
  find C keyData st =
  (st, seek_loop (key C) (Z.of_nat (length (key C))) (index st) None keyData).
Proof. reflexivity. Qed.

End RunFacts.

Section SortPerm.
Context {A : Type}.
Implicit Types (cmp : A -> A -> Z) (l : list A).

Lemma sort_insert_Permutation cmp x l : sort_insert cmp x l ≡ₚ x :: l.
Proof.
  induction l as [|y l IH]; simpl; [done|].
  destruct (0 <? cmp x y); [|done].
  rewrite IH. apply Permutation_swap.
Qed.

Lemma Array_sort_Permutation cmp l : Array_sort cmp l ≡ₚ l.
Proof.
  induction l as [|x l IH]; simpl; [done|].
  by rewrite sort_insert_Permutation, IH.
Qed.

Lemma elem_of_Array_sort cmp l x : x ∈ Array_sort cmp l <-> x ∈ l.
Proof. by rewrite Array_sort_Permutation. Qed.

End SortPerm.

(** Lemmas saying that a method keeps one of the invariants. *)
Create HintDb table discriminated.

Section Preservation.
Import KeyTable KeyTableSpec.
Implicit Types (C : config) (st : state) (data : pojo) (row : rowid).

Lemma preserves_ret C {A} (a : A) : preserves C (ret a).
Proof. intros st H. split; [done|apply heap_le_refl]. Qed.

Lemma preserves_lift C {A} (r : result A) : preserves C (lift r).
Proof. intros st H. split; [done|apply heap_le_refl]. Qed.

Lemma preserves_gets C {A} (f : state -> A) : preserves C (gets f).
Proof. intros st H. split; [done|apply heap_le_refl]. Qed.

Lemma preserves_bind C {A B} (m : M state A) (k : A -> M state B) :
  preserves C m -> (forall a, preserves C (k a)) -> preserves C (bind m k).
Proof.
  intros Hm Hk st H. rewrite bind_run.
  destruct (Hm st H) as [H1 L1].
  destruct (m st) as [st1 [a|e]]; simpl in *; [|done].
  destruct (Hk a st1 H1) as [H2 L2]. split; [done|].
  by eapply heap_le_trans.
Qed.

Lemma preserves_forEach C {A} (l : list A) (f : A -> M state unit) :
  (forall x, preserves C (f x)) -> preserves C (forEach l f).
Proof.
  intros Hf. induction l as [|x l IH]; simpl.
  - apply preserves_ret.
  - apply preserves_bind; [apply Hf|done].
Qed.

Lemma preserves_same C {A} (m : M state A) :
  (forall st, heap (m st).1 = heap st /\ forall r, r ∈ all (m st).1 -> r ∈ all st) ->
  preserves C m.
Proof.
  intros Hm st [Hs Ha]. destruct (Hm st) as [Hh Hall]. split.
  - split; rewrite Hh; [done|]. intros r Hr. by apply Ha, Hall.
  - rewrite Hh. apply heap_le_refl.
Qed.

Lemma preserves_resetChanges C : preserves C resetChanges.
Proof. apply preserves_same. intros st. by rewrite resetChanges_run. Qed.

Lemma preserves_clear C : preserves C clear.
Proof.
  apply preserves_same. intros st. rewrite clear_run. simpl.
  split; [done|]. by intros r ?%elem_of_nil.
Qed.

Lemma preserves_find C keyData : preserves C (find C keyData).
Proof. apply preserves_same. intros st. by rewrite find_run. Qed.

Lemma preserves_changes C : preserves C changes.
Proof. apply preserves_gets. Qed.

Lemma preserves_data C : preserves C (data C).
Proof.
  apply preserves_same. intros st. rewrite data_run. simpl.
  destruct (needSort st); simpl; [|done]. split; [done|].
  intros r. by rewrite elem_of_Set_from, elem_of_Array_sort.
Qed.

Lemma preserves_delete C row : preserves C (delete_ C row).
Proof.
  apply preserves_same. intros st. rewrite delete_run.
  destruct (Set_has (all st) row); simpl; [|done]. split; [done|].
  intros r. rewrite elem_of_Set_delete. tauto.
Qed.

Lemma preserves_add C data : constructible C -> preserves C (add C data).
Proof.
  intros HC st [Hs Ha]. rewrite add_run.
  destruct (Row_new data (columns C).*1 (key C)) as [rw|e] eqn:Hrw.
  2: { split; [done|apply heap_le_refl]. }
  assert (heap_ok C
            (set_added (fun s => Set_add s (length (heap st)))
               (set_all (fun s => Set_add s (length (heap st)))
                  (set_heap (fun h => h ++ [rw]) st)))) as Hok.
  { split; simpl.
    - apply Forall_app. split; [done|].
      apply Forall_singleton. by eapply Row_new_shape.
    - intros r. rewrite elem_of_Set_add, length_app. simpl.
      intros [Hr%Ha| ->]; lia. }
  simpl. destruct (addToIndex_loop _ _ _ _ _).2; simpl;
    (split; [exact Hok|apply heap_le_app]).
Qed.

Lemma preserves_update C row data : constructible C -> preserves C (update C row data).
Proof.
  intros HC st [Hs Ha]. rewrite update_run.
  destruct (Set_has (all st) row) eqn:Hlive.
  2: { split; [done|apply heap_le_refl]. }
  simpl. destruct (equal _ _).
  { split; [done|apply heap_le_refl]. }
  apply Set_has_true in Hlive. pose proof (Ha row Hlive) as Hrow.
  destruct (lookup_lt_is_Some_2 _ _ Hrow) as [rw Hrw].
  rewrite (deref_lookup _ _ _ Hrw).
  assert (row_shape C rw) as Hshape.
  { by apply (proj1 (Forall_lookup _ _) Hs row rw). }
  assert (heap_ok C (set_heap (fun h => <[row := (assign_loop rw data).1]> h) st)
          /\ heap_le C (heap st) (<[row := (assign_loop rw data).1]> (heap st)))
    as [Hok Hle].
  { split.
    - split; simpl.
      + apply Forall_insert; [done|]. by apply assign_loop_shape.
      + intros r Hr. rewrite length_insert. by apply Ha.
    - apply heap_le_insert. rewrite (deref_lookup _ _ _ Hrw).
      by apply assign_loop_key_values. }
  destruct (assign_loop rw data).2; simpl; [|done].
  destruct (Set_has (added st) row); simpl; done.
Qed.

#[local] Hint Resolve preserves_ret preserves_lift preserves_gets
  preserves_bind preserves_forEach preserves_resetChanges preserves_clear
  preserves_find preserves_changes preserves_data preserves_delete
  preserves_add preserves_update : table.

Lemma preserves_get C keyData : constructible C -> preserves C (get_ C keyData).
Proof.
  intros HC. unfold get_. apply preserves_bind; [eauto with table|].
  intros [e|]; eauto with table.
Qed.

Lemma preserves_serialize C : preserves C (serialize C).
Proof. unfold serialize. eauto 6 with table. Qed.

Lemma preserves_load C records : constructible C -> preserves C (load C records).
Proof. intros HC. unfold load. eauto 10 with table. Qed.

#[local] Hint Resolve preserves_get preserves_serialize preserves_load : table.

Lemma preserves_step C o : constructible C -> preserves C (step C o).
Proof. intros HC. destruct o; simpl; eauto 6 with table. Qed.

Lemma run_preserves C ops st :
  constructible C -> heap_ok C st ->
  heap_ok C (run C ops st) /\ heap_le C (heap st) (heap (run C ops st)).
Proof.
  intros HC. revert st. induction ops as [|o ops IH]; intros st H; simpl.
  - split; [done|apply heap_le_refl].
  - destruct (preserves_step C o HC st H) as [H1 L1].
    destruct (IH _ H1) as [H2 L2]. split; [done|by eapply heap_le_trans].
Qed.

Lemma fresh_heap_ok C : heap_ok C fresh.
Proof. split; simpl; [done|]. by intros r ?%elem_of_nil. Qed.

Lemma key_values_get C (rw rw' : row) col :
  key_values C rw' = key_values C rw -> col ∈ key C ->
  row_get rw' col = row_get rw col.
Proof.
  unfold key_values. intros Hk Hcol.
  induction (key C) as [|c l IH]; [by apply elem_of_nil in Hcol|].
  injection Hk as H1 H2.
  apply elem_of_cons in Hcol as [->|Hcol]; [done|by apply IH].
Qed.

End Preservation.

(** ** The index loops *)

Section IndexLoops.
Import KeyTable KeyTableSpec.
Implicit Types (cols : list string) (ix : entry) (kd data : pojo)
  (ks : list value) (r : rowid).

Lemma levels_S n ix :
  levels (S n) ix ->
  exists m, ix = EMap m /\ forall k e, m !! k = Some e -> levels n e.
Proof. destruct ix as [r|m]; simpl; [done|]. intros H. by exists m. Qed.

Lemma levels_empty n : levels (S n) (EMap ∅).
Proof. simpl. apply map_Forall_empty. Qed.

Lemma levels_insert n (m : gmap value entry) k e :
  levels (S n) (EMap m) -> levels n e -> levels (S n) (EMap (<[k := e]> m)).
Proof. simpl. intros Hm He. by apply map_Forall_insert_2. Qed.

Lemma levels_delete n (m : gmap value entry) k :
  levels (S n) (EMap m) -> levels (S n) (EMap (delete k m)).
Proof. simpl. apply map_Forall_delete. Qed.

(** Rows are found at full depth only. *)
Lemma lookup_path_row_length n ix ks r :
  levels n ix -> lookup_path ks ix = Some (ERow r) -> length ks = n.
Proof.
  revert ix ks. induction n as [|n IH]; intros ix ks Hl Hp.
  - destruct ix as [r'|m]; [|done]. by destruct ks.
  - apply levels_S in Hl as (m & -> & Hm). destruct ks as [|k ks]; [done|].
    simpl in Hp. destruct (m !! k) as [e|] eqn:He; [|done]. simpl in Hp.
    simpl. f_equal. by eapply IH; [eapply Hm|].
Qed.

Lemma lookup_path_empty k ks : lookup_path (k :: ks) (EMap ∅) = None.
Proof. simpl. by rewrite lookup_empty. Qed.

Lemma nKey_last (col : string) : Z.of_nat (length [col]) - 1 = 0.
Proof. simpl. lia. Qed.

Lemma nKey_more (col c : string) cols :
  Z.of_nat (length (col :: c :: cols)) - 1 = Z.of_nat (length (c :: cols))
  /\ Z.of_nat (length (c :: cols)) <> 0.
Proof. simpl. lia. Qed.

(** With every key column supplied, [#seek] follows the supplied values
    down the index. *)
Lemma seek_loop_full cols ix kd :
  cols <> [] ->
  levels (length cols) ix ->
  Forall (fun col => al_has kd col = true) cols ->
  seek_loop cols (Z.of_nat (length cols)) ix None kd
  = Ok (lookup_path (map (obj_get kd) cols) ix).
Proof.
  revert ix. induction cols as [|col cols IH]; intros ix Hne Hl Hhas; [done|].
  apply Forall_cons in Hhas as [Hcol Hhas].
  apply levels_S in Hl as (m & -> & Hm).
  destruct cols as [|c cols].
  - simpl seek_loop. rewrite Hcol. simpl.
    by destruct (m !! obj_get kd col).
  - cbn [seek_loop]. rewrite Hcol.
    destruct (nKey_more col c cols) as [-> Hnz].
    rewrite bool_decide_eq_true_2 by done.
    cbn [map lookup_path].
    destruct (m !! obj_get kd col) as [e|] eqn:He; [|done].
    simpl. apply IH; [done|by eapply Hm|done].
Qed.


Lemma addToIndex_loop_more col rest nKey m data r :
  al_has data col = true -> nKey - 1 <> 0 ->
  addToIndex_loop (col :: rest) nKey (EMap m) data r
  = let child := default (EMap ∅) (m !! obj_get data col) in
    ((EMap (<[obj_get data col :=
                (addToIndex_loop rest (nKey - 1) child data r).1]> m)),
     (addToIndex_loop rest (nKey - 1) child data r).2).
Proof.
  intros Hcol Hn. simpl. rewrite Hcol. rewrite bool_decide_eq_true_2 by done.
  by destruct (addToIndex_loop rest _ _ _ _).
Qed.

(** [#addToIndex]: a full key already in the index is rejected with the
    index unchanged; otherwise the row is stored under its key values and
    every other full key leads where it led before. *)
Lemma addToIndex_loop_spec cols ix data r :
  cols <> [] ->
  levels (length cols) ix ->
  Forall (fun col => al_has data col = true) cols ->
  match lookup_path (map (obj_get data) cols) ix with
  | Some _ =>
      addToIndex_loop cols (Z.of_nat (length cols)) ix data r
      = (ix, Throw DuplicateKey)
  | None =>
      exists ix',
        addToIndex_loop cols (Z.of_nat (length cols)) ix data r = (ix', Ok tt)
        /\ levels (length cols) ix'
        /\ forall ks, length ks = length cols ->
             lookup_path ks ix' =
             if decide (ks = map (obj_get data) cols) then Some (ERow r)
             else lookup_path ks ix
  end.
Proof.
  revert ix. induction cols as [|col cols IH]; intros ix Hne Hl Hhas; [done|].
  apply Forall_cons in Hhas as [Hcol Hhas].
  pose proof Hl as Hl0.
  apply levels_S in Hl as (m & -> & Hm).
  destruct cols as [|c cols].
  - cbn [addToIndex_loop map lookup_path]. rewrite Hcol.
    rewrite nKey_last. rewrite bool_decide_eq_false_2 by (by intros ?).
    destruct (m !! obj_get data col) as [e|] eqn:He; simpl.
    + done.
    + eexists. split; [done|]. split.
      * by apply (levels_insert 0).
      * intros [|k [|k' ks]] Hlen; try done. simpl.
        destruct (decide (k = obj_get data col)) as [->|Hk].
        -- rewrite decide_True by done. by rewrite lookup_insert_eq.
        -- rewrite decide_False by congruence.
           by rewrite lookup_insert_ne.
  - destruct (nKey_more col c cols) as [Hn Hnz].
    rewrite addToIndex_loop_more by (rewrite ?Hn; done).
    rewrite Hn. cbv zeta.
    set (k := obj_get data col).
    set (child := default (EMap ∅) (m !! k)).
    assert (levels (length (c :: cols)) child) as Hchild.
    { unfold child. destruct (m !! k) as [e|] eqn:He; simpl.
      - by eapply Hm.
      - apply map_Forall_empty. }
    assert (lookup_path (map (obj_get data) (col :: c :: cols)) (EMap m)
            = lookup_path (map (obj_get data) (c :: cols)) child) as Hpath.
    { cbn [map lookup_path]. fold k. unfold child.
      destruct (m !! k) as [e|]; simpl; [done|]. by rewrite lookup_empty. }
    rewrite Hpath.
    specialize (IH child ltac:(done) Hchild Hhas).
    destruct (lookup_path (map (obj_get data) (c :: cols)) child) as [e|]
      eqn:Hpe.
    + rewrite IH. simpl. f_equal. f_equal. unfold child in *.
      destruct (m !! k) as [e'|] eqn:He'; simpl.
      * by apply insert_id.
      * cbn [map] in Hpe. by rewrite lookup_path_empty in Hpe.
    + destruct IH as (child' & -> & Hl' & Hlook).
      eexists. split; [done|]. split.
      * by apply (levels_insert (length (c :: cols))).
      * intros [|k' ks] Hlen; [done|]. injection Hlen as Hlen.
        cbn [map lookup_path]. fold k.
        destruct (decide (k' = k)) as [->|Hk].
        -- rewrite lookup_insert_eq. simpl. rewrite (Hlook ks Hlen).
           destruct (decide (ks = map (obj_get data) (c :: cols))) as [->|Hks].
           ++ by rewrite decide_True.
           ++ rewrite decide_False by (intros [= ?]; done).
              unfold child. destruct (m !! k) as [e'|]; simpl; [done|].
              destruct ks; [done|]. apply lookup_path_empty.
        -- rewrite lookup_insert_ne by done.
           rewrite decide_False by (intros [= ? ?]; done). done.
Qed.

End IndexLoops.

Section IndexRemove.
Import KeyTable KeyTableSpec.
Implicit Types (cols : list string) (ix : entry) (kd data : pojo)
  (ks : list value) (r : rowid).

Lemma removeFromIndex_loop_more col rest nKey m removed kd :
  al_has kd col = true -> nKey - 1 <> 0 ->
  removeFromIndex_loop (col :: rest) nKey (EMap m) removed kd
  = match m !! obj_get kd col with
    | None => (EMap m, Ok removed)
    | Some child =>
        (EMap (<[obj_get kd col :=
                   (removeFromIndex_loop rest (nKey - 1) child removed kd).1]>
                 m),
         (removeFromIndex_loop rest (nKey - 1) child removed kd).2)
    end.
Proof.
  intros Hcol Hn. simpl. rewrite Hcol. rewrite bool_decide_eq_true_2 by done.
  destruct (m !! obj_get kd col); [|done].
  by destruct (removeFromIndex_loop rest _ _ _ _).
Qed.

(** [#removeFromIndex]: the full key leads nowhere afterwards, every other
    full key where it led before. *)
Lemma removeFromIndex_loop_spec cols ix kd removed :
  cols <> [] ->
  levels (length cols) ix ->
  Forall (fun col => al_has kd col = true) cols ->
  exists ix' b,
    removeFromIndex_loop cols (Z.of_nat (length cols)) ix removed kd
    = (ix', Ok b)
    /\ levels (length cols) ix'
    /\ forall ks, length ks = length cols ->
         lookup_path ks ix' =
         if decide (ks = map (obj_get kd) cols) then None
         else lookup_path ks ix.
Proof.
  revert ix removed.
  induction cols as [|col cols IH]; intros ix removed Hne Hl Hhas; [done|].
  apply Forall_cons in Hhas as [Hcol Hhas].
  pose proof Hl as Hl0.
  apply levels_S in Hl as (m & -> & Hm).
  destruct cols as [|c cols].
  - cbn [removeFromIndex_loop map]. rewrite Hcol.
    rewrite nKey_last. rewrite bool_decide_eq_false_2 by (by intros ?).
    eexists _, _. split; [done|]. split.
    + by apply (levels_delete 0).
    + intros [|k [|k' ks]] Hlen; try done. simpl.
      destruct (decide (k = obj_get kd col)) as [->|Hk].
      * rewrite decide_True by done. by rewrite lookup_delete_eq.
      * rewrite decide_False by (intros [= ?]; done).
        by rewrite lookup_delete_ne.
  - destruct (nKey_more col c cols) as [Hn Hnz].
    rewrite removeFromIndex_loop_more by (rewrite ?Hn; done).
    rewrite Hn. set (k := obj_get kd col).
    destruct (m !! k) as [child|] eqn:Hchild.
    + destruct (IH child removed ltac:(done) (Hm _ _ Hchild) Hhas)
        as (child' & b & -> & Hl' & Hlook).
      eexists _, _. split; [done|]. split.
      * by apply (levels_insert (length (c :: cols))).
      * intros [|k' ks] Hlen; [done|]. injection Hlen as Hlen.
        cbn [map lookup_path]. fold k.
        destruct (decide (k' = k)) as [->|Hk].
        -- rewrite lookup_insert_eq, Hchild. simpl. rewrite (Hlook ks Hlen).
           destruct (decide (ks = map (obj_get kd) (c :: cols))) as [->|Hks].
           ++ by rewrite decide_True.
           ++ by rewrite decide_False by (intros [= ?]; done).
        -- rewrite lookup_insert_ne by done.
           by rewrite decide_False by (intros [= ? ?]; done).
    + eexists _, _. split; [done|]. split; [done|].
      intros [|k' ks] Hlen; [done|]. cbn [map lookup_path]. fold k.
      case_decide as Hd; [|done]. injection Hd as -> _.
      by rewrite Hchild.
Qed.

End IndexRemove.

(** ** The index and the live rows *)

Section Consistency.
Import KeyTable KeyTableSpec.
Implicit Types (C : config) (st : state) (data : pojo) (row : rowid)
  (rw : KeyTable.row).

Lemma shaped_has_keys C rw :
  constructible C -> row_shape C rw ->
  Forall (fun col => al_has (spread rw) col = true) (key C).
Proof.
  intros HC [Hnames _]. apply Forall_forall. intros col Hcol.
  rewrite al_has_spread. apply al_has_true. rewrite Hnames.
  by apply key_in_columns.
Qed.

Lemma key_values_spread C rw :
  map (obj_get (spread rw)) (key C) = key_values C rw.
Proof.
  unfold key_values. apply map_ext. intros col. apply row_get_spread.
Qed.

Lemma key_values_length C rw : length (key_values C rw) = length (key C).
Proof. unfold key_values. apply length_map. Qed.

Lemma consistent_live_row C st r :
  consistent C st -> r ∈ all st ->
  exists rw, heap st !! r = Some rw /\ row_shape C rw.
Proof.
  intros ([Hs Ha] & _ & _) Hr.
  destruct (lookup_lt_is_Some_2 _ _ (Ha r Hr)) as [rw Hrw].
  exists rw. split; [done|]. by apply (proj1 (Forall_lookup _ _) Hs r rw).
Qed.

Lemma keeps_ret C {A} (a : A) : keeps C (ret a).
Proof. by intros st H _. Qed.

Lemma keeps_lift C {A} (r : result A) : keeps C (lift r).
Proof. by intros st H _. Qed.

Lemma keeps_gets C {A} (f : state -> A) : keeps C (gets f).
Proof. by intros st H _. Qed.

Lemma keeps_bind C {A B} (m : M state A) (k : A -> M state B) :
  keeps C m -> (forall a, keeps C (k a)) -> keeps C (bind m k).
Proof.
  intros Hm Hk st H. rewrite bind_run. specialize (Hm st H).
  destruct (m st) as [st1 [a|e]]; simpl in *.
  - intros Hd. apply Hk; [by apply Hm|done].
  - done.
Qed.

Lemma keeps_forEach C {A} (l : list A) (f : A -> M state unit) :
  (forall x, keeps C (f x)) -> keeps C (forEach l f).
Proof.
  intros Hf. induction l as [|x l IH]; simpl.
  - apply keeps_ret.
  - apply keeps_bind; [apply Hf|done].
Qed.

Lemma keeps_resetChanges C : keeps C resetChanges.
Proof. intros st H _. by rewrite resetChanges_run. Qed.

Lemma keeps_find C keyData : keeps C (find C keyData).
Proof. intros st H _. by rewrite find_run. Qed.

Lemma keeps_clear C : constructible C -> keeps C clear.
Proof.
  intros HC st ([Hs Ha] & Hnd & Hl & Hix) _. rewrite clear_run. simpl.
  split_and!; simpl.
  - split; simpl; [done|]. by intros r ?%elem_of_nil.
  - apply NoDup_nil_2.
  - split; simpl.
    + destruct (key C) as [|c l] eqn:Hk; [by destruct (key_nonempty C HC)|].
      apply levels_empty.
    + intros ks r. split.
      * destruct ks as [|k ks]; [done|]. by rewrite lookup_path_empty.
      * by intros [?%elem_of_nil _].
Qed.

Lemma keeps_data C : keeps C (data C).
Proof.
  intros st ([Hs Ha] & Hnd & Hl & Hix) _. rewrite data_run. simpl.
  destruct (needSort st); [|done].
  assert (forall r, r ∈ Set_from (Array_sort (sortFn C (heap st)) (all st))
                    <-> r ∈ all st) as Hmem.
  { intros r. by rewrite elem_of_Set_from, elem_of_Array_sort. }
  split_and!; simpl.
  - split; simpl; [done|]. intros r Hr%Hmem. by apply Ha.
  - apply NoDup_Set_from.
  - split; simpl; [done|]. intros ks r. rewrite Hmem. apply Hix.
Qed.

Lemma keeps_add C data : constructible C -> keeps C (add C data).
Proof.
  intros HC st Hst. pose proof Hst as ([Hs Ha] & Hnd & Hl & Hix).
  destruct (preserves_add C data HC st (conj Hs Ha)) as [Hok' _].
  revert Hok'. rewrite add_run.
  destruct (Row_new data (columns C).*1 (key C)) as [rw|e] eqn:Hrw; [|done].
  pose proof (Row_new_shape C data rw HC Hrw) as Hshape.
  pose proof (addToIndex_loop_spec (key C) (index st) (spread rw)
                (length (heap st)) (key_nonempty C HC) Hl
                (shaped_has_keys C rw HC Hshape)) as Hadd.
  rewrite key_values_spread in Hadd. cbv zeta.
  destruct (lookup_path (key_values C rw) (index st)) as [e|] eqn:Hpath.
  { rewrite Hadd. simpl. done. }
  destruct Hadd as (ix' & -> & Hl' & Hlook). simpl.
  intros Hok' _.
  assert (length (heap st) ∉ all st) as Hfresh.
  { intros Hin%Ha. lia. }
  split_and!; simpl.
  - exact Hok'.
  - by apply NoDup_Set_add.
  - split; simpl; [done|]. intros ks r. rewrite elem_of_Set_add. split.
    + intros Hks.
      pose proof (lookup_path_row_length _ _ _ _ Hl' Hks) as Hlen.
      rewrite (Hlook ks Hlen) in Hks.
      destruct (decide (ks = key_values C rw)) as [->|Hne].
      * injection Hks as <-. split; [by right|].
        by rewrite deref_app_new.
      * apply Hix in Hks as [Hr ->]. split; [by left|].
        rewrite deref_app_old; [done|by apply Ha].
    + intros [[Hr| ->] ->].
      * rewrite deref_app_old by (by apply Ha).
        rewrite Hlook by apply key_values_length.
        rewrite decide_False; [by apply Hix|].
        intros Heq. assert (lookup_path (key_values C rw) (index st)
                            = Some (ERow r)) as Hdup.
        { rewrite <- Heq. by apply Hix. }
        congruence.
      * rewrite deref_app_new. rewrite Hlook by apply key_values_length.
        by rewrite decide_True.
Qed.

Lemma keeps_update C row data : constructible C -> keeps C (update C row data).
Proof.
  intros HC st Hst _. pose proof Hst as ([Hs Ha] & Hnd & Hl & Hix).
  destruct (preserves_update C row data HC st (conj Hs Ha)) as [Hok' [_ Hkv]].
  assert (all (update C row data st).1 = all st
          /\ index (update C row data st).1 = index st) as [Hall Hindex].
  { rewrite update_run. destruct (Set_has (all st) row); [|done].
    simpl. destruct (equal _ _); [done|].
    destruct (assign_loop _ _).2; simpl; [|done].
    by destruct (Set_has (added st) row). }
  split_and!.
  - done.
  - by rewrite Hall.
  - split; rewrite Hindex; [done|]. intros ks r. rewrite Hall.
    rewrite Hix. split; intros [Hr ->]; (split; [done|]).
    + symmetry. by apply Hkv, Ha.
    + by apply Hkv, Ha.
Qed.

Lemma keeps_delete C row : constructible C -> keeps C (delete_ C row).
Proof.
  intros HC st Hst _. pose proof Hst as ([Hs Ha] & Hnd & Hl & Hix).
  destruct (preserves_delete C row st (conj Hs Ha)) as [Hok' _].
  revert Hok'. rewrite delete_run.
  destruct (Set_has (all st) row) eqn:Hlive; [|done].
  apply Set_has_true in Hlive.
  destruct (consistent_live_row C st row Hst Hlive) as (rw & Hrw & Hshape).
  rewrite (deref_lookup _ _ _ Hrw).
  destruct (removeFromIndex_loop_spec (key C) (index st) (spread rw) false
              (key_nonempty C HC) Hl (shaped_has_keys C rw HC Hshape))
    as (ix' & b & -> & Hl' & Hlook).
  rewrite key_values_spread in Hlook. simpl. intros Hok'.
  assert (lookup_path (key_values C rw) (index st) = Some (ERow row)) as Hrow.
  { apply Hix. split; [done|]. by rewrite (deref_lookup _ _ _ Hrw). }
  split_and!; simpl.
  - exact Hok'.
  - by apply NoDup_Set_delete.
  - split; simpl; [done|]. intros ks r. rewrite elem_of_Set_delete. split.
    + intros Hks.
      pose proof (lookup_path_row_length _ _ _ _ Hl' Hks) as Hlen.
      rewrite (Hlook ks Hlen) in Hks.
      destruct (decide (ks = key_values C rw)) as [->|Hne]; [done|].
      apply Hix in Hks as [Hr ->]. split; [|done]. split; [done|].
      intros ->. by rewrite (deref_lookup _ _ _ Hrw) in Hne.
    + intros [[Hr Hne] ->].
      rewrite Hlook by apply key_values_length.
      rewrite decide_False; [by apply Hix|].
      intros Heq. assert (lookup_path (key_values C rw) (index st)
                          = Some (ERow r)) as Hr'.
      { rewrite <- Heq. by apply Hix. }
      congruence.
Qed.

#[local] Hint Resolve keeps_ret keeps_lift keeps_gets keeps_bind keeps_forEach
  keeps_resetChanges keeps_find keeps_clear keeps_data keeps_add keeps_update
  keeps_delete : table.

Lemma keeps_get C keyData : constructible C -> keeps C (get_ C keyData).
Proof.
  intros HC. unfold get_. apply keeps_bind; [eauto with table|].
  intros [e|]; eauto with table.
Qed.

Lemma keeps_serialize C : keeps C (serialize C).
Proof. unfold serialize. eauto 6 with table. Qed.

Lemma keeps_load C records : constructible C -> keeps C (load C records).
Proof. intros HC. unfold load. eauto 10 with table. Qed.

#[local] Hint Resolve keeps_get keeps_serialize keeps_load : table.

Lemma keeps_step C o : constructible C -> keeps C (step C o).
Proof. intros HC. destruct o; simpl; eauto 6 with table. Qed.

Lemma fresh_consistent C : constructible C -> consistent C fresh.
Proof.
  intros HC. split_and!.
  - apply fresh_heap_ok.
  - apply NoDup_nil_2.
  - split; simpl.
    + destruct (key C) as [|c l] eqn:Hk; [by destruct (key_nonempty C HC)|].
      apply levels_empty.
    + intros ks r. split.
      * destruct ks as [|k ks]; [done|]. by rewrite lookup_path_empty.
      * by intros [?%elem_of_nil _].
Qed.

(** Calls none of which was rejected for a duplicate key leave the index
    and the live rows in agreement. *)
Lemma run_consistent C ops st :
  constructible C -> consistent C st -> accepted C ops st = true ->
  consistent C (run C ops st).
Proof.
  intros HC. revert st. induction ops as [|o ops IH]; intros st Hst Hacc.
  - done.
  - simpl in *. apply andb_true_iff in Hacc as [Ho Hacc].
    apply negb_true_iff in Ho.
    apply IH; [|done]. by apply keeps_step.
Qed.

End Consistency.

(** ** The composite-key table: single calls *)

Section KeyTableCalls.
Import KeyTable KeyTableSpec.
Implicit Types (C : config) (st : state) (data : pojo) (row : rowid).

Lemma resetChanges_checkpointed st : checkpointed (resetChanges st).1.
Proof.
  rewrite resetChanges_run. unfold checkpointed. simpl. split_and!; try done.
  - intros r. apply elem_of_Set_from.
  - apply NoDup_Set_from.
Qed.



(** Whenever the data give the key of a live row, [add] throws the
    duplicate-key error and leaves the index as it was, having put the new
    row into [#all] and [#added]. *)
Lemma add_existing_key C ops st data row :
  constructible C ->
  st = run C ops fresh ->
  accepted C ops fresh = true ->
  row ∈ all st ->
  Forall (fun col => al_has data col = true) (key C) ->
  map (obj_get data) (key C) = key_values C (deref (heap st) row) ->
  (add C data st).2 = Throw DuplicateKey
  /\ index (add C data st).1 = index st
  /\ all (add C data st).1 = all st ++ [length (heap st)]
  /\ added (add C data st).1 = Set_add (added st) (length (heap st)).
Proof.
  intros HC -> Hacc Hrow Hhas Hkey.
  pose proof (run_consistent C ops fresh HC (fresh_consistent C HC) Hacc)
    as ([Hs Ha] & Hnd & Hl & Hix).
  set (st := run C ops fresh) in *.
  destruct (Row_lock_succeeds data (key C) (Row_defs data (columns C).*1))
    as [rw Hrw]; [done| |].
  { rewrite Row_defs_names by apply HC. apply Forall_forall.
    intros col Hcol. by apply key_in_columns. }
  fold (Row_new data (columns C).*1 (key C)) in Hrw.
  pose proof (Row_new_shape C data rw HC Hrw) as Hshape.
  assert (key_values C rw = key_values C (deref (heap st) row)) as Hkv.
  { rewrite <- Hkey. unfold key_values. apply map_ext_in.
    intros col Hcol%list_elem_of_In.
    apply (Row_new_get C data rw col Hrw). by apply key_in_columns. }
  assert (lookup_path (key_values C rw) (index st) = Some (ERow row)) as Hp.
  { rewrite Hkv. by apply Hix. }
  pose proof (addToIndex_loop_spec (key C) (index st) (spread rw)
                (length (heap st)) (key_nonempty C HC) Hl
                (shaped_has_keys C rw HC Hshape)) as Hadd.
  rewrite key_values_spread, Hp in Hadd.
  rewrite add_run, Hrw. cbv zeta. rewrite Hadd. simpl.
  split_and!; try done.
  unfold Set_add. rewrite (proj2 (Set_has_false _ _)); [done|].
  intros Hin%Ha. lia.
Qed.

(** C1 fails on the code.  With the row [(1, 2, 'bar')] in the table,
    [add({ k1: 1, k2: 2, foo: 'baz' })] throws the duplicate-key error and
    leaves the index as it was, but the rejected row has already been put
    into [#all] and [#added]. *)
Theorem add_duplicate_leaves_row :
  (add Examples.cfg (Examples.rec 1 2 "baz") Examples.one_row).2
    = Throw DuplicateKey
  /\ index (add Examples.cfg (Examples.rec 1 2 "baz") Examples.one_row).1
     = index Examples.one_row
  /\ all Examples.one_row = [0%nat]
  /\ all (add Examples.cfg (Examples.rec 1 2 "baz") Examples.one_row).1
     = [0%nat; 1%nat]
  /\ added Examples.one_row = [0%nat]
  /\ added (add Examples.cfg (Examples.rec 1 2 "baz") Examples.one_row).1
     = [0%nat; 1%nat].
Proof. vm_compute. split_and!; reflexivity. Qed.

End KeyTableCalls.

(** ** Key fields *)

Section KeyFields.
Import KeyTable KeyTableSpec.
Implicit Types (C : config) (st : state) (data : pojo) (row : rowid).

Lemma cfg_constructible : constructible Examples.cfg.
Proof.
  split.
  - compute_done.
  - compute_done.
  - compute_done.
  - done.
Qed.

Lemma add_Ok_row C data st st' row :
  add C data st = (st', Ok row) ->
  exists rw,
    Row_new data (columns C).*1 (key C) = Ok rw
    /\ row = length (heap st)
    /\ heap st' = heap st ++ [rw].
Proof.
  rewrite add_run.
  destruct (Row_new data (columns C).*1 (key C)) as [rw|e]; [|done].
  simpl. destruct (addToIndex_loop _ _ _ _ _).2; [|done].
  intros [= <- <-]. eauto.
Qed.

(** C9.  In a table made by the constructor, after any calls whatever: a
    row that [add] returns holds in every key column the value of the data
    it was made from, and still does after any further calls, among them
    [update] and the row's own [set] with data that name key columns; and
    the same goes for every row object there is, whichever call made it:
    no later call changes what it holds in a key column. *)
Theorem key_fields_fixed C ops :
  constructible C ->
  (forall data st' row col ops',
     add C data (run C ops fresh) = (st', Ok row) ->
     col ∈ key C ->
     row_get (deref (heap (run C ops' st')) row) col = obj_get data col)
  /\ (forall row col ops',
        (row < length (heap (run C ops fresh)))%nat ->
        col ∈ key C ->
        row_get (deref (heap (run C ops' (run C ops fresh))) row) col
        = row_get (deref (heap (run C ops fresh)) row) col).
Proof.
  intros HC.
  destruct (run_preserves C ops fresh HC (fresh_heap_ok C)) as [Hok _].
  split.
  - intros data st' row col ops' Hadd Hcol.
    destruct (preserves_add C data HC _ Hok) as [Hok' _].
    rewrite Hadd in Hok'. simpl in Hok'.
    destruct (add_Ok_row _ _ _ _ _ Hadd) as (rw & Hrw & -> & Hheap).
    destruct (run_preserves C ops' st' HC Hok') as [_ [_ Hkeys]].
    assert (length (heap (run C ops fresh)) < length (heap st'))%nat as Hlt.
    { rewrite Hheap, length_app. simpl. lia. }
    rewrite (key_values_get C _ _ col (Hkeys _ Hlt) Hcol).
    rewrite Hheap, deref_app_new.
    apply (Row_new_get C data rw col Hrw). by apply key_in_columns.
  - intros row col ops' Hrow Hcol.
    destruct (run_preserves C ops' _ HC Hok) as [_ [_ Hkeys]].
    apply (key_values_get C); [by apply Hkeys|done].
Qed.

Lemma key_fields_fixed_witness :
  (Examples.one_row, Ok 0%nat)
  = add Examples.cfg (Examples.rec 1 2 "bar") (run Examples.cfg [] fresh)
  /\ row_get
       (deref
          (heap
             (run Examples.cfg
                [Update 0 [("foo", VStr "x"); ("k1", VNum 9)];
                 RowSet 0 [("k2", VNum 7)]]
                Examples.one_row))
          0)
       "k1"
     = VNum 1.
Proof.
  split; [vm_compute; reflexivity|].
  apply (proj1 (key_fields_fixed Examples.cfg [] cfg_constructible)
           (Examples.rec 1 2 "bar") Examples.one_row 0%nat "k1").
  - vm_compute. reflexivity.
  - compute_done.
Defined.

End KeyFields.

(** ** Change tracking on update *)

Section UpdateTracking.
Import KeyTable KeyTableSpec.
Implicit Types (C : config) (st : state) (data : pojo) (row : rowid)
  (rw : KeyTable.row).

(** Assigning to a property that is read-only or not there throws. *)
Lemma assign_loop_Throw rw data :
  Exists (fun k => ~ exists p, al_lookup rw k = Some p
                               /\ prop_writable p = true) data.*1 ->
  (assign_loop rw data).2 = Throw TypeError.
Proof.
  revert rw. induction data as [|[k v] data IH]; intros rw; csimpl.
  - by intros ?%Exists_nil.
  - intros Hex. destruct (al_lookup rw k) as [p|] eqn:Hk; [|done].
    destruct (prop_writable p) eqn:Hw; [|done].
    apply Exists_cons in Hex as [Hk'|Hex]; [destruct Hk'; eauto|].
    apply IH. eapply Exists_impl; [exact Hex|].
    intros k' Hk' (q & Hq & Hqw). apply Hk'.
    rewrite al_lookup_set in Hq. case_decide as Hkk; [|eauto].
    subst k'. eauto.
Qed.

(** C3, as far as the code goes, for a live row of a table made by the
    constructor.  If the merged values equal the row's, [update(row,
    data)] returns the row and nothing at all changes.  Otherwise, if the
    data name only declared columns outside the key, it returns the row,
    the row takes the merged values, is out of [untouched], and is in
    [changed] unless it is in [added], where it stays, while [added],
    [deleted] and the buckets of every other row are as before; and if
    the data name a key column or an undeclared one, it throws a
    [TypeError] and leaves the four buckets, the live rows and the index
    as they were. *)
Theorem update_tracks_change C ops st row data :
  constructible C ->
  st = run C ops fresh ->
  row ∈ all st ->
  (equal (spread (deref (heap st) row))
     (obj_spread (spread (deref (heap st) row)) data) = true ->
   update C row data st = (st, Ok row))
  /\ (equal (spread (deref (heap st) row))
        (obj_spread (spread (deref (heap st) row)) data) = false ->
      Forall (fun k => k ∈ (columns C).*1 /\ k ∉ key C) data.*1 ->
      (update C row data st).2 = Ok row
      /\ (row ∉ untouched (update C row data st).1)
      /\ (if Set_has (added st) row
          then changed (update C row data st).1 = changed st
          else row ∈ changed (update C row data st).1)
      /\ added (update C row data st).1 = added st
      /\ deleted (update C row data st).1 = deleted st
      /\ (forall r, r <> row ->
           (r ∈ untouched (update C row data st).1 <-> r ∈ untouched st)
           /\ (r ∈ changed (update C row data st).1 <-> r ∈ changed st))
      /\ spread (deref (heap (update C row data st).1) row)
         = obj_spread (spread (deref (heap st) row)) data)
  /\ (equal (spread (deref (heap st) row))
        (obj_spread (spread (deref (heap st) row)) data) = false ->
      ~ Forall (fun k => k ∈ (columns C).*1 /\ k ∉ key C) data.*1 ->
      (update C row data st).2 = Throw TypeError
      /\ untouched (update C row data st).1 = untouched st
      /\ added (update C row data st).1 = added st
      /\ changed (update C row data st).1 = changed st
      /\ deleted (update C row data st).1 = deleted st
      /\ all (update C row data st).1 = all st
      /\ index (update C row data st).1 = index st).
Proof.
  intros HC -> Hlive.
  destruct (run_preserves C ops fresh HC (fresh_heap_ok C)) as [[Hs Ha] _].
  set (st := run C ops fresh) in *.
  rewrite update_run. rewrite (proj2 (Set_has_true _ _) Hlive). cbv zeta.
  pose proof (Ha row Hlive) as Hrow.
  destruct (lookup_lt_is_Some_2 _ _ Hrow) as [rw Hrw].
  rewrite (deref_lookup _ _ _ Hrw).
  destruct (proj1 (Forall_lookup _ _) Hs row rw Hrw) as [Hnames Hw].
  assert (forall k,
            (exists p, al_lookup rw k = Some p /\ prop_writable p = true)
            <-> k ∈ (columns C).*1 /\ k ∉ key C) as Hwritable.
  { intros k. split.
    - intros (p & Hp & Hpw). split.
      + rewrite <- Hnames. apply al_lookup_is_Some. eauto.
      + rewrite (Hw k p Hp) in Hpw. apply negb_true_iff in Hpw.
        by apply bool_decide_eq_false in Hpw.
    - intros [Hcol Hkey]. rewrite <- Hnames in Hcol.
      apply al_lookup_is_Some in Hcol as [p Hp]. exists p. split; [done|].
      rewrite (Hw k p Hp). by rewrite bool_decide_eq_false_2. }
  destruct (equal _ _) eqn:Heq; split_and!; try done.
  - intros _ Hdata.
    destruct (assign_loop_Ok rw data) as [Hres Hspread].
    { intros k Hk. apply Hwritable.
      by apply (proj1 (Forall_forall _ _) Hdata). }
    rewrite Hres. simpl. split; [done|].
    assert (forall r, r <> row ->
              r ∈ Set_delete (untouched st) row <-> r ∈ untouched st) as Hunt.
    { intros r Hr. rewrite elem_of_Set_delete. tauto. }
    destruct (Set_has (added st) row) eqn:Hadded; simpl.
    + split_and!; try done.
      * rewrite elem_of_Set_delete. tauto.
      * intros r Hr. split; [by apply Hunt|done].
      * by rewrite deref_insert_eq.
    + split_and!; try done.
      * rewrite elem_of_Set_delete. tauto.
      * apply Set_add_here.
      * intros r Hr. split; [by apply Hunt|].
        rewrite elem_of_Set_add. tauto.
      * by rewrite deref_insert_eq.
  - intros _ Hdata. rewrite assign_loop_Throw; [done|].
    apply not_Forall_Exists in Hdata; [|apply _].
    eapply Exists_impl; [exact Hdata|].
    intros k Hk Hex. apply Hk. by apply Hwritable.
Qed.

Lemma update_tracks_change_witness :
  0%nat ∈ untouched Examples.one_row_saved
  /\ (update Examples.cfg 0 [("foo", VStr "baz")] Examples.one_row_saved).2
     = Ok 0%nat
  /\ (0%nat ∉ untouched
        (update Examples.cfg 0 [("foo", VStr "baz")] Examples.one_row_saved).1)
  /\ 0%nat ∈ changed
       (update Examples.cfg 0 [("foo", VStr "baz")] Examples.one_row_saved).1.
Proof.
  split; [compute_done|].
  destruct (update_tracks_change Examples.cfg
              [Add (Examples.rec 1 2 "bar"); ResetChanges]
              Examples.one_row_saved 0%nat [("foo", VStr "baz")]
              cfg_constructible eq_refl) as (_ & Htrack & _).
  - compute_done.
  - destruct Htrack as (Hres & Hu & Hc & _).
    + vm_compute. reflexivity.
    + repeat constructor; compute_done.
    + change (Set_has (added Examples.one_row_saved) 0%nat) with false in Hc.
      split; [exact Hres|]. split; [exact Hu|exact Hc].
Defined.

(** C3 as stated fails.  The row is live and untouched, and the data,
    which name a key column, do not merge to the row's values; yet the
    row neither leaves [untouched] nor enters [changed]: assigning to the
    read-only property throws before the buckets are reached. *)
Lemma update_key_column_not_tracked :
  Set_has (all Examples.one_row_saved) 0%nat = true
  /\ Set_has (added Examples.one_row_saved) 0%nat = false
  /\ equal (spread (deref (heap Examples.one_row_saved) 0))
       (obj_spread (spread (deref (heap Examples.one_row_saved) 0))
          [("k1", VNum 9)]) = false
  /\ (update Examples.cfg 0 [("k1", VNum 9)] Examples.one_row_saved).2
     = Throw TypeError
  /\ 0%nat ∈ untouched
       (update Examples.cfg 0 [("k1", VNum 9)] Examples.one_row_saved).1
  /\ 0%nat ∉ changed
       (update Examples.cfg 0 [("k1", VNum 9)] Examples.one_row_saved).1.
Proof. split_and!; compute_done. Qed.

End UpdateTracking.

(** ** Lookup, and the index after a rejected insert *)

Section FindFacts.
Import KeyTable KeyTableSpec.
Implicit Types (C : config) (st : state) (kd : pojo) (row : rowid).

Lemma lookup_path_full_row n ix ks e :
  levels n ix -> length ks = n -> lookup_path ks ix = Some e ->
  exists r, e = ERow r.
Proof.
  revert ix ks. induction n as [|n IH]; intros ix ks Hl Hlen Hp.
  - destruct ks; [|done]. injection Hp as <-.
    destruct ix as [r|m]; [by exists r|done].
  - apply levels_S in Hl as (m & -> & Hm). destruct ks as [|k ks]; [done|].
    simpl in Hp. destruct (m !! k) as [e'|] eqn:He; [|done].
    simpl in Hp. injection Hlen as Hlen. by eapply IH; [eapply Hm| |].
Qed.





End FindFacts.

Section IndexAgreement.
Import KeyTable KeyTableSpec.

(** Where no call was rejected for a duplicate key, the rows reachable
    through the index are the live rows, and [find] with a live row's own
    key values returns that row. *)
Lemma accepted_index_agrees C ops st :
  constructible C ->
  st = run C ops fresh ->
  accepted C ops fresh = true ->
  (forall r, indexed st r <-> r ∈ all st)
  /\ (forall r, r ∈ all st ->
        find C (spread (deref (heap st) r)) st = (st, Ok (Some (ERow r)))).
Proof.
  intros HC -> Hacc.
  pose proof (run_consistent C ops fresh HC (fresh_consistent C HC) Hacc)
    as Hst.
  set (st := run C ops fresh) in *.
  pose proof Hst as (Hheap & Hnd & Hl & Hix). split.
  - intros r. split.
    + intros [ks Hks]. by apply Hix in Hks as [Hr _].
    + intros Hr. eexists. by apply Hix.
  - intros r Hr.
    destruct (consistent_live_row C st r Hst Hr) as (rw & Hrw & Hshape).
    rewrite (deref_lookup _ _ _ Hrw), find_run.
    rewrite (seek_loop_full _ _ _ (key_nonempty C HC) Hl
               (shaped_has_keys C rw HC Hshape)).
    rewrite key_values_spread. do 2 f_equal. apply Hix.
    by rewrite (deref_lookup _ _ _ Hrw).
Qed.

(** C2 fails on the code.  After [add] of [(1, 2, 'bar')] and a second
    [add] with the same key, which is rejected, the second row is live but
    not reachable through the index.  When that row is then deleted, the
    index entry of the first row goes with it: the first row stays live
    and [find] no longer finds it under its own key. *)
Theorem rejected_add_breaks_index :
  (1%nat ∈ all
     (run Examples.cfg
        [Add (Examples.rec 1 2 "bar"); Add (Examples.rec 1 2 "baz")] fresh))
  /\ ~ indexed
         (run Examples.cfg
            [Add (Examples.rec 1 2 "bar"); Add (Examples.rec 1 2 "baz")] fresh)
         1%nat
  /\ all
       (run Examples.cfg
          [Add (Examples.rec 1 2 "bar"); Add (Examples.rec 1 2 "baz");
           Delete 1] fresh) = [0%nat]
  /\ (find Examples.cfg (Examples.keyOf 1 2)
        (run Examples.cfg
           [Add (Examples.rec 1 2 "bar"); Add (Examples.rec 1 2 "baz");
            Delete 1] fresh)).2 = Ok None.
Proof.
  split_and!; try compute_done.
  intros [ks Hks].
  assert (index
            (run Examples.cfg
               [Add (Examples.rec 1 2 "bar"); Add (Examples.rec 1 2 "baz")]
               fresh)
          = index Examples.one_row) as Hsame by (vm_compute; reflexivity).
  rewrite Hsame in Hks.
  assert (consistent Examples.cfg Examples.one_row) as (_ & _ & _ & Hix).
  { apply (run_consistent Examples.cfg [Add (Examples.rec 1 2 "bar")] fresh
             cfg_constructible (fresh_consistent _ cfg_constructible)).
    vm_compute. reflexivity. }
  apply Hix in Hks as [Hin _].
  change (all Examples.one_row) with [0%nat] in Hin.
  by apply list_elem_of_singleton in Hin.
Qed.

End IndexAgreement.

(** ** Sorting *)

Section SortSorted.
Context {A : Type} (cmp : A -> A -> Z) (R : A -> A -> Prop) (P : A -> Prop).
Hypothesis cmp_le : forall x y, P x -> P y -> cmp x y <= 0 -> R x y.
Hypothesis cmp_gt : forall x y, P x -> P y -> 0 < cmp x y -> R y x.
Hypothesis R_trans : forall x y z, P x -> P y -> P z -> R x y -> R y z -> R x z.

Lemma sort_insert_sorted x l :
  P x -> Forall P l -> StronglySorted R l ->
  StronglySorted R (sort_insert cmp x l).
Proof.
  intros Hx Hl Hs. induction Hs as [|y l Hs IH Hy]; simpl.
  - repeat constructor.
  - apply Forall_cons in Hl as [Py Pl].
    destruct (0 <? cmp x y) eqn:Hc.
    + apply Z.ltb_lt in Hc. constructor; [by apply IH|].
      rewrite sort_insert_Permutation. constructor; [by apply cmp_gt|done].
    + apply Z.ltb_ge in Hc. assert (R x y) as Hxy by (by apply cmp_le).
      constructor; [by constructor|].
      constructor; [done|].
      apply Forall_forall. intros z Hz.
      apply (R_trans x y z); try done.
      * by apply (proj1 (Forall_forall _ _) Pl).
      * by apply (proj1 (Forall_forall _ _) Hy).
Qed.

Lemma Array_sort_sorted l : Forall P l -> StronglySorted R (Array_sort cmp l).
Proof.
  induction l as [|x l IH]; simpl; [constructor|].
  intros [Hx Hl]%Forall_cons. apply sort_insert_sorted; [done| |by apply IH].
  by rewrite Array_sort_Permutation.
Qed.

End SortSorted.

Section KeyOrder.
Import KeyTable KeyTableSpec.
Implicit Types (C : config) (h : list row) (rw : row) (col : string).

Lemma ordered_values_spec C vs :
  ordered_values C vs <->
  (forall x, x ∈ vs -> js_lt C x x = false)
  /\ (forall x y, x ∈ vs -> y ∈ vs ->
        x = y \/ js_lt C x y = true \/ js_lt C y x = true)
  /\ (forall x y z, x ∈ vs -> y ∈ vs -> z ∈ vs ->
        js_lt C x y = true -> js_lt C y z = true -> js_lt C x z = true).
Proof.
  unfold ordered_values. rewrite Forall_forall. split.
  - intros H. split_and!.
    + intros x Hx. by apply H.
    + intros x y Hx Hy. destruct (H x Hx) as [_ Hy'].
      rewrite Forall_forall in Hy'. by apply Hy'.
    + intros x y z Hx Hy Hz. destruct (H x Hx) as [_ Hy'].
      rewrite Forall_forall in Hy'. destruct (Hy' y Hy) as [_ Hz'].
      rewrite Forall_forall in Hz'. by apply Hz'.
  - intros (Hirr & Htri & Htr) x Hx. split; [by apply Hirr|].
    apply Forall_forall. intros y Hy. split; [by apply Htri|].
    apply Forall_forall. intros z Hz. by apply Htr.
Qed.

Lemma ordered_values_subseteq C vs vs' :
  vs ⊆ vs' -> ordered_values C vs' -> ordered_values C vs.
Proof.
  intros Hsub (Hirr & Htri & Htr)%ordered_values_spec.
  apply ordered_values_spec. split_and!.
  - intros x Hx. by apply Hirr, Hsub.
  - intros x y Hx Hy. by apply Htri; apply Hsub.
  - intros x y z Hx Hy Hz. by apply Htr; apply Hsub.
Qed.

Lemma string_ltb_lt (s t : string) :
  String.ltb s t = true <-> OrderedTypeEx.String_as_OT.lt s t.
Proof.
  unfold String.ltb.
  change (String.compare s t) with (OrderedTypeEx.String_as_OT.cmp s t).
  rewrite <- OrderedTypeEx.String_as_OT.cmp_lt.
  destruct (OrderedTypeEx.String_as_OT.cmp s t); split; done.
Qed.

Lemma string_ltb_irrefl (s : string) : String.ltb s s = false.
Proof.
  unfold String.ltb.
  change (String.compare s s) with (OrderedTypeEx.String_as_OT.cmp s s).
  by rewrite (proj2 (OrderedTypeEx.String_as_OT.cmp_eq s s)).
Qed.

Lemma string_ltb_trans (s t u : string) :
  String.ltb s t = true -> String.ltb t u = true -> String.ltb s u = true.
Proof. rewrite !string_ltb_lt. apply OrderedTypeEx.String_as_OT.lt_trans. Qed.

Lemma string_ltb_total (s t : string) :
  s = t \/ String.ltb s t = true \/ String.ltb t s = true.
Proof.
  unfold String.ltb. rewrite (String.compare_antisym t s).
  destruct (String.compare s t) eqn:E; simpl; auto.
  left. by apply String.compare_eq_iff.
Qed.

(** [<] is a strict total order on numbers, and on strings. *)
Lemma ordered_values_homogeneous C vs :
  Forall is_number vs \/ Forall is_string vs -> ordered_values C vs.
Proof.
  intros Hvs. apply ordered_values_spec.
  destruct Hvs as [Hn|Hs].
  - rewrite Forall_forall in Hn. split_and!.
    + intros x Hx. specialize (Hn x Hx). destruct x; try done. simpl.
      apply Z.ltb_irrefl.
    + intros x y Hx Hy. pose proof (Hn x Hx). pose proof (Hn y Hy).
      destruct x as [|n|]; try done. destruct y as [|m|]; try done. simpl.
      destruct (Z.lt_trichotomy n m) as [?|[->|?]];
        [right; left|left|right; right]; try done; by apply Z.ltb_lt.
    + intros x y z Hx Hy Hz. pose proof (Hn x Hx). pose proof (Hn y Hy).
      pose proof (Hn z Hz).
      destruct x as [|n|]; try done. destruct y as [|m|]; try done.
      destruct z as [|k|]; try done. simpl. rewrite !Z.ltb_lt. lia.
  - rewrite Forall_forall in Hs. split_and!.
    + intros x Hx. specialize (Hs x Hx). destruct x; try done. simpl.
      apply string_ltb_irrefl.
    + intros x y Hx Hy. pose proof (Hs x Hx). pose proof (Hs y Hy).
      destruct x as [| |s]; try done. destruct y as [| |t]; try done. simpl.
      destruct (string_ltb_total s t) as [->|[?|?]]; auto.
    + intros x y z Hx Hy Hz. pose proof (Hs x Hx). pose proof (Hs y Hy).
      pose proof (Hs z Hz).
      destruct x as [| |s]; try done. destruct y as [| |t]; try done.
      destruct z as [| |u]; try done. simpl. apply string_ltb_trans.
Qed.

Lemma sortFn_loop_le C cols h (a b : row) :
  comparable C cols h -> a ∈ h -> b ∈ h ->
  sortFn_loop C cols a b <= 0 ->
  lex_le C (map (row_get a) cols) (map (row_get b) cols).
Proof.
  intros Hc Ha Hb. induction cols as [|col cols IH]; simpl; [done|].
  apply Forall_cons in Hc as [Hcol Hc].
  destruct (proj1 (ordered_values_spec _ _) Hcol) as (Hirr & Htri & _).
  assert (row_get a col ∈ map (fun rw => row_get rw col) h) as Hva.
  { apply list_elem_of_fmap. eauto. }
  assert (row_get b col ∈ map (fun rw => row_get rw col) h) as Hvb.
  { apply list_elem_of_fmap. eauto. }
  destruct (js_lt C (row_get a col) (row_get b col)) eqn:Hab.
  - intros _. case_decide as Heq; [|done].
    rewrite Heq in Hab. rewrite Hirr in Hab; done.
  - destruct (js_lt C (row_get b col) (row_get a col)) eqn:Hba; [lia|].
    intros Hle. destruct (Htri _ _ Hva Hvb) as [Heq|[?|?]]; try congruence.
    rewrite decide_True by done. by apply IH.
Qed.

Lemma sortFn_loop_gt C cols h (a b : row) :
  comparable C cols h -> a ∈ h -> b ∈ h ->
  0 < sortFn_loop C cols a b ->
  lex_le C (map (row_get b) cols) (map (row_get a) cols).
Proof.
  intros Hc Ha Hb. induction cols as [|col cols IH]; simpl; [done|].
  apply Forall_cons in Hc as [Hcol Hc].
  destruct (proj1 (ordered_values_spec _ _) Hcol) as (Hirr & Htri & _).
  assert (row_get a col ∈ map (fun rw => row_get rw col) h) as Hva.
  { apply list_elem_of_fmap. eauto. }
  assert (row_get b col ∈ map (fun rw => row_get rw col) h) as Hvb.
  { apply list_elem_of_fmap. eauto. }
  destruct (js_lt C (row_get a col) (row_get b col)) eqn:Hab; [lia|].
  destruct (js_lt C (row_get b col) (row_get a col)) eqn:Hba.
  - intros _. case_decide as Heq; [|done].
    rewrite Heq in Hba. rewrite Hirr in Hba; done.
  - intros Hlt. destruct (Htri _ _ Hva Hvb) as [Heq|[?|?]]; try congruence.
    rewrite decide_True by done. by apply IH.
Qed.

Lemma lex_le_trans C cols h (a b d : row) :
  comparable C cols h -> a ∈ h -> b ∈ h -> d ∈ h ->
  lex_le C (map (row_get a) cols) (map (row_get b) cols) ->
  lex_le C (map (row_get b) cols) (map (row_get d) cols) ->
  lex_le C (map (row_get a) cols) (map (row_get d) cols).
Proof.
  intros Hc Ha Hb Hd. induction cols as [|col cols IH]; simpl; [done|].
  apply Forall_cons in Hc as [Hcol Hc].
  destruct (proj1 (ordered_values_spec _ _) Hcol) as (Hirr & _ & Htr).
  assert (row_get a col ∈ map (fun rw => row_get rw col) h) as Hva.
  { apply list_elem_of_fmap. eauto. }
  assert (row_get b col ∈ map (fun rw => row_get rw col) h) as Hvb.
  { apply list_elem_of_fmap. eauto. }
  assert (row_get d col ∈ map (fun rw => row_get rw col) h) as Hvd.
  { apply list_elem_of_fmap. eauto. }
  destruct (decide (row_get a col = row_get b col)) as [Hab|Hab].
  - rewrite Hab. destruct (decide (row_get b col = row_get d col)); [|done].
    by apply IH.
  - intros Hlt1.
    destruct (decide (row_get b col = row_get d col)) as [Hbd|Hbd].
    + intros _. rewrite <- Hbd. by rewrite decide_False.
    + intros Hlt2. pose proof (Htr _ _ _ Hva Hvb Hvd Hlt1 Hlt2) as Hlt.
      case_decide as Had; [|done]. rewrite Had in Hlt.
      rewrite Hirr in Hlt; done.
Qed.

(** The ordering only looks at rows made so far, whose key values stay. *)
Lemma keys_ordered_heap_le C h h' :
  heap_le C h h' -> keys_ordered C h' -> keys_ordered C h.
Proof.
  intros [Hlen Hkv] Hord. unfold keys_ordered, comparable in *.
  rewrite Forall_forall in Hord. apply Forall_forall. intros col Hcol.
  refine (ordered_values_subseteq C _ _ _ (Hord col Hcol)).
  intros v (rw & -> & Hrw)%list_elem_of_fmap.
  apply list_elem_of_lookup in Hrw as [r Hr].
  pose proof (lookup_lt_Some _ _ _ Hr) as Hlt.
  destruct (lookup_lt_is_Some_2 h' r ltac:(lia)) as [rw' Hr'].
  apply list_elem_of_fmap. exists rw'. split.
  - specialize (Hkv r Hlt).
    rewrite (deref_lookup _ _ _ Hr), (deref_lookup _ _ _ Hr') in Hkv.
    symmetry. by apply (key_values_get C).
  - apply list_elem_of_lookup. eauto.
Qed.

End KeyOrder.

Section SortedRows.
Import KeyTable KeyTableSpec.
Implicit Types (C : config) (st : state) (h : list row) (r : rowid).

Lemma StronglySorted_on {A} (R R' : A -> A -> Prop) (l : list A) :
  (forall x y, x ∈ l -> y ∈ l -> R x y -> R' x y) ->
  StronglySorted R l -> StronglySorted R' l.
Proof.
  intros HR Hs. induction Hs as [|x l Hs IH Hx]; constructor.
  - apply IH. intros y z Hy Hz. apply HR; by right.
  - apply Forall_forall. intros y Hy. apply HR; [by left|by right|].
    by apply (proj1 (Forall_forall _ _) Hx).
Qed.

Lemma StronglySorted_filter {A} (R : A -> A -> Prop) (P : A -> Prop)
    `{forall x, Decision (P x)} (l : list A) :
  StronglySorted R l -> StronglySorted R (filter P l).
Proof.
  intros Hs. induction Hs as [|x l Hs IH Hx]; [constructor|].
  rewrite filter_cons. case_decide; [|done].
  constructor; [done|]. apply Forall_forall.
  intros y [_ Hy]%list_elem_of_filter.
  by apply (proj1 (Forall_forall _ _) Hx).
Qed.

Lemma deref_elem_of h r : (r < length h)%nat -> deref h r ∈ h.
Proof.
  intros Hr. destruct (lookup_lt_is_Some_2 _ _ Hr) as [rw Hrw].
  rewrite (deref_lookup _ _ _ Hrw). apply list_elem_of_lookup. eauto.
Qed.

Lemma sortFn_le C h r1 r2 :
  keys_ordered C h -> (r1 < length h)%nat -> (r2 < length h)%nat ->
  sortFn C h r1 r2 <= 0 -> ascending C h r1 r2.
Proof.
  intros Ho H1 H2. apply (sortFn_loop_le C (key C) h); auto using deref_elem_of.
Qed.

Lemma sortFn_gt C h r1 r2 :
  keys_ordered C h -> (r1 < length h)%nat -> (r2 < length h)%nat ->
  0 < sortFn C h r1 r2 -> ascending C h r2 r1.
Proof.
  intros Ho H1 H2. apply (sortFn_loop_gt C (key C) h); auto using deref_elem_of.
Qed.

Lemma ascending_trans C h r1 r2 r3 :
  keys_ordered C h ->
  (r1 < length h)%nat -> (r2 < length h)%nat -> (r3 < length h)%nat ->
  ascending C h r1 r2 -> ascending C h r2 r3 -> ascending C h r1 r3.
Proof.
  intros Ho H1 H2 H3. apply (lex_le_trans C (key C) h); auto using deref_elem_of.
Qed.

(** Sorting the live rows puts them in ascending order. *)
Lemma sort_all_sorted C st :
  heap_ok C st -> keys_ordered C (heap st) ->
  StronglySorted (ascending C (heap st))
    (Array_sort (sortFn C (heap st)) (all st)).
Proof.
  intros [_ Ha] Ho.
  apply (Array_sort_sorted _ _ (fun r => (r < length (heap st))%nat)).
  - intros. by apply sortFn_le.
  - intros. by apply sortFn_gt.
  - intros x y z ???. by apply ascending_trans.
  - apply Forall_forall. intros r Hr. by apply Ha.
Qed.

Lemma keeps_sorted_same C {A} (m : M state A) :
  (forall st, heap (m st).1 = heap st /\ all (m st).1 = all st
              /\ needSort (m st).1 = needSort st) ->
  keeps_sorted C m.
Proof.
  intros Hm st _ Hs _ _. destruct (Hm st) as (Hh & Ha & Hn).
  unfold sorted_ok. rewrite Hh, Ha, Hn. exact Hs.
Qed.

Lemma keeps_sorted_ret C {A} (a : A) : keeps_sorted C (ret a).
Proof. by apply keeps_sorted_same. Qed.

Lemma keeps_sorted_lift C {A} (r : result A) : keeps_sorted C (lift r).
Proof. by apply keeps_sorted_same. Qed.

Lemma keeps_sorted_gets C {A} (f : state -> A) : keeps_sorted C (gets f).
Proof. by apply keeps_sorted_same. Qed.

Lemma keeps_sorted_find C kd : keeps_sorted C (find C kd).
Proof. apply keeps_sorted_same. intros st. by rewrite find_run. Qed.

Lemma keeps_sorted_resetChanges C : keeps_sorted C resetChanges.
Proof. apply keeps_sorted_same. intros st. by rewrite resetChanges_run. Qed.

Lemma keeps_sorted_clear C : keeps_sorted C clear.
Proof. intros st _ _ _ _ _. rewrite clear_run. simpl. constructor. Qed.

Lemma keeps_sorted_bind C {A B} (m : M state A) (k : A -> M state B) :
  keeps C m -> keeps_sorted C m ->
  (forall a, keeps_sorted C (k a)) -> (forall a, preserves C (k a)) ->
  keeps_sorted C (bind m k).
Proof.
  intros Hm Hms Hk Hkp st Hst Hs. rewrite bind_run.
  specialize (Hm st Hst). specialize (Hms st Hst Hs).
  destruct (m st) as [st1 [a|e]]; simpl in *.
  - intros Hd Ho. specialize (Hm eq_refl).
    destruct (Hkp a st1 (proj1 Hm)) as [_ Hle].
    apply Hk; try done. apply Hms; [done|].
    by eapply keys_ordered_heap_le.
  - done.
Qed.

Lemma keeps_sorted_forEach C {A} (l : list A) (f : A -> M state unit) :
  (forall x, keeps C (f x)) -> (forall x, keeps_sorted C (f x)) ->
  (forall x, preserves C (f x)) ->
  keeps_sorted C (forEach l f).
Proof.
  intros Hf Hfs Hfp. induction l as [|x l IH]; simpl.
  - apply keeps_sorted_ret.
  - apply keeps_sorted_bind; try done. intros _. by apply preserves_forEach.
Qed.

Lemma keeps_sorted_data C : keeps_sorted C (data C).
Proof.
  intros st (Hheap & Hnd & _) Hs _. rewrite data_run. simpl.
  destruct (needSort st) eqn:Hn; [|done]. simpl.
  intros Ho _. simpl. rewrite Set_from_NoDup.
  - by apply sort_all_sorted.
  - by rewrite Array_sort_Permutation.
Qed.

Lemma keeps_sorted_add C data : constructible C -> keeps_sorted C (add C data).
Proof.
  intros HC st Hst Hs. pose proof Hst as ([Hh Ha] & Hnd & Hl & Hix).
  rewrite add_run.
  destruct (Row_new data (columns C).*1 (key C)) as [rw|e] eqn:Hrw; [|done].
  pose proof (Row_new_shape C data rw HC Hrw) as Hshape.
  pose proof (addToIndex_loop_spec (key C) (index st) (spread rw)
                (length (heap st)) (key_nonempty C HC) Hl
                (shaped_has_keys C rw HC Hshape)) as Hadd.
  cbv zeta.
  destruct (lookup_path _ (index st)) as [e|].
  - rewrite Hadd. simpl. done.
  - destruct Hadd as (ix' & -> & _). simpl. intros _ _. by intros ?.
Qed.

Lemma keeps_sorted_update C row data :
  constructible C -> keeps_sorted C (update C row data).
Proof.
  intros HC st Hst Hs _ _. pose proof Hst as ([Hh Ha] & Hnd & Hl & Hix).
  destruct (preserves_update C row data HC st (conj Hh Ha)) as [_ [_ Hkv]].
  assert (all (update C row data st).1 = all st
          /\ needSort (update C row data st).1 = needSort st) as [Hall Hneed].
  { rewrite update_run. destruct (Set_has (all st) row); [|done].
    simpl. destruct (equal _ _); [done|].
    destruct (assign_loop _ _).2; simpl; [|done].
    by destruct (Set_has (added st) row). }
  unfold sorted_ok. rewrite Hall, Hneed. intros Hn.
  apply (StronglySorted_on (ascending C (heap st))); [|by apply Hs].
  intros x y Hx Hy. unfold ascending.
  by rewrite !Hkv by (by apply Ha).
Qed.

Lemma keeps_sorted_delete C row : keeps_sorted C (delete_ C row).
Proof.
  intros st _ Hs _ _. rewrite delete_run.
  destruct (Set_has (all st) row); [|done]. simpl.
  intros Hn. simpl. by apply StronglySorted_filter, Hs.
Qed.

Lemma keeps_sorted_get C kd : constructible C -> keeps_sorted C (get_ C kd).
Proof.
  intros HC. unfold get_.
  apply keeps_sorted_bind; [apply keeps_find|apply keeps_sorted_find| |].
  - intros [e|]; [apply keeps_sorted_ret|].
    apply keeps_sorted_bind;
      [by apply keeps_add|by apply keeps_sorted_add| |];
      intros; [apply keeps_sorted_ret|apply preserves_ret].
  - intros [e|]; [apply preserves_ret|].
    apply preserves_bind; [by apply preserves_add|].
    intros. apply preserves_ret.
Qed.

Lemma keeps_sorted_serialize C : keeps_sorted C (serialize C).
Proof.
  unfold serialize.
  apply keeps_sorted_bind; [apply keeps_data|apply keeps_sorted_data| |].
  - intros rows.
    apply keeps_sorted_bind;
      [apply keeps_gets|apply keeps_sorted_gets| |];
      intros; [apply keeps_sorted_lift|apply preserves_lift].
  - intros rows. apply preserves_bind; [apply preserves_gets|].
    intros. apply preserves_lift.
Qed.

Lemma keeps_sorted_load C records :
  constructible C -> keeps_sorted C (load C records).
Proof.
  intros HC. unfold load.
  assert (forall obj : pojo,
            preserves C (let* d := lift (deserialize C obj)
                         in do* add C d in ret ())) as Hp.
  { intros obj. apply preserves_bind; [apply preserves_lift|]. intros d.
    apply preserves_bind; [by apply preserves_add|]. intros. apply preserves_ret. }
  apply keeps_sorted_bind; [by apply keeps_clear|apply keeps_sorted_clear| |].
  - intros _. apply keeps_sorted_bind.
    + apply keeps_forEach. intros obj.
      apply keeps_bind; [apply keeps_lift|]. intros d.
      apply keeps_bind; [by apply keeps_add|]. intros. apply keeps_ret.
    + apply keeps_sorted_forEach; [| |done].
      * intros obj. apply keeps_bind; [apply keeps_lift|]. intros d.
        apply keeps_bind; [by apply keeps_add|]. intros. apply keeps_ret.
      * intros obj.
        apply keeps_sorted_bind;
          [apply keeps_lift|apply keeps_sorted_lift| |].
        -- intros d.
           apply keeps_sorted_bind;
             [by apply keeps_add|by apply keeps_sorted_add| |];
             intros; [apply keeps_sorted_ret|apply preserves_ret].
        -- intros d. apply preserves_bind; [by apply preserves_add|].
           intros. apply preserves_ret.
    + intros _. apply keeps_sorted_resetChanges.
    + intros _. apply preserves_resetChanges.
  - intros _. apply preserves_bind; [by apply preserves_forEach|].
    intros _. apply preserves_resetChanges.
Qed.

Lemma keeps_sorted_then_ret C {A} (m : M state A) :
  keeps C m -> keeps_sorted C m -> keeps_sorted C (do* m in ret tt).
Proof.
  intros Hm Hms.
  apply keeps_sorted_bind;
    [done|done|intros; apply keeps_sorted_ret|intros; apply preserves_ret].
Qed.

Lemma keeps_sorted_step C o : constructible C -> keeps_sorted C (step C o).
Proof.
  intros HC. destruct o; simpl.
  - apply keeps_sorted_then_ret; [by apply keeps_add|by apply keeps_sorted_add].
  - apply keeps_sorted_then_ret;
      [by apply keeps_update|by apply keeps_sorted_update].
  - apply keeps_sorted_delete.
  - apply keeps_sorted_then_ret;
      [by apply keeps_update|by apply keeps_sorted_update].
  - apply keeps_sorted_delete.
  - apply keeps_sorted_then_ret; [apply keeps_find|apply keeps_sorted_find].
  - apply keeps_sorted_then_ret; [by apply keeps_get|by apply keeps_sorted_get].
  - apply keeps_sorted_then_ret; [apply keeps_data|apply keeps_sorted_data].
  - apply keeps_sorted_then_ret; [apply keeps_gets|apply keeps_sorted_gets].
  - apply keeps_sorted_then_ret;
      [apply keeps_serialize|apply keeps_sorted_serialize].
  - by apply keeps_sorted_load.
  - apply keeps_sorted_clear.
  - apply keeps_sorted_resetChanges.
Qed.

Lemma run_sorted C ops st :
  constructible C -> consistent C st -> sorted_ok C st ->
  accepted C ops st = true -> keys_ordered C (heap (run C ops st)) ->
  sorted_ok C (run C ops st).
Proof.
  intros HC. revert st. induction ops as [|o ops IH]; intros st Hst Hs Hacc Ho.
  - done.
  - simpl in *. apply andb_true_iff in Hacc as [Hd Hacc].
    apply negb_true_iff in Hd.
    pose proof (keeps_step C o HC st Hst Hd) as Hst1.
    apply IH; try done.
    apply (keeps_sorted_step C o HC st Hst Hs Hd).
    destruct (run_preserves C ops _ HC (proj1 Hst1)) as [_ Hle].
    by eapply keys_ordered_heap_le.
Qed.

End SortedRows.

Section SortedData.
Import KeyTable KeyTableSpec.
Implicit Types (C : config) (st : state) (r : rowid).

Lemma fresh_sorted_ok C : sorted_ok C fresh.
Proof. intros _. constructor. Qed.

(** C5, as far as the code goes: in a table whose calls so far were none
    of them rejected for a duplicate key, and where in every key column
    [<] is a strict total order on the values of the rows made so far.
    Reading [data] returns the live rows, each once, in ascending order of
    the key columns taken in declared order, the first differing column
    deciding; and no two of them hold the same key values. *)
Theorem data_sorted C ops st :
  constructible C ->
  st = run C ops fresh ->
  accepted C ops fresh = true ->
  keys_ordered C (heap st) ->
  exists rows,
    (data C st).2 = Ok rows
    /\ rows ≡ₚ all st
    /\ NoDup rows
    /\ StronglySorted (ascending C (heap st)) rows
    /\ forall r1 r2, r1 ∈ rows -> r2 ∈ rows ->
         key_values C (deref (heap st) r1) = key_values C (deref (heap st) r2) ->
         r1 = r2.
Proof.
  intros HC -> Hacc Ho.
  pose proof (run_consistent C ops fresh HC (fresh_consistent C HC) Hacc)
    as Hst.
  pose proof (run_sorted C ops fresh HC (fresh_consistent C HC)
                (fresh_sorted_ok C) Hacc Ho) as Hs.
  set (st := run C ops fresh) in *.
  destruct Hst as (Hheap & Hnd & Hl & Hix).
  assert (forall r1 r2, r1 ∈ all st -> r2 ∈ all st ->
            key_values C (deref (heap st) r1)
            = key_values C (deref (heap st) r2) -> r1 = r2) as Hdistinct.
  { intros r1 r2 H1 H2 Hk.
    assert (lookup_path (key_values C (deref (heap st) r1)) (index st)
            = Some (ERow r1)) as E1 by (by apply Hix).
    assert (lookup_path (key_values C (deref (heap st) r1)) (index st)
            = Some (ERow r2)) as E2 by (rewrite Hk; by apply Hix).
    congruence. }
  rewrite data_run. simpl. destruct (needSort st) eqn:Hn.
  - assert (Array_sort (sortFn C (heap st)) (all st) ≡ₚ all st) as Hperm
      by apply Array_sort_Permutation.
    rewrite Set_from_NoDup by (by rewrite Hperm).
    eexists. split; [done|]. split_and!.
    + done.
    + by rewrite Hperm.
    + by apply sort_all_sorted.
    + intros r1 r2. rewrite !Hperm. apply Hdistinct.
  - eexists. split; [done|]. split_and!; try done. by apply Hs.
Qed.

(** The README's example: rows (2,2,'bar'), (1,2,'baz'), (2,3,'boz') are
    inserted and [data] yields (1,2,'baz'), (2,2,'bar'), (2,3,'boz'). *)
Lemma data_sorted_witness :
  (data Examples.cfg Examples.three_rows).2 = Ok [1%nat; 0%nat; 2%nat]
  /\ map (fun r => spread (deref (heap Examples.three_rows) r))
       [1%nat; 0%nat; 2%nat]
     = [Examples.rec 1 2 "baz"; Examples.rec 2 2 "bar";
        Examples.rec 2 3 "boz"]
  /\ StronglySorted (ascending Examples.cfg (heap Examples.three_rows))
       [1%nat; 0%nat; 2%nat].
Proof.
  assert ((data Examples.cfg Examples.three_rows).2
          = Ok [1%nat; 0%nat; 2%nat]) as Hdata by (vm_compute; reflexivity).
  split; [exact Hdata|]. split; [vm_compute; reflexivity|].
  destruct (data_sorted Examples.cfg Examples.three_adds Examples.three_rows
              cfg_constructible eq_refl)
    as (rows & Hrows & _ & _ & Hsorted & _); [compute_done|compute_done|].
  rewrite Hdata in Hrows. injection Hrows as <-. exact Hsorted.
Defined.

(** C5 as stated fails: with [undefined] in a key column the rows cannot
    be in ascending order either way round.  [data] puts the row
    [(1, 1)] before the row [(undefined, 2)] on the strength of the second
    column, though the first column differs and [1 < undefined] is
    false. *)
Lemma data_undefined_key_not_ascending :
  accepted Examples.cfg Examples.undefined_key fresh = true
  /\ (data Examples.cfg (run Examples.cfg Examples.undefined_key fresh)).2
     = Ok [1%nat; 0%nat]
  /\ ~ ascending Examples.cfg
         (heap (run Examples.cfg Examples.undefined_key fresh)) 1 0
  /\ ~ ascending Examples.cfg
         (heap (run Examples.cfg Examples.undefined_key fresh)) 0 1.
Proof.
  split; [vm_compute; reflexivity|]. split; [vm_compute; reflexivity|].
  split; intros H; vm_compute in H; discriminate.
Qed.

End SortedData.

(** ** Writing rows out and reading them back *)

Section Conversion.
Import KeyTable KeyTableSpec.
Implicit Types (C : config) (st : state) (rw : row) (obj src : pojo).

(** An object is determined by the order of its keys and what each key
    looks up. *)
Lemma al_ext {A} (o o' : list (string * A)) :
  NoDup o.*1 -> o.*1 = o'.*1 ->
  (forall k, al_lookup o k = al_lookup o' k) -> o = o'.
Proof.
  revert o'. induction o as [|[k v] o IH]; intros [|[k' v'] o']; csimpl;
    try done.
  intros Hnd [= <- Hn] Hl. apply NoDup_cons in Hnd as [Hk Hnd].
  pose proof (Hl k) as Hk0. simpl in Hk0. rewrite !decide_True in Hk0 by done.
  injection Hk0 as <-. f_equal. apply IH; [done|done|].
  intros k0. specialize (Hl k0). simpl in Hl.
  destruct (decide (k0 = k)) as [->|Hne]; [|done].
  trans (@None A); [by apply al_lookup_None|].
  symmetry. apply al_lookup_None. by rewrite <- Hn.
Qed.

Lemma convert_loop_Ok C hook cols src acc :
  NoDup (acc.*1 ++ cols.*1) ->
  Forall (fun ct => al_has (types C) ct.2 = true) cols ->
  convert_loop C hook cols src acc
  = Ok (acc ++ map (fun ct => (ct.1, through C hook ct.2 (obj_get src ct.1)))
                cols).
Proof.
  revert acc. induction cols as [|[col type] cols IH]; intros acc Hnd Ht.
  - simpl. by rewrite app_nil_r.
  - apply Forall_cons in Ht as [Htype Ht]. simpl in Htype.
    unfold convert_loop; fold convert_loop.
    unfold al_has in Htype.
    destruct (al_lookup (types C) type) as [t|] eqn:Hty; [|done].
    assert (col ∉ acc.*1) as Hcol.
    { apply NoDup_app in Hnd as (_ & Hd & _). intros Hin.
      apply (Hd col Hin). csimpl. by left. }
    rewrite al_set_names_absent by done.
    rewrite IH.
    + rewrite <- (assoc_L (++)). simpl. unfold through at 2. simpl.
      by rewrite Hty.
    + rewrite fmap_app. csimpl. by rewrite <- (assoc_L (++)).
    + done.
Qed.

Lemma al_lookup_spread rw k :
  al_lookup (spread rw) k = prop_value <$> al_lookup rw k.
Proof.
  unfold spread. induction rw as [|[k0 p0] rw IH]; simpl; [done|].
  by case_decide.
Qed.

Lemma al_lookup_fmap_entry {A} (g : string * string -> A)
    (cols : list (string * string)) col type :
  NoDup cols.*1 -> (col, type) ∈ cols ->
  al_lookup (map (fun ct => (ct.1, g ct)) cols) col = Some (g (col, type)).
Proof.
  induction cols as [|[c t] cols IH]; csimpl; [by intros _ ?%elem_of_nil|].
  intros [Hc Hnd]%NoDup_cons [[= -> ->]|Hin]%elem_of_cons.
  - by rewrite decide_True.
  - rewrite decide_False; [by apply IH|].
    intros ->. apply Hc. apply list_elem_of_fmap. by exists (c, type).
Qed.

Lemma spread_shaped C rw :
  constructible C -> row_shape C rw ->
  spread rw = map (fun ct => (ct.1, row_get rw ct.1)) (columns C).
Proof.
  intros HC [Hnames _].
  assert ((map (fun ct => (ct.1, row_get rw ct.1)) (columns C)).*1
          = (columns C).*1) as Hn2.
  { generalize (columns C). induction l as [|ct l IH]; csimpl; congruence. }
  apply al_ext.
  - rewrite spread_names, Hnames. apply HC.
  - rewrite spread_names, Hnames. symmetry. exact Hn2.
  - intros k. rewrite al_lookup_spread. unfold row_get.
    destruct (al_lookup rw k) as [p|] eqn:Hp; simpl.
    + assert (k ∈ (columns C).*1) as Hk.
      { rewrite <- Hnames. apply al_lookup_is_Some. eauto. }
      apply list_elem_of_fmap in Hk as ([c t] & -> & Hin). simpl in *.
      rewrite (al_lookup_fmap_entry (fun ct => row_get rw ct.1) _ c t);
        [|apply HC|done].
      unfold row_get. simpl. by rewrite Hp.
    + symmetry. apply al_lookup_None. apply al_lookup_None in Hp.
      intros Hin. apply Hp. rewrite Hnames. rewrite <- Hn2. exact Hin.
Qed.

Lemma serialize_row_Ok C rw :
  constructible C -> row_shape C rw ->
  serialize_row C rw
  = Ok (map (fun ct => (ct.1, through C serialize_fn ct.2 (row_get rw ct.1)))
          (columns C)).
Proof.
  intros HC Hshape. unfold serialize_row.
  rewrite convert_loop_Ok; [|apply HC|apply HC]. simpl. f_equal.
  apply map_ext. intros [c t]. simpl. by rewrite row_get_spread.
Qed.

(** Reading back what a row was written out as gives the row's values. *)
Lemma deserialize_serialized C rw obj :
  constructible C -> row_shape C rw ->
  (forall col type, (col, type) ∈ columns C ->
     through C deserialize_fn type
       (through C serialize_fn type (row_get rw col)) = row_get rw col) ->
  serialize_row C rw = Ok obj ->
  deserialize C obj = Ok (spread rw).
Proof.
  intros HC Hshape Hinv. rewrite serialize_row_Ok by done. intros [= <-].
  unfold deserialize. rewrite convert_loop_Ok; [|apply HC|apply HC].
  simpl. f_equal. rewrite (spread_shaped C rw HC Hshape).
  apply map_ext_in. intros [c t] Hin%list_elem_of_In. simpl.
  f_equal. unfold obj_get.
  rewrite (al_lookup_fmap_entry
             (fun ct => through C serialize_fn ct.2 (row_get rw ct.1)) _ c t);
    [|apply HC|done].
  simpl. by apply Hinv.
Qed.

(** Building a row from a row's own values gives the same row again. *)
Lemma Row_new_spread C rw :
  constructible C -> row_shape C rw ->
  Row_new (spread rw) (columns C).*1 (key C) = Ok rw.
Proof.
  intros HC Hshape.
  destruct (Row_lock_succeeds (spread rw) (key C)
              (Row_defs (spread rw) (columns C).*1)) as [rw' Hrw'].
  { by apply shaped_has_keys. }
  { rewrite Row_defs_names by apply HC. apply Forall_forall.
    intros col Hcol. by apply key_in_columns. }
  unfold Row_new. rewrite Hrw'. f_equal.
  pose proof (Row_new_shape C _ _ HC Hrw') as [Hn' Hw'].
  destruct Hshape as [Hn Hw].
  apply al_ext.
  - rewrite Hn'. apply HC.
  - congruence.
  - intros k. rewrite (Row_new_lookup C _ _ k Hrw').
    destruct (al_lookup rw k) as [p|] eqn:Hp.
    + rewrite decide_True
        by (rewrite <- Hn; apply al_lookup_is_Some; eauto).
      f_equal. destruct p as [v w]. f_equal.
      * rewrite row_get_spread. unfold row_get. by rewrite Hp.
      * symmetry. by apply (Hw k _ Hp).
    + rewrite decide_False; [done|]. rewrite <- Hn. by apply al_lookup_None.
Qed.

End Conversion.

Section RoundTrip.
Import KeyTable KeyTableSpec.
Implicit Types (C : config) (st : state) (rw : row) (obj : pojo).

Lemma add_new_key C data rw st :
  constructible C -> consistent C st ->
  Row_new data (columns C).*1 (key C) = Ok rw ->
  lookup_path (key_values C rw) (index st) = None ->
  exists st',
    add C data st = (st', Ok (length (heap st)))
    /\ heap st' = heap st ++ [rw]
    /\ all st' = Set_add (all st) (length (heap st))
    /\ consistent C st'.
Proof.
  intros HC Hst Hrw Hfree.
  pose proof (keeps_add C data HC st Hst) as Hkeep. revert Hkeep.
  rewrite add_run, Hrw.
  pose proof (Row_new_shape C data rw HC Hrw) as Hshape.
  pose proof (addToIndex_loop_spec (key C) (index st) (spread rw)
                (length (heap st)) (key_nonempty C HC)
                (proj1 (proj2 (proj2 Hst)))
                (shaped_has_keys C rw HC Hshape)) as Hadd.
  rewrite key_values_spread, Hfree in Hadd. cbv zeta.
  destruct Hadd as (ix' & -> & _). simpl. intros Hkeep.
  eexists. split; [done|]. split_and!; try done. by apply Hkeep.
Qed.

Lemma Set_add_seq n : Set_add (seq 0 n) n = seq 0 (S n).
Proof.
  unfold Set_add. rewrite (proj2 (Set_has_false _ _)).
  - by rewrite seq_S.
  - rewrite elem_of_seq. lia.
Qed.

Lemma map_deref_seq (h : list row) : map (deref h) (seq 0 (length h)) = h.
Proof.
  induction h as [|rw h IH] using rev_ind; [done|].
  rewrite length_app. simpl. rewrite Nat.add_1_r, seq_S, map_app. simpl.
  rewrite deref_app_new. f_equal.
  trans (map (deref h) (seq 0 (length h))); [|done].
  apply map_ext_in. intros r Hr%in_seq.
  apply deref_app_old. lia.
Qed.

Lemma Array_map_inv {A B} (f : A -> result B) x l ys :
  Array_map f (x :: l) = Ok ys ->
  exists y ys', f x = Ok y /\ Array_map f l = Ok ys' /\ ys = y :: ys'.
Proof.
  simpl. destruct (f x) as [y|e]; [|done].
  destruct (Array_map f l) as [ys'|e]; [|done].
  intros [= <-]. eauto.
Qed.

Lemma Array_map_Ok {A B} (f : A -> result B) (g : A -> B) l :
  (forall x, x ∈ l -> f x = Ok (g x)) -> Array_map f l = Ok (map g l).
Proof.
  induction l as [|x l IH]; intros Hf; simpl; [done|].
  rewrite Hf by (by left). rewrite IH; [done|].
  intros y Hy. apply Hf. by right.
Qed.

Lemma Array_map_map {A B D} (f : B -> result D) (g : A -> B) l :
  Array_map f (map g l) = Array_map (fun x => f (g x)) l.
Proof.
  induction l as [|x l IH]; simpl; [done|]. by rewrite IH.
Qed.

Lemma forEach_cons {S A} (x : A) (l : list A) (f : A -> M S unit) (s : S) :
  forEach (x :: l) f s =
  match f x s with
  | (st1, Ok _) => forEach l f st1
  | (st1, Throw e) => (st1, Throw e)
  end.
Proof. reflexivity. Qed.

Lemma load_one C obj d st st1 r :
  deserialize C obj = Ok d -> add C d st = (st1, Ok r) ->
  (let* d := lift (deserialize C obj) in do* add C d in ret tt) st
  = (st1, Ok tt).
Proof. intros Hd Ha. unfold bind, lift. by rewrite Hd, Ha. Qed.

(** The loop of [load], fed with what rows with distinct key values were
    written out as, adds a row equal to each in turn. *)
Lemma load_rows C rws st objs :
  constructible C -> consistent C st ->
  all st = seq 0 (length (heap st)) ->
  Forall (row_shape C) rws ->
  NoDup (map (key_values C) (heap st ++ rws)) ->
  (forall rw col type, rw ∈ rws -> (col, type) ∈ columns C ->
     through C deserialize_fn type
       (through C serialize_fn type (row_get rw col)) = row_get rw col) ->
  Array_map (serialize_row C) rws = Ok objs ->
  exists st',
    forEach objs
      (fun obj => let* d := lift (deserialize C obj) in
                  do* add C d in ret tt) st
    = (st', Ok tt)
    /\ consistent C st'
    /\ heap st' = heap st ++ rws
    /\ all st' = seq 0 (length (heap st')).
Proof.
  intros HC. revert st objs.
  induction rws as [|rw rws IH]; intros st objs Hst Hall Hshape Hnd Hinv Hser.
  - injection Hser as <-. exists st. by rewrite app_nil_r.
  - apply Array_map_inv in Hser as (obj & objs' & Hobj & Hobjs & ->).
    apply Forall_cons in Hshape as [Hrw Hshape].
    assert (deserialize C obj = Ok (spread rw)) as Hde.
    { apply (deserialize_serialized C rw obj HC Hrw); [|done].
      intros col type Hin. apply Hinv; [by left|done]. }
    assert (lookup_path (key_values C rw) (index st) = None) as Hfree.
    { destruct Hst as ([_ Ha] & _ & Hl & Hix).
      destruct (lookup_path _ _) as [e|] eqn:He; [|done]. exfalso.
      destruct (lookup_path_full_row _ _ _ _ Hl (key_values_length C rw) He)
        as [r ->].
      apply Hix in He as [Hr Hk].
      rewrite map_app in Hnd. apply NoDup_app in Hnd as (_ & Hd & _).
      apply (Hd (key_values C rw)).
      - rewrite Hk. apply list_elem_of_fmap. exists (deref (heap st) r).
        split; [done|]. by apply deref_elem_of, Ha.
      - simpl. by left. }
    destruct (add_new_key C (spread rw) rw st HC Hst
                (Row_new_spread C rw HC Hrw) Hfree)
      as (st1 & Hadd & Hheap1 & Hall1 & Hst1).
    assert (all st1 = seq 0 (length (heap st1))) as Hseq1.
    { rewrite Hall1, Hall, Hheap1, length_app. simpl.
      rewrite Nat.add_1_r. apply Set_add_seq. }
    assert (NoDup (map (key_values C) (heap st1 ++ rws))) as Hnd1.
    { by rewrite Hheap1, <- (assoc_L (++)). }
    assert (forall rw' col type, rw' ∈ rws -> (col, type) ∈ columns C ->
              through C deserialize_fn type
                (through C serialize_fn type (row_get rw' col))
              = row_get rw' col) as Hinv1.
    { intros rw' col type Hin. apply Hinv. by right. }
    destruct (IH st1 objs' Hst1 Hseq1 Hshape Hnd1 Hinv1 Hobjs)
      as (st' & Hrun & Hst' & Hheap' & Hall').
    exists st'. split_and!; try done.
    + rewrite forEach_cons, (load_one C obj _ st st1 _ Hde Hadd). exact Hrun.
    + by rewrite Hheap', Hheap1, <- (assoc_L (++)).
Qed.

End RoundTrip.

Section RoundTripTheorem.
Import KeyTable KeyTableSpec.
Implicit Types (C : config) (st : state) (rw : row) (obj : pojo).

Lemma serialize_run C st :
  serialize C st =
  ((data C st).1,
   Array_map (fun r => serialize_row C (deref (heap (data C st).1) r))
     (all (data C st).1)).
Proof.
  unfold serialize. rewrite bind_run. rewrite data_run. simpl.
  by destruct (needSort st).
Qed.

Lemma load_run C records st :
  load C records st =
  match forEach records
          (fun obj => let* d := lift (deserialize C obj) in
                      do* add C d in ret tt) (clear st).1 with
  | (st1, Ok _) => resetChanges st1
  | (st1, Throw e) => (st1, Throw e)
  end.
Proof. reflexivity. Qed.

(** Where no call was rejected for a duplicate key, and reading back
    inverts writing out on the values the live rows hold: [serialize()]
    returns, and [load] of what it returned into a new table of the same
    definition returns and leaves rows there equal, field by field and in
    the same order, to the rows of the table serialized. *)
Lemma serialize_load_roundtrip C ops st :
  constructible C ->
  st = run C ops fresh ->
  accepted C ops fresh = true ->
  hooks_invert C st ->
  exists records st1 st2,
    serialize C st = (st1, Ok records)
    /\ heap st1 = heap st
    /\ all st1 ≡ₚ all st
    /\ load C records fresh = (st2, Ok tt)
    /\ map (fun r => spread (deref (heap st2) r)) (all st2)
       = map (fun r => spread (deref (heap st1) r)) (all st1).
Proof.
  intros HC -> Hacc Hinv.
  pose proof (run_consistent C ops fresh HC (fresh_consistent C HC) Hacc)
    as Hst.
  set (st := run C ops fresh) in *.
  pose proof (keeps_data C st Hst) as Hst1.
  assert (heap (data C st).1 = heap st /\ all (data C st).1 ≡ₚ all st)
    as [Hheap Hperm].
  { rewrite data_run. simpl. destruct (needSort st); simpl; [|done].
    split; [done|].
    rewrite Set_from_NoDup.
    - apply Array_sort_Permutation.
    - rewrite Array_sort_Permutation. apply Hst. }
  rewrite serialize_run.
  assert (is_duplicate (data C st).2 = false) as Hnd
    by (by rewrite data_run).
  specialize (Hst1 Hnd). clear Hnd.
  set (st1 := (data C st).1) in *.
  destruct Hst1 as ([Hs Ha] & Hnodup & Hl & Hix).
  set (rws := map (deref (heap st1)) (all st1)).
  assert (Forall (row_shape C) rws) as Hshape.
  { apply Forall_forall. intros rw (r & -> & Hr)%list_elem_of_fmap.
    destruct (lookup_lt_is_Some_2 _ _ (Ha r Hr)) as [rw Hrw].
    rewrite (deref_lookup _ _ _ Hrw).
    by apply (proj1 (Forall_lookup _ _) Hs r rw). }
  set (ser := fun rw : row =>
        map (fun ct => (ct.1, through C serialize_fn ct.2 (row_get rw ct.1)))
          (columns C)).
  assert (Array_map (serialize_row C) rws = Ok (map ser rws)) as Hser.
  { apply Array_map_Ok. intros rw Hrw. apply serialize_row_Ok; [done|].
    by apply (proj1 (Forall_forall _ _) Hshape). }
  assert (Array_map (fun r => serialize_row C (deref (heap st1) r)) (all st1)
          = Ok (map ser rws)) as Hser'.
  { rewrite <- Hser. unfold rws. by rewrite Array_map_map. }
  destruct (load_rows C rws fresh (map ser rws) HC (fresh_consistent C HC))
    as (st' & Hrun & Hst' & Hheap' & Hall'); try done.
  { simpl. unfold rws. apply NoDup_fmap_2_strong; [|].
    - intros rw1 rw2 (r1 & -> & H1)%list_elem_of_fmap
        (r2 & -> & H2)%list_elem_of_fmap Hk. f_equal.
      assert (lookup_path (key_values C (deref (heap st1) r1)) (index st1)
              = Some (ERow r1)) as E1 by (by apply Hix).
      assert (lookup_path (key_values C (deref (heap st1) r1)) (index st1)
              = Some (ERow r2)) as E2 by (rewrite Hk; by apply Hix).
      congruence.
    - apply NoDup_fmap_2_strong; [|done].
      intros r1 r2 H1 H2 Hd.
      assert (lookup_path (key_values C (deref (heap st1) r1)) (index st1)
              = Some (ERow r1)) as E1 by (by apply Hix).
      assert (lookup_path (key_values C (deref (heap st1) r1)) (index st1)
              = Some (ERow r2)) as E2 by (rewrite Hd; by apply Hix).
      congruence. }
  { intros rw col type (r & -> & Hr)%list_elem_of_fmap Hin.
    rewrite Hheap. apply Hinv; [|done]. by rewrite <- Hperm. }
  exists (map ser rws), st1, (resetChanges st').1.
  split_and!; try done.
  - by rewrite Hser'.
  - rewrite load_run. change (clear fresh).1 with fresh. by rewrite Hrun.
  - rewrite resetChanges_run. simpl. rewrite Hall', Hheap'. simpl.
    rewrite <- (map_map (deref rws) spread), map_deref_seq.
    unfold rws. by rewrite map_map.
Qed.

(** So it is for the three rows of the README's example. *)
Lemma serialize_load_example :
  exists st1 st2,
    serialize Examples.cfg Examples.three_rows
      = (st1,
         Ok [Examples.rec 1 2 "baz"; Examples.rec 2 2 "bar";
             Examples.rec 2 3 "boz"])
    /\ load Examples.cfg
         [Examples.rec 1 2 "baz"; Examples.rec 2 2 "bar";
          Examples.rec 2 3 "boz"] fresh = (st2, Ok tt)
    /\ map (fun r => spread (deref (heap st2) r)) (all st2)
       = [Examples.rec 1 2 "baz"; Examples.rec 2 2 "bar";
          Examples.rec 2 3 "boz"].
Proof.
  destruct (serialize_load_roundtrip Examples.cfg Examples.three_adds
              Examples.three_rows cfg_constructible eq_refl)
    as (records & st1 & st2 & Hser & Hheap & _ & Hload & Hrows).
  { compute_done. }
  { intros r col type _ Hin. unfold through.
    assert (type = "default") as ->.
    { repeat (apply elem_of_cons in Hin as [[= _ ->]|Hin]; [done|]).
      by apply elem_of_nil in Hin. }
    done. }
  assert ((serialize Examples.cfg Examples.three_rows).2
          = Ok [Examples.rec 1 2 "baz"; Examples.rec 2 2 "bar";
                Examples.rec 2 3 "boz"]) as Hrec by (vm_compute; reflexivity).
  assert (map (fun r => spread
                 (deref (heap (serialize Examples.cfg Examples.three_rows).1)
                    r))
            (all (serialize Examples.cfg Examples.three_rows).1)
          = [Examples.rec 1 2 "baz"; Examples.rec 2 2 "bar";
             Examples.rec 2 3 "boz"]) as Hall by (vm_compute; reflexivity).
  rewrite Hser in Hrec, Hall. simpl in Hrec, Hall. injection Hrec as ->.
  exists st1, st2. split_and!; [done|done|]. by rewrite Hrows.
Qed.

(** C6 fails on the code.  After a rejected [add] the table holds two
    live rows with the key [(1, 2)]; [serialize()] writes both out, and
    [load] of that into a new table of the same definition throws the
    duplicate-key error at the second record instead of reproducing the
    rows. *)
Theorem serialize_load_after_rejected_add :
  (add Examples.cfg (Examples.rec 1 2 "baz") Examples.one_row).2
    = Throw DuplicateKey
  /\ (serialize Examples.cfg
        (add Examples.cfg (Examples.rec 1 2 "baz") Examples.one_row).1).2
     = Ok [Examples.rec 1 2 "bar"; Examples.rec 1 2 "baz"]
  /\ (load Examples.cfg [Examples.rec 1 2 "bar"; Examples.rec 1 2 "baz"]
        fresh).2 = Throw DuplicateKey.
Proof. split_and!; vm_compute; reflexivity. Qed.

End RoundTripTheorem.

Section Tracker.
Import KeyTable KeyTableSpec TrackerSpec.
Implicit Types (C : config) (st : state).

Lemma tracks_ret {A} (a : A) : tracks (ret a).
Proof. by intros st. Qed.

Lemma tracks_lift {A} (r : result A) : tracks (lift r).
Proof. by intros st. Qed.

Lemma tracks_gets {A} (f : state -> A) : tracks (gets f).
Proof. by intros st. Qed.

Lemma tracks_bind {A B} (m : M state A) (k : A -> M state B) :
  tracks m -> (forall a, tracks (k a)) -> tracks (bind m k).
Proof.
  intros Hm Hk st Hst. rewrite bind_run. specialize (Hm st Hst).
  destruct (m st) as [st1 [a|e]]; simpl in *; [by apply Hk|done].
Qed.

Lemma tracks_forEach {A} (l : list A) (f : A -> M state unit) :
  (forall x, tracks (f x)) -> tracks (forEach l f).
Proof.
  intros Hf. induction l as [|x l IH]; simpl; [apply tracks_ret|].
  apply tracks_bind; [apply Hf|done].
Qed.

Lemma tracks_find C kd : tracks (find C kd).
Proof. intros st. by rewrite find_run. Qed.

Lemma tracks_resetChanges : tracks resetChanges.
Proof.
  intros st ((Hall & _) & _ & _ & _ & _ & Hlt). rewrite resetChanges_run.
  unfold tracked. simpl. rewrite (Set_from_NoDup _ Hall).
  split_and!; try done; try apply NoDup_nil_2.
  - intros r. split; [by left|]. intros [?|[?%elem_of_nil|?%elem_of_nil]]; done.
  - intros r _. split; apply not_elem_of_nil.
  - intros r ?%elem_of_nil. done.
  - intros r ?%elem_of_nil. done.
  - intros r [?|?%elem_of_nil]; [|done]. apply Hlt. by left.
Qed.

Lemma tracks_clear : tracks clear.
Proof.
  intros st _. rewrite clear_run. unfold tracked. simpl.
  split_and!; try apply NoDup_nil_2.
  - intros r. split; [by intros ?%elem_of_nil|].
    intros [?%elem_of_nil|[?%elem_of_nil|?%elem_of_nil]]; done.
  - intros r ?%elem_of_nil. done.
  - intros r ?%elem_of_nil. done.
  - intros r ?%elem_of_nil. done.
  - intros r [?%elem_of_nil|?%elem_of_nil]; done.
Qed.

Lemma tracks_data C : tracks (data C).
Proof.
  intros st Hst. rewrite data_run. simpl.
  destruct (needSort st); [|done].
  destruct Hst as ((Hall & Hu & Ha & Hc & Hd) & Hpart & Hua & Hac & Hdel & Hlt).
  unfold tracked. simpl.
  assert (forall r, r ∈ Set_from (Array_sort (sortFn C (heap st)) (all st))
                    <-> r ∈ all st) as Hsame.
  { intros r. by rewrite elem_of_Set_from, elem_of_Array_sort. }
  split_and!; try done.
  - apply NoDup_Set_from.
  - intros r. by rewrite Hsame.
  - intros r. rewrite Hsame. apply Hdel.
  - intros r. rewrite Hsame. apply Hlt.
Qed.

Lemma tracks_add C data : tracks (add C data).
Proof.
  intros st Hst. rewrite add_run.
  destruct (Row_new data (columns C).*1 (key C)) as [rw|e]; [|done].
  assert (tracked
            (set_added (fun s => Set_add s (length (heap st)))
               (set_all (fun s => Set_add s (length (heap st)))
                  (set_heap (fun h => h ++ [rw]) st)))) as Hok.
  { destruct Hst
      as ((Hall & Hu & Ha & Hc & Hd) & Hpart & Hua & Hac & Hdel & Hlt).
    assert (length (heap st) ∉ all st) as Hnew.
    { intros Hin. pose proof (Hlt _ (or_introl Hin)). lia. }
    assert (length (heap st) ∉ deleted st) as Hnewd.
    { intros Hin. pose proof (Hlt _ (or_intror Hin)). lia. }
    unfold tracked. simpl. split_and!; try done.
    - by apply NoDup_Set_add.
    - by apply NoDup_Set_add.
    - intros r. rewrite !elem_of_Set_add, Hpart. tauto.
    - intros r Hr. rewrite elem_of_Set_add. destruct (Hua r Hr) as [? ?].
      split; [|done]. intros [Hin| ->]; [done|].
      apply Hnew, Hpart. by left.
    - intros r. rewrite elem_of_Set_add. intros [Hin| ->]; [by apply Hac|].
      intros Hin. apply Hnew, Hpart. by right; right.
    - intros r Hr. rewrite elem_of_Set_add. intros [Hin| ->]; [|done].
      by apply (Hdel r).
    - intros r. rewrite elem_of_Set_add, length_app. simpl.
      intros [[Hin| ->]|Hin]; [|lia|].
      + pose proof (Hlt _ (or_introl Hin)). lia.
      + pose proof (Hlt _ (or_intror Hin)). lia. }
  simpl. by destruct (addToIndex_loop _ _ _ _ _).2.
Qed.

Lemma tracks_update C row data : tracks (update C row data).
Proof.
  intros st Hst. rewrite update_run.
  destruct (Set_has (all st) row) eqn:Hlive; [|done].
  simpl. destruct (equal _ _); [done|].
  apply Set_has_true in Hlive.
  destruct Hst
    as ((Hall & Hu & Ha & Hc & Hd) & Hpart & Hua & Hac & Hdel & Hlt).
  destruct (assign_loop _ _).2; simpl.
  2: { unfold tracked. simpl. rewrite length_insert. done. }
  destruct (Set_has (added st) row) eqn:Hadd.
  - apply Set_has_true in Hadd. unfold tracked. simpl.
    rewrite length_insert. split_and!; try done.
    + by apply NoDup_Set_delete.
    + intros r. rewrite elem_of_Set_delete, Hpart.
      destruct (decide (r = row)) as [->|Hne]; [|tauto]. tauto.
    + intros r [Hr _]%elem_of_Set_delete. by apply Hua.
  - apply Set_has_false in Hadd. unfold tracked. simpl.
    rewrite length_insert. split_and!; try done.
    + by apply NoDup_Set_delete.
    + by apply NoDup_Set_add.
    + intros r. rewrite elem_of_Set_delete, elem_of_Set_add, Hpart.
      destruct (decide (r = row)) as [->|Hne]; [|tauto].
      split; [tauto|]. intros _. by apply Hpart.
    + intros r [Hr Hne]%elem_of_Set_delete. rewrite elem_of_Set_add.
      destruct (Hua r Hr) as [? ?]. split; [done|]. intros [?|?]; done.
    + intros r Hr. rewrite elem_of_Set_add. intros [?| ->]; [|done].
      by apply (Hac r).
Qed.

Lemma tracks_delete C row : tracks (delete_ C row).
Proof.
  intros st Hst. rewrite delete_run.
  destruct (Set_has (all st) row) eqn:Hlive; [|done].
  apply Set_has_true in Hlive.
  destruct Hst
    as ((Hall & Hu & Ha & Hc & Hd) & Hpart & Hua & Hac & Hdel & Hlt).
  unfold tracked. simpl. split_and!; try by apply NoDup_Set_delete.
  - by apply NoDup_Set_add.
  - intros r. rewrite !elem_of_Set_delete, Hpart. tauto.
  - intros r [Hr _]%elem_of_Set_delete. rewrite !elem_of_Set_delete.
    destruct (Hua r Hr). tauto.
  - intros r [Hr _]%elem_of_Set_delete. rewrite !elem_of_Set_delete.
    pose proof (Hac r Hr). tauto.
  - intros r. rewrite elem_of_Set_add, elem_of_Set_delete.
    intros [Hr| ->]; [|tauto]. pose proof (Hdel r Hr). tauto.
  - intros r. rewrite elem_of_Set_add, elem_of_Set_delete.
    intros [[Hr _]|[Hr| ->]]; apply Hlt; auto.
Qed.

Lemma tracks_get C kd : tracks (get_ C kd).
Proof.
  unfold get_. apply tracks_bind; [apply tracks_find|].
  intros [e|]; [apply tracks_ret|].
  apply tracks_bind; [apply tracks_add|]. intros r. apply tracks_ret.
Qed.

Lemma tracks_serialize C : tracks (serialize C).
Proof.
  unfold serialize. apply tracks_bind; [apply tracks_data|]. intros rows.
  apply tracks_bind; [apply tracks_gets|]. intros h. apply tracks_lift.
Qed.

Lemma tracks_load C records : tracks (load C records).
Proof.
  unfold load. apply tracks_bind; [apply tracks_clear|]. intros _.
  apply tracks_bind; [|intros _; apply tracks_resetChanges].
  apply tracks_forEach. intros obj.
  apply tracks_bind; [apply tracks_lift|]. intros d.
  apply tracks_bind; [apply tracks_add|]. intros r. apply tracks_ret.
Qed.

Lemma tracks_step C o : tracks (step C o).
Proof.
  destruct o; simpl;
    try (apply tracks_bind; [|intros ?; apply tracks_ret]);
    auto using tracks_add, tracks_update, tracks_delete, tracks_find,
      tracks_get, tracks_data, tracks_gets, tracks_serialize, tracks_load,
      tracks_clear, tracks_resetChanges.
  apply tracks_gets.
Qed.

Lemma fresh_tracked : tracked fresh.
Proof.
  unfold tracked. simpl. split_and!; try apply NoDup_nil_2.
  - intros r. split; [by intros ?%elem_of_nil|].
    intros [?%elem_of_nil|[?%elem_of_nil|?%elem_of_nil]]; done.
  - intros r ?%elem_of_nil. done.
  - intros r ?%elem_of_nil. done.
  - intros r ?%elem_of_nil. done.
  - intros r [?%elem_of_nil|?%elem_of_nil]; done.
Qed.

Lemma run_tracked C ops st : tracked st -> tracked (run C ops st).
Proof.
  revert st. induction ops as [|o ops IH]; intros st Hst; simpl; [done|].
  apply IH. by apply tracks_step.
Qed.

(** X1.  After any calls whatever on a new table, also rejected ones, the
    sets that [changes] returns file every row that [data] returns under
    exactly one of [untouched], [added] and [changed], and no row in
    [deleted] is among the rows of [data]. *)
Theorem changes_partition_data C ops :
  exists a c d u rows,
    (changes (run C ops fresh)).2 = Ok (a, c, d, u)
    /\ (data C (run C ops fresh)).2 = Ok rows
    /\ NoDup rows
    /\ (forall r, r ∈ rows <-> r ∈ u \/ r ∈ a \/ r ∈ c)
    /\ (forall r, r ∈ u -> (r ∉ a) /\ (r ∉ c))
    /\ (forall r, r ∈ a -> r ∉ c)
    /\ (forall r, r ∈ d -> r ∉ rows).
Proof.
  pose proof (run_tracked C ops fresh fresh_tracked) as Hrun.
  pose proof (tracks_data C _ Hrun) as Hdata.
  set (st := run C ops fresh) in *.
  destruct Hrun
    as ((Hall & Hu & Ha & Hc & Hd) & Hpart & Hua & Hac & Hdel & Hlt).
  exists (added st), (changed st), (deleted st), (untouched st).
  exists (if needSort st
          then Set_from (Array_sort (sortFn C (heap st)) (all st))
          else all st).
  assert (forall r,
            r ∈ (if needSort st
                 then Set_from (Array_sort (sortFn C (heap st)) (all st))
                 else all st) <-> r ∈ all st) as Hsame.
  { intros r. destruct (needSort st); [|done].
    by rewrite elem_of_Set_from, elem_of_Array_sort. }
  split_and!.
  - unfold changes, gets. simpl. by rewrite !Set_from_NoDup.
  - by rewrite data_run.
  - destruct (needSort st); [apply NoDup_Set_from|done].
  - intros r. by rewrite Hsame.
  - done.
  - done.
  - intros r. rewrite Hsame. apply Hdel.
Qed.

End Tracker.

Section RowConstruction.
Import KeyTable KeyTableSpec.
Implicit Types (C : config) (st : state) (rw : row).







End RowConstruction.

Section LiveRows.
Import KeyTable KeyTableSpec TrackerSpec.
Implicit Types (C : config) (st : state) (rw : row).

(** In a consistent table [find] with a full key is a lookup of the key
    values in the index. *)
Lemma consistent_find C st kd :
  constructible C -> consistent C st ->
  Forall (fun col => al_has kd col = true) (key C) ->
  exists o,
    find C kd st = (st, Ok o)
    /\ (o = None \/ exists r, o = Some (ERow r))
    /\ forall r,
         o = Some (ERow r)
         <-> r ∈ all st
             /\ key_values C (deref (heap st) r) = map (obj_get kd) (key C).
Proof.
  intros HC (Hheap & Hnd & Hl & Hix) Hhas. rewrite find_run.
  rewrite (seek_loop_full _ _ _ (key_nonempty C HC) Hl Hhas).
  eexists. split; [done|]. split.
  - destruct (lookup_path _ _) as [e|] eqn:He; [|by left]. right.
    destruct (lookup_path_full_row _ _ _ _ Hl (length_map _ _) He) as [r ->].
    by exists r.
  - intros r. rewrite Hix. split; intros [Hr Hk]; done.
Qed.

Lemma consistent_find_live C st r :
  constructible C -> consistent C st -> r ∈ all st ->
  find C (spread (deref (heap st) r)) st = (st, Ok (Some (ERow r))).
Proof.
  intros HC Hst Hr. pose proof Hst as (Hheap & Hnd & Hl & Hix).
  destruct (consistent_live_row C st r Hst Hr) as (rw & Hrw & Hshape).
  rewrite (deref_lookup _ _ _ Hrw), find_run.
  rewrite (seek_loop_full _ _ _ (key_nonempty C HC) Hl
             (shaped_has_keys C rw HC Hshape)).
  rewrite key_values_spread. do 2 f_equal. apply Hix.
  by rewrite (deref_lookup _ _ _ Hrw).
Qed.

(** Two live rows of a consistent table differ in some key value. *)
Lemma consistent_key_inj C st r1 r2 :
  consistent C st -> r1 ∈ all st -> r2 ∈ all st ->
  key_values C (deref (heap st) r1) = key_values C (deref (heap st) r2) ->
  r1 = r2.
Proof.
  intros (Hheap & Hnd & Hl & Hix) H1 H2 Heq.
  assert (lookup_path (key_values C (deref (heap st) r1)) (index st)
          = Some (ERow r1)) as Hp1 by (by apply Hix).
  assert (lookup_path (key_values C (deref (heap st) r1)) (index st)
          = Some (ERow r2)) as Hp2 by (rewrite Heq; by apply Hix).
  congruence.
Qed.


End LiveRows.

Section DeleteRow.
Import KeyTable KeyTableSpec TrackerSpec.
Implicit Types (C : config) (st : state) (rw : row).

(** X2.  In a table whose calls so far were none of them rejected for a
    duplicate key, [delete(row)] of a live row returns; the row is then
    out of the live rows and of [untouched], [added] and [changed], and in
    [deleted]; [find] with the row's key values returns [null], while
    every other live row is still found under its own; and a second
    [delete] of the row, or an [update] of it, throws the not-current
    error and changes nothing. *)
Theorem delete_detaches_row C ops st row :
  constructible C ->
  st = run C ops fresh ->
  accepted C ops fresh = true ->
  row ∈ all st ->
  exists st',
    delete_ C row st = (st', Ok tt)
    /\ (forall r, r ∈ all st' <-> r ∈ all st /\ r <> row)
    /\ row ∈ deleted st'
    /\ (row ∉ untouched st') /\ (row ∉ added st') /\ (row ∉ changed st')
    /\ heap st' = heap st
    /\ find C (spread (deref (heap st) row)) st' = (st', Ok None)
    /\ (forall r, r ∈ all st' ->
          find C (spread (deref (heap st') r)) st' = (st', Ok (Some (ERow r))))
    /\ delete_ C row st' = (st', Throw NotCurrentRow)
    /\ (forall data, update C row data st' = (st', Throw NotCurrentRow)).
Proof.
  intros HC -> Hacc Hlive.
  pose proof (run_consistent C ops fresh HC (fresh_consistent C HC) Hacc)
    as Hst.
  set (st := run C ops fresh) in *.
  pose proof (keeps_delete C row HC st Hst) as Hkeep.
  pose proof Hst as (Hheap & Hnd & Hl & Hix).
  destruct (consistent_live_row C st row Hst Hlive) as (rw & Hrw & Hshape).
  revert Hkeep. rewrite delete_run, (proj2 (Set_has_true _ _) Hlive).
  rewrite (deref_lookup _ _ _ Hrw).
  destruct (removeFromIndex_loop_spec (key C) (index st) (spread rw) false
              (key_nonempty C HC) Hl (shaped_has_keys C rw HC Hshape))
    as (ix' & b & -> & _ & _).
  simpl. intros Hst'. specialize (Hst' eq_refl).
  eexists. split; [done|].
  assert (row ∉ Set_delete (all st) row) as Hgone.
  { rewrite elem_of_Set_delete. tauto. }
  split_and!.
  - intros r. simpl. apply elem_of_Set_delete.
  - simpl. apply Set_add_here.
  - simpl. rewrite elem_of_Set_delete. tauto.
  - simpl. rewrite elem_of_Set_delete. tauto.
  - simpl. rewrite elem_of_Set_delete. tauto.
  - done.
  - destruct (consistent_find C _ (spread rw) HC Hst'
                (shaped_has_keys C rw HC Hshape)) as (o & -> & Hcase & Ho).
    destruct Hcase as [->|[r ->]]; [done|].
    destruct (proj1 (Ho r) eq_refl) as [Hr Hk]. exfalso.
    simpl in Hr, Hk. apply elem_of_Set_delete in Hr as [Hr Hne]. apply Hne.
    apply (consistent_key_inj C st r row Hst Hr Hlive).
    rewrite Hk, (deref_lookup _ _ _ Hrw). apply key_values_spread.
  - intros r Hr. by apply consistent_find_live.
  - rewrite delete_run. simpl. by rewrite (proj2 (Set_has_false _ _) Hgone).
  - intros data. rewrite update_run. simpl.
    by rewrite (proj2 (Set_has_false _ _) Hgone).
Qed.

Lemma delete_detaches_row_witness :
  delete_ Examples.cfg 0 Examples.three_rows
  = ((delete_ Examples.cfg 0 Examples.three_rows).1, Ok tt)
  /\ all (delete_ Examples.cfg 0 Examples.three_rows).1 = [1%nat; 2%nat]
  /\ (find Examples.cfg (Examples.keyOf 2 2)
        (delete_ Examples.cfg 0 Examples.three_rows).1).2 = Ok None.
Proof.
  destruct (delete_detaches_row Examples.cfg Examples.three_adds
              Examples.three_rows 0 cfg_constructible eq_refl)
    as (st' & Hdel & _ & _ & _ & _ & _ & _ & Hfind & _).
  { compute_done. }
  { compute_done. }
  rewrite Hdel. cbn [fst snd].
  assert (all (delete_ Examples.cfg 0 Examples.three_rows).1
          = [1%nat; 2%nat]) as Hall by (vm_compute; reflexivity).
  assert (spread (deref (heap Examples.three_rows) 0) = Examples.rec 2 2 "bar")
    as Hrow by (vm_compute; reflexivity).
  rewrite Hdel in Hall. cbn [fst] in Hall.
  split_and!; [done|done|].
  assert ((find Examples.cfg (Examples.keyOf 2 2) st').2
          = (find Examples.cfg (Examples.rec 2 2 "bar") st').2) as ->.
  { rewrite !find_run. cbn [snd]. reflexivity. }
  rewrite <- Hrow, Hfind. done.
Defined.

End DeleteRow.

Section GetRow.
Import KeyTable KeyTableSpec TrackerSpec.
Implicit Types (C : config) (st : state) (rw : row).



End GetRow.

Section AddRow.
Import KeyTable KeyTableSpec TrackerSpec.
Implicit Types (C : config) (st : state) (rw : row).



End AddRow.

Section DataCache.
Import KeyTable KeyTableSpec TrackerSpec.
Implicit Types (C : config) (st : state) (rw : row).

(** X5.  After any calls whatever on a new table, [data] returns every
    live row exactly once, whatever the key values are, and changes
    nothing but the order of the live rows; read again right away it
    returns the same array without sorting again. *)
Theorem data_sorts_once C ops :
  exists rows st1,
    data C (run C ops fresh) = (st1, Ok rows)
    /\ rows ≡ₚ all (run C ops fresh)
    /\ NoDup rows
    /\ all st1 = rows
    /\ needSort st1 = false
    /\ heap st1 = heap (run C ops fresh)
    /\ index st1 = index (run C ops fresh)
    /\ untouched st1 = untouched (run C ops fresh)
    /\ added st1 = added (run C ops fresh)
    /\ changed st1 = changed (run C ops fresh)
    /\ deleted st1 = deleted (run C ops fresh)
    /\ data C st1 = (st1, Ok rows).
Proof.
  pose proof (run_tracked C ops fresh fresh_tracked) as ((Hnd & _) & _).
  set (st := run C ops fresh) in *. rewrite data_run.
  destruct (needSort st) eqn:Hn.
  - assert (Array_sort (sortFn C (heap st)) (all st) ≡ₚ all st) as Hperm
      by apply Array_sort_Permutation.
    assert (Set_from (Array_sort (sortFn C (heap st)) (all st))
            = Array_sort (sortFn C (heap st)) (all st)) as Hcopy.
    { apply Set_from_NoDup. by rewrite Hperm. }
    eexists _, _. split; [done|]. simpl. rewrite Hcopy.
    split_and!; try done.
    + by rewrite Hperm.
    + rewrite data_run. simpl. by rewrite Hcopy.
  - eexists _, _. split; [done|]. split_and!; try done.
    rewrite data_run. by rewrite Hn.
Qed.

End DataCache.

Section Comparator.
Import KeyTable KeyTableSpec TrackerSpec.
Implicit Types (C : config) (st : state) (rw : row).

Lemma sortFn_loop_antisym C cols h (a b : row) :
  comparable C cols h -> a ∈ h -> b ∈ h ->
  sortFn_loop C cols b a = - sortFn_loop C cols a b.
Proof.
  intros Hcmp Ha Hb. induction cols as [|col cols IH]; simpl; [done|].
  apply Forall_cons in Hcmp as [Hcol Hcmp].
  destruct (proj1 (ordered_values_spec _ _) Hcol) as (Hirr & _ & Htr).
  assert (row_get a col ∈ map (fun rw => row_get rw col) h) as Hva.
  { apply list_elem_of_fmap. eauto. }
  assert (row_get b col ∈ map (fun rw => row_get rw col) h) as Hvb.
  { apply list_elem_of_fmap. eauto. }
  destruct (js_lt C (row_get a col) (row_get b col)) eqn:Hab;
    destruct (js_lt C (row_get b col) (row_get a col)) eqn:Hba;
    try done; [|by apply IH].
  pose proof (Htr _ _ _ Hva Hvb Hva Hab Hba) as Haa.
  by rewrite (Hirr _ Hva) in Haa.
Qed.

Lemma sortFn_loop_zero C cols h (a b : row) :
  comparable C cols h -> a ∈ h -> b ∈ h ->
  sortFn_loop C cols a b = 0 -> map (row_get a) cols = map (row_get b) cols.
Proof.
  intros Hcmp Ha Hb. induction cols as [|col cols IH]; simpl; [done|].
  apply Forall_cons in Hcmp as [Hcol Hcmp].
  destruct (proj1 (ordered_values_spec _ _) Hcol) as (_ & Htri & _).
  assert (row_get a col ∈ map (fun rw => row_get rw col) h) as Hva.
  { apply list_elem_of_fmap. eauto. }
  assert (row_get b col ∈ map (fun rw => row_get rw col) h) as Hvb.
  { apply list_elem_of_fmap. eauto. }
  destruct (js_lt C (row_get a col) (row_get b col)) eqn:Hab; [done|].
  destruct (js_lt C (row_get b col) (row_get a col)) eqn:Hba; [done|].
  intros Hrest. f_equal; [|by apply IH].
  destruct (Htri _ _ Hva Hvb) as [?|[?|?]]; congruence.
Qed.

Lemma sortFn_loop_same C cols (a : row) :
  (forall col, col ∈ cols -> js_lt C (row_get a col) (row_get a col) = false) ->
  sortFn_loop C cols a a = 0.
Proof.
  induction cols as [|col cols IH]; intros Hirr; simpl; [done|].
  rewrite (Hirr col) by apply list_elem_of_here.
  apply IH. intros c Hc. apply Hirr. by apply list_elem_of_further.
Qed.

Lemma sortFn_loop_sign C cols (a b : row) :
  sortFn_loop C cols a b = -1 \/ sortFn_loop C cols a b = 0
  \/ sortFn_loop C cols a b = 1.
Proof.
  induction cols as [|col cols IH]; simpl; [by right; left|].
  destruct (js_lt C (row_get a col) (row_get b col)); [by left|].
  destruct (js_lt C (row_get b col) (row_get a col)); [by right; right|done].
Qed.

(** X6.  The comparator of [#makeSortFn] returns -1, 0 or 1.  In a table
    whose calls so far were none of them rejected for a duplicate key, and
    where in every key column [<] is a strict total order on the values of
    the rows made so far, it is antisymmetric on live rows and, as the
    comment in the source expects, returns 0 for two live rows only when
    they are the same row. *)
Theorem sortFn_tells_rows_apart C ops st r1 r2 :
  constructible C ->
  st = run C ops fresh ->
  accepted C ops fresh = true ->
  keys_ordered C (heap st) ->
  r1 ∈ all st -> r2 ∈ all st ->
  (sortFn C (heap st) r1 r2 = -1 \/ sortFn C (heap st) r1 r2 = 0
   \/ sortFn C (heap st) r1 r2 = 1)
  /\ sortFn C (heap st) r2 r1 = - sortFn C (heap st) r1 r2
  /\ (sortFn C (heap st) r1 r2 = 0 <-> r1 = r2).
Proof.
  intros HC -> Hacc Hord H1 H2.
  pose proof (run_consistent C ops fresh HC (fresh_consistent C HC) Hacc)
    as Hst.
  set (st := run C ops fresh) in *.
  pose proof Hst as ([_ Hlt] & _).
  pose proof (deref_elem_of (heap st) r1 (Hlt r1 H1)) as Hd1.
  pose proof (deref_elem_of (heap st) r2 (Hlt r2 H2)) as Hd2.
  unfold sortFn, makeSortFn. split_and!.
  - apply sortFn_loop_sign.
  - by apply (sortFn_loop_antisym C (key C) (heap st)).
  - split.
    + intros Hzero. apply (consistent_key_inj C st r1 r2 Hst H1 H2).
      by apply (sortFn_loop_zero C (key C) (heap st)).
    + intros <-. apply sortFn_loop_same. intros col Hcol.
      unfold keys_ordered, comparable in Hord.
      rewrite Forall_forall in Hord.
      destruct (proj1 (ordered_values_spec _ _) (Hord col Hcol))
        as (Hirr & _). apply Hirr. apply list_elem_of_fmap. eauto.
Qed.

Lemma sortFn_tells_rows_apart_witness :
  sortFn Examples.cfg (heap Examples.three_rows) 0 1 = 1
  /\ sortFn Examples.cfg (heap Examples.three_rows) 1 0 = -1.
Proof.
  destruct (sortFn_tells_rows_apart Examples.cfg Examples.three_adds
              Examples.three_rows 0 1 cfg_constructible eq_refl)
    as (_ & Hanti & _); [compute_done|compute_done|compute_done|compute_done|].
  assert (sortFn Examples.cfg (heap Examples.three_rows) 0 1 = 1) as H01
    by (vm_compute; reflexivity).
  split; [exact H01|]. rewrite Hanti, H01. done.
Defined.

End Comparator.

Section SerializeRows.
Import KeyTable KeyTableSpec TrackerSpec LoadSpec.
Implicit Types (C : config) (st : state) (rw : row).

(** X7.  After any calls whatever on a table made by the constructor,
    rejected ones included, [serialize()] returns: it yields one record
    per live row, in the order of [data], each holding exactly the
    declared columns in declared order, with the row's value passed
    through the serialize hook of the column's type where there is one;
    and it changes the table as reading [data] does. *)
Theorem serialize_writes_columns C ops :
  constructible C ->
  exists st1 rows,
    data C (run C ops fresh) = (st1, Ok rows)
    /\ serialize C (run C ops fresh)
       = (st1, Ok (map (fun r => written C (deref (heap st1) r)) rows)).
Proof.
  intros HC.
  destruct (run_preserves C ops fresh HC (fresh_heap_ok C)) as [Hok _].
  destruct (preserves_data C _ Hok) as [[Hshape Hlt] _].
  set (st := run C ops fresh) in *.
  rewrite serialize_run. exists (data C st).1, (all (data C st).1).
  split.
  - rewrite data_run. simpl. by destruct (needSort st).
  - f_equal. apply Array_map_Ok. intros r Hr.
    apply serialize_row_Ok; [done|].
    destruct (lookup_lt_is_Some_2 _ _ (Hlt r Hr)) as [rw Hrw].
    rewrite (deref_lookup _ _ _ Hrw).
    by apply (proj1 (Forall_lookup _ _) Hshape r rw).
Qed.

Lemma serialize_writes_columns_witness :
  exists st1,
    serialize Examples.cfg Examples.three_rows
    = (st1, Ok [Examples.rec 1 2 "baz"; Examples.rec 2 2 "bar";
                Examples.rec 2 3 "boz"]).
Proof.
  destruct (serialize_writes_columns Examples.cfg Examples.three_adds
              cfg_constructible) as (st1 & rows & Hdata & Hser).
  exists st1. rewrite Hser. do 2 f_equal.
  assert ((data Examples.cfg Examples.three_rows).2
          = Ok [1%nat; 0%nat; 2%nat]) as Hrows by (vm_compute; reflexivity).
  assert (heap (data Examples.cfg Examples.three_rows).1
          = heap Examples.three_rows) as Hheap by (vm_compute; reflexivity).
  rewrite Hdata in Hrows, Hheap. cbn [fst snd] in Hrows, Hheap.
  injection Hrows as ->. rewrite Hheap. vm_compute. reflexivity.
Defined.

End SerializeRows.

Section LoadRecords.
Import KeyTable KeyTableSpec TrackerSpec LoadSpec.
Implicit Types (C : config) (st : state) (rw : row) (obj : pojo).









End LoadRecords.

Section ClearTable.
Import KeyTable KeyTableSpec TrackerSpec LoadSpec.
Implicit Types (C : config) (st : state) (rw : row).



End ClearTable.

Section AcceptedHistories.
Import KeyTable KeyTableSpec TrackerSpec LoadSpec.
Implicit Types (C : config) (st : state) (rw : row).

(** X10.  In a table whose calls so far were none of them rejected for a
    duplicate key, the rows that the index leads to are exactly the live
    rows; each live row is what [find] returns for the row's own values;
    and no two live rows hold the same key values. *)
Theorem index_reaches_live_rows C ops st :
  constructible C ->
  st = run C ops fresh ->
  accepted C ops fresh = true ->
  (forall r, indexed st r <-> r ∈ all st)
  /\ (forall r, r ∈ all st ->
        find C (spread (deref (heap st) r)) st = (st, Ok (Some (ERow r))))
  /\ (forall r1 r2, r1 ∈ all st -> r2 ∈ all st ->
        key_values C (deref (heap st) r1) = key_values C (deref (heap st) r2) ->
        r1 = r2).
Proof.
  intros HC -> Hacc.
  pose proof (run_consistent C ops fresh HC (fresh_consistent C HC) Hacc)
    as Hst.
  set (st := run C ops fresh) in *. split_and!.
  - pose proof Hst as (_ & _ & _ & Hix). intros r. split.
    + intros [ks Hks]. by apply Hix in Hks as [Hr _].
    + intros Hr. eexists. by apply Hix.
  - intros r Hr. by apply consistent_find_live.
  - intros r1 r2. by apply consistent_key_inj.
Qed.

Lemma index_reaches_live_rows_witness :
  find Examples.cfg (spread (deref (heap Examples.three_rows) 2))
    Examples.three_rows
  = (Examples.three_rows, Ok (Some (ERow 2))).
Proof.
  refine (proj1 (proj2 (index_reaches_live_rows Examples.cfg
                          Examples.three_adds Examples.three_rows
                          cfg_constructible eq_refl _)) 2%nat _);
    compute_done.
Defined.

(** X11.  In a table whose calls so far were none of them rejected for a
    duplicate key, and whose column types read back what they write out
    of the live rows: [serialize()] returns one record per live row, and
    [load] of what it returned into a new table of the same definition
    returns and leaves live rows, all of them untouched, that hold, row by
    row in the order of [data], the values of the rows serialized. *)
Theorem serialize_load_reproduces_rows C ops st :
  constructible C ->
  st = run C ops fresh ->
  accepted C ops fresh = true ->
  hooks_invert C st ->
  exists records st1 st2,
    serialize C st = (st1, Ok records)
    /\ length records = length (all st)
    /\ heap st1 = heap st
    /\ all st1 ≡ₚ all st
    /\ load C records fresh = (st2, Ok tt)
    /\ checkpointed st2
    /\ map (fun r => spread (deref (heap st2) r)) (all st2)
       = map (fun r => spread (deref (heap st1) r)) (all st1).
Proof.
  intros HC Hst Hacc Hinv.
  destruct (serialize_load_roundtrip C ops st HC Hst Hacc Hinv)
    as (records & st1 & st2 & Hser & Hheap & Hperm & Hload & Hrows).
  exists records, st1, st2. split_and!; try done.
  - destruct (serialize_writes_columns C ops HC) as (st1' & rows & Hd & Hs).
    rewrite <- Hst, Hser in Hs. injection Hs as <- ->.
    rewrite length_map, <- Hperm.
    rewrite <- Hst, data_run in Hd. injection Hd as <- <-.
    by destruct (needSort st).
  - rewrite load_run in Hload.
    destruct (forEach records _ (clear fresh).1) as [st' [[]|e]]; [|done].
    pose proof (resetChanges_checkpointed st') as Hcp.
    by rewrite Hload in Hcp.
Qed.

Lemma serialize_load_reproduces_rows_witness :
  exists records st1 st2,
    serialize Examples.cfg Examples.three_rows = (st1, Ok records)
    /\ length records = 3%nat
    /\ load Examples.cfg records fresh = (st2, Ok tt)
    /\ map (fun r => spread (deref (heap st2) r)) (all st2)
       = [Examples.rec 1 2 "baz"; Examples.rec 2 2 "bar";
          Examples.rec 2 3 "boz"].
Proof.
  destruct (serialize_load_reproduces_rows Examples.cfg Examples.three_adds
              Examples.three_rows cfg_constructible eq_refl)
    as (records & st1 & st2 & Hser & Hlen & Hheap & _ & Hload & _ & Hrows).
  { compute_done. }
  { intros r col type _ Hin. unfold through.
    assert (type = "default") as ->.
    { repeat (apply elem_of_cons in Hin as [[= _ ->]|Hin]; [done|]).
      by apply elem_of_nil in Hin. }
    done. }
  exists records, st1, st2. split_and!; [done|done|done|].
  rewrite Hrows.
  assert (map (fun r => spread
                 (deref (heap (serialize Examples.cfg Examples.three_rows).1)
                    r))
            (all (serialize Examples.cfg Examples.three_rows).1)
          = [Examples.rec 1 2 "baz"; Examples.rec 2 2 "bar";
             Examples.rec 2 3 "boz"]) as Hall by (vm_compute; reflexivity).
  rewrite Hser in Hall. exact Hall.
Defined.

(** X12.  In a table whose calls so far were none of them rejected for a
    duplicate key, [add(data)] with the key values of a live row throws
    the duplicate-key error; the index, [untouched], [changed] and
    [deleted] are as before and [find] still returns the row that holds
    the key; the row made for the data is by then the last of the live
    rows and of [added]. *)
Theorem add_rejects_taken_key C ops st data row :
  constructible C ->
  st = run C ops fresh ->
  accepted C ops fresh = true ->
  row ∈ all st ->
  Forall (fun col => al_has data col = true) (key C) ->
  map (obj_get data) (key C) = key_values C (deref (heap st) row) ->
  exists st',
    add C data st = (st', Throw DuplicateKey)
    /\ index st' = index st
    /\ all st' = all st ++ [length (heap st)]
    /\ added st' = added st ++ [length (heap st)]
    /\ untouched st' = untouched st
    /\ changed st' = changed st
    /\ deleted st' = deleted st
    /\ find C data st' = (st', Ok (Some (ERow row))).
Proof.
  intros HC Hst Hacc Hrow Hhas Hkey.
  destruct (add_existing_key C ops st data row HC Hst Hacc Hrow Hhas Hkey)
    as (Hres & Hix & Hall & Hadded).
  subst st.
  pose proof (run_consistent C ops fresh HC (fresh_consistent C HC) Hacc)
    as Hcons.
  pose proof (run_tracked C ops fresh fresh_tracked) as Htr.
  set (st := run C ops fresh) in *.
  exists (add C data st).1. split_and!; try done.
  - by rewrite <- Hres, <- surjective_pairing.
  - rewrite Hadded. unfold Set_add.
    rewrite (proj2 (Set_has_false _ _)); [done|].
    intros Hin. destruct Htr as (_ & Hpart & _ & _ & _ & Hlt).
    assert (length (heap st) ∈ all st) as Hl by (apply Hpart; by right; left).
    pose proof (Hlt _ (or_introl Hl)). lia.
  - rewrite add_run. destruct (Row_new _ _ _); [|done]. cbv zeta.
    by destruct (addToIndex_loop _ _ _ _ _).2.
  - rewrite add_run. destruct (Row_new _ _ _); [|done]. cbv zeta.
    by destruct (addToIndex_loop _ _ _ _ _).2.
  - rewrite add_run. destruct (Row_new _ _ _); [|done]. cbv zeta.
    by destruct (addToIndex_loop _ _ _ _ _).2.
  - destruct (consistent_find C st data HC Hcons Hhas) as (o & Hfind & _ & Ho).
    rewrite find_run in Hfind. rewrite find_run, Hix. f_equal.
    injection Hfind as ->. f_equal. by apply Ho.
Qed.

Lemma add_rejects_taken_key_witness :
  (add Examples.cfg (Examples.rec 1 2 "baz") Examples.one_row).2
  = Throw DuplicateKey.
Proof.
  destruct (add_rejects_taken_key Examples.cfg
              [Add (Examples.rec 1 2 "bar")] Examples.one_row
              (Examples.rec 1 2 "baz") 0 cfg_constructible eq_refl)
    as (st' & Hadd & _); [compute_done|compute_done|compute_done|done|].
  by rewrite Hadd.
Defined.

End AcceptedHistories.

Section Splitting.
Import KeyTable Schema SchemaSpec.
Import Stdlib.Strings.Ascii.
Implicit Types (p : ascii -> bool) (s t : string).

Lemma append_cons (c : ascii) s t :
  (String c s +:+ t)%string = String c (s +:+ t).
Proof. reflexivity. Qed.

Lemma append_nil_r s : (s +:+ "")%string = s.
Proof.
  induction s as [|c s IH]; [done|]. by rewrite append_cons, IH.
Qed.

Lemma without_weaken p q s :
  (forall c, p c = true -> q c = true) ->
  without q s = true -> without p s = true.
Proof.
  intros Hpq. induction s as [|c s IH]; simpl; [done|].
  intros [Hc Hs]%andb_prop. rewrite IH by done.
  destruct (p c) eqn:Hp; [|done]. by rewrite (Hpq c Hp) in Hc.
Qed.

Lemma String_split_cons p s :
  exists piece pieces, String_split p s = piece :: pieces.
Proof.
  induction s as [|c s (piece & pieces & IH)]; simpl; [by eexists _, _|].
  destruct (p c); [by eexists _, _|]. rewrite IH. by eexists _, _.
Qed.

(** Splitting goes past a piece without separators. *)
Lemma String_split_piece p t s piece pieces :
  without p t = true ->
  String_split p s = piece :: pieces ->
  String_split p (t +:+ s) = (t +:+ piece)%string :: pieces.
Proof.
  intros Ht Hs. induction t as [|c t IH]; [done|].
  simpl in Ht. apply andb_prop in Ht as [Hc Ht]. apply negb_true_iff in Hc.
  rewrite append_cons. simpl. by rewrite Hc, IH.
Qed.

Lemma String_split_whole p t :
  without p t = true -> String_split p t = [t].
Proof.
  intros Ht. rewrite <- (append_nil_r t) at 1.
  rewrite (String_split_piece p t "" "" []); [|done|done].
  by rewrite append_nil_r.
Qed.

(** The non-empty pieces between spaces and commas. *)
Lemma tokens_separator sep s :
  without (fun c => negb (space_or_comma c)) sep = true ->
  filter_Boolean (String_split space_or_comma (sep +:+ s))
  = filter_Boolean (String_split space_or_comma s).
Proof.
  induction sep as [|c sep IH]; [done|]. intros Hall. simpl in Hall.
  apply andb_prop in Hall as [Hc Hsep]. rewrite negb_involutive in Hc.
  rewrite append_cons. simpl. rewrite Hc.
  unfold filter_Boolean at 1. rewrite filter_cons_False by (by intros ?).
  by apply IH.
Qed.

Lemma tokens_piece t sep s :
  t <> EmptyString -> without space_or_comma t = true ->
  separator sep ->
  filter_Boolean (String_split space_or_comma (t +:+ sep +:+ s))
  = t :: filter_Boolean (String_split space_or_comma s).
Proof.
  intros Hne Ht [Hsep Hall]. destruct sep as [|c sep]; [done|].
  simpl in Hall. apply andb_prop in Hall as [Hc Hall].
  rewrite negb_involutive in Hc.
  destruct (String_split_cons space_or_comma (sep +:+ s))
    as (piece & pieces & Hs).
  rewrite (String_split_piece _ t _ "" (piece :: pieces) Ht).
  2: { rewrite append_cons. simpl. by rewrite Hc, Hs. }
  rewrite append_nil_r. unfold filter_Boolean at 1.
  rewrite filter_cons_True by done. f_equal.
  rewrite <- Hs. by apply tokens_separator.
Qed.

Lemma tokens_last t :
  t <> EmptyString -> without space_or_comma t = true ->
  filter_Boolean (String_split space_or_comma t) = [t].
Proof.
  intros Hne Ht. rewrite (String_split_whole _ _ Ht).
  unfold filter_Boolean. by rewrite filter_cons_True.
Qed.

Lemma tokens_concat sep ts :
  separator sep ->
  Forall (fun t => t <> EmptyString /\ without space_or_comma t = true) ts ->
  filter_Boolean (String_split space_or_comma (String.concat sep ts)) = ts.
Proof.
  intros Hsep. induction ts as [|t ts IH]; intros Hts; [done|].
  apply Forall_cons in Hts as [[Hne Ht] Hts].
  destruct ts as [|t' ts].
  { simpl. by apply tokens_last. }
  change (String.concat sep (t :: t' :: ts))
    with (t +:+ sep +:+ String.concat sep (t' :: ts))%string.
  rewrite tokens_piece by done. f_equal. by apply IH.
Qed.

Lemma tokens_none s :
  without (fun c => negb (space_or_comma c)) s = true ->
  filter_Boolean (String_split space_or_comma s) = [].
Proof.
  intros Hs. rewrite <- (append_nil_r s). by rewrite tokens_separator.
Qed.

End Splitting.

Section Parsing.
Import KeyTable Schema SchemaSpec.
Import Stdlib.Strings.Ascii.
Implicit Types (p : ascii -> bool) (s t : string).
Implicit Types (ct : string * option string) (C : config).
Variable inherited : string -> bool.
Variable types : list (string * type_hooks).

Lemma without_append p s t :
  without p (s +:+ t) = without p s && without p t.
Proof.
  induction s as [|c s IH]; [done|]. rewrite append_cons. simpl.
  by rewrite IH, andb_assoc.
Qed.

Lemma bare_no_separator s : bare s -> without space_or_comma s = true.
Proof.
  apply without_weaken. intros c Hc. by rewrite Hc.
Qed.

Lemma bare_no_colon s : bare s -> without colon s = true.
Proof.
  apply without_weaken. intros c Hc. rewrite Hc. apply orb_true_r.
Qed.

Lemma includes_colon_without s :
  without colon s = true -> includes_colon s = false.
Proof.
  induction s as [|c s IH]; simpl; [done|].
  intros [Hc Hs]%andb_prop. apply negb_true_iff in Hc. by rewrite Hc, IH.
Qed.

Lemma includes_colon_append s t : includes_colon (s +:+ ":" +:+ t) = true.
Proof.
  induction s as [|c s IH]; [done|]. rewrite append_cons. simpl.
  rewrite IH. apply orb_true_r.
Qed.

Lemma column_token_piece ct :
  well_formed ct ->
  column_token ct <> EmptyString
  /\ without space_or_comma (column_token ct) = true.
Proof.
  destruct ct as [name [type|]]; unfold well_formed, column_token; simpl.
  - intros ([Hne Hname] & _ & Htype). split.
    + destruct name; [done|]. by rewrite append_cons.
    + rewrite !without_append, (bare_no_separator _ Hname),
        (bare_no_separator _ Htype). done.
  - intros ([Hne Hname] & _ & _). split; [done|].
    by apply bare_no_separator.
Qed.

(** A well-formed column is parsed as written, and kept if its type is
    registered. *)
Lemma parseColumn_token ct :
  well_formed ct ->
  parseColumn inherited types (column_token ct)
  = if has_property inherited types (column_entry ct).2
    then Made (column_entry ct)
    else Failed (UnknownType (column_entry ct).2).
Proof.
  destruct ct as [name [type|]]; unfold well_formed, column_token,
    column_entry, parseColumn; simpl.
  - intros ([Hne Hname] & _ & Htype). rewrite includes_colon_append.
    rewrite (String_split_piece colon name (":" +:+ type) "" [type]).
    + by rewrite append_nil_r.
    + by apply bare_no_colon.
    + change (":" +:+ type)%string with (String ":" type). simpl.
      by rewrite (String_split_whole colon type (bare_no_colon _ Htype)).
  - intros ([Hne Hname] & _ & _).
    rewrite (includes_colon_without _ (bare_no_colon _ Hname)).
    rewrite (String_split_piece colon name ":default" "" ["default"%string]).
    + by rewrite append_nil_r.
    + by apply bare_no_colon.
    + reflexivity.
Qed.

Lemma Array_map_assert_all {A B D} (f : B -> outcome D) (h : A -> B)
    (g : A -> D) l :
  Forall (fun x => f (h x) = Made (g x)) l ->
  Array_map_assert f (map h l) = Made (map g l).
Proof.
  induction 1 as [|x l Hx _ IH]; simpl; [done|]. by rewrite Hx, IH.
Qed.

Lemma Array_map_assert_first {A B D} (f : B -> outcome D) (h : A -> B)
    (g : A -> D) pre x post e :
  Forall (fun y => f (h y) = Made (g y)) pre ->
  f (h x) = Failed e ->
  Array_map_assert f (map h (pre ++ x :: post)) = Failed e.
Proof.
  intros Hpre Hx. induction Hpre as [|y pre Hy _ IH]; simpl.
  - by rewrite Hx.
  - by rewrite Hy, IH.
Qed.

Lemma Array_map_assert_Made {A B} (f : A -> outcome B) l ys :
  Array_map_assert f l = Made ys ->
  forall y, y ∈ ys -> exists x, x ∈ l /\ f x = Made y.
Proof.
  revert ys. induction l as [|x l IH]; intros ys; simpl.
  { intros [= <-] y Hy. by apply elem_of_nil in Hy. }
  destruct (f x) as [y0|e] eqn:Hx; [|done].
  destruct (Array_map_assert f l) as [ys0|e]; [|done].
  intros [= <-] y [->|Hy]%elem_of_cons.
  - exists x. split; [apply list_elem_of_here|done].
  - destruct (IH ys0 eq_refl y Hy) as (x' & Hx' & Hf).
    exists x'. split; [by apply list_elem_of_further|done].
Qed.

Lemma first_failing_None {A} (ok : A -> bool) l :
  first_failing ok l = None <-> Forall (fun x => ok x = true) l.
Proof.
  induction l as [|x l IH]; simpl.
  { split; [by constructor|done]. }
  destruct (ok x) eqn:Hx.
  - rewrite IH. split; [by constructor|]. by intros [_ ?]%Forall_cons.
  - split; [done|]. intros [? _]%Forall_cons. congruence.
Qed.

Lemma first_failing_Some {A} (ok : A -> bool) pre x post :
  Forall (fun y => ok y = true) pre -> ok x = false ->
  first_failing ok (pre ++ x :: post) = Some x.
Proof.
  intros Hpre Hx. induction Hpre as [|y pre Hy _ IH]; simpl.
  - by rewrite Hx.
  - by rewrite Hy.
Qed.

Lemma fromEntries_acc {A} (acc l : list (string * A)) :
  NoDup (acc.*1 ++ l.*1) ->
  foldl (fun o kv => al_set o kv.1 kv.2) acc l = acc ++ l.
Proof.
  revert acc. induction l as [|[k v] l IH]; intros acc Hnd; simpl.
  { by rewrite app_nil_r. }
  simpl in Hnd. rewrite al_set_names_absent.
  - rewrite IH; [by rewrite <- app_assoc|].
    rewrite fmap_app. simpl. by rewrite <- app_assoc.
  - apply NoDup_app in Hnd as (_ & Hdisj & _). intros Hin.
    apply (Hdisj k Hin). apply list_elem_of_here.
Qed.

Lemma fromEntries_distinct {A} (l : list (string * A)) :
  NoDup l.*1 -> fromEntries l = l.
Proof. intros Hnd. by apply (fromEntries_acc [] l). Qed.

Lemma al_set_elem {A} (o : list (string * A)) k v x :
  x ∈ al_set o k v -> x ∈ o \/ x = (k, v).
Proof.
  induction o as [|[k' v'] o IH]; simpl.
  { intros ->%list_elem_of_singleton. by right. }
  case_decide as Hk.
  - intros [->|Hx]%elem_of_cons; [by right|].
    left. by apply list_elem_of_further.
  - intros [->|Hx]%elem_of_cons; [left; apply list_elem_of_here|].
    destruct (IH Hx) as [?|?]; [left; by apply list_elem_of_further|by right].
Qed.

Lemma al_set_NoDup {A} (o : list (string * A)) k v :
  NoDup o.*1 -> NoDup (al_set o k v).*1.
Proof.
  intros Hnd. destruct (decide (k ∈ o.*1)) as [Hin|Hnin].
  - by rewrite al_set_names_present.
  - rewrite al_set_names_absent by done. rewrite fmap_app. simpl.
    apply NoDup_app. split_and!; [done| |apply NoDup_singleton].
    intros x Hx ->%list_elem_of_singleton. done.
Qed.

Lemma fromEntries_spec {A} (l : list (string * A)) :
  NoDup (fromEntries l).*1 /\ forall x, x ∈ fromEntries l -> x ∈ l.
Proof.
  unfold fromEntries.
  assert (forall acc : list (string * A),
            NoDup acc.*1 ->
            NoDup (foldl (fun o kv => al_set o kv.1 kv.2) acc l).*1
            /\ forall x, x ∈ foldl (fun o kv => al_set o kv.1 kv.2) acc l ->
                 x ∈ acc \/ x ∈ l) as Hacc.
  { induction l as [|[k v] l IH]; intros acc Hnd; simpl; [by auto|].
    destruct (IH (al_set acc k v) (al_set_NoDup _ _ _ Hnd)) as [Hn Hin].
    split; [done|]. intros x Hx.
    destruct (Hin x Hx) as [[?| ->]%al_set_elem|?].
    - by left.
    - right. apply list_elem_of_here.
    - right. by apply list_elem_of_further. }
  destruct (Hacc [] (NoDup_nil_2)) as [Hn Hin]. split; [done|].
  intros x Hx. destruct (Hin x Hx) as [?%elem_of_nil|?]; done.
Qed.

Lemma parseColumn_Made colDef name type :
  parseColumn inherited types colDef = Made (name, type) ->
  has_property inherited types type = true.
Proof.
  unfold parseColumn.
  destruct (String_split colon _) as [|n [|t pieces]]; [done|done|].
  destruct (has_property inherited types t) eqn:Ht; [|done].
  by intros [= _ <-].
Qed.

Lemma parseColumns_tokens (cts : list (string * option string)) sep :
  separator sep ->
  Forall well_formed cts ->
  parseColumns inherited types (String.concat sep (map column_token cts))
  = match Array_map_assert (parseColumn inherited types)
            (map column_token cts) with
    | Failed e => Failed e
    | Made entries =>
        match first_failing (fun kv => negb (starts_with_digit kv.1))
                entries with
        | Some kv => Failed (NumericName kv.1)
        | None => Made (fromEntries entries)
        end
    end.
Proof.
  intros Hsep Hwf. unfold parseColumns. rewrite tokens_concat; [done|done|].
  apply Forall_fmap. apply (Forall_impl _ _ _ Hwf).
  intros ct Hct. by apply column_token_piece.
Qed.

Lemma parseColumns_well_formed (cts : list (string * option string)) sep :
  separator sep ->
  Forall well_formed cts ->
  NoDup cts.*1 ->
  Forall (fun ct => has_property inherited types (column_entry ct).2 = true)
    cts ->
  parseColumns inherited types (String.concat sep (map column_token cts))
  = Made (map column_entry cts).
Proof.
  intros Hsep Hwf Hnd Hreg. rewrite parseColumns_tokens by done.
  rewrite (Array_map_assert_all _ column_token column_entry).
  2: { apply Forall_forall. intros ct Hct.
       rewrite Forall_forall in Hwf. rewrite Forall_forall in Hreg.
       by rewrite (parseColumn_token ct (Hwf ct Hct)), (Hreg ct Hct). }
  rewrite (proj2 (first_failing_None _ _)).
  2: { apply Forall_fmap. apply (Forall_impl _ _ _ Hwf).
       intros ct (_ & Hd & _). simpl. by rewrite Hd. }
  rewrite fromEntries_distinct; [done|].
  by rewrite <- list_fmap_compose.
Qed.

Lemma parseKey_tokens columns ks sep :
  separator sep ->
  Forall (fun k => k <> EmptyString /\ without space_or_comma k = true) ks ->
  parseKey inherited columns (String.concat sep ks)
  = match first_failing (has_property inherited columns) ks with
    | Some col => Failed (NoSuchColumn col)
    | None => if bool_decide (ks = []) then Failed KeyEmpty else Made ks
    end.
Proof.
  intros Hsep Hks. unfold parseKey. by rewrite tokens_concat.
Qed.

Lemma column_entry_names (cts : list (string * option string)) :
  (map column_entry cts).*1 = cts.*1.
Proof. rewrite <- list_fmap_compose. by apply list_fmap_ext. Qed.

End Parsing.

Section TableConstruction.
Import KeyTable Schema SchemaSpec.
Import Stdlib.Strings.Ascii.
Implicit Types (ct : string * option string) (C : config).

(** X13.  A configuration that [new Table(defs)] returns with satisfies
    what the table's methods rely on: column names are distinct, every
    column's type is registered, the key is not empty and every key column
    is declared.  The constructor checks types and key columns with [in],
    which also finds what the registry and the column object inherit from
    [Object.prototype]; the statement is for tables where no type and no
    key column is such a name. *)
Theorem Table_new_constructible inherited types StringToNumber defs C :
  Table_new inherited types StringToNumber defs = Made C ->
  Forall (fun col : string * string => inherited col.2 = false) (columns C) ->
  Forall (fun col => inherited col = false) (KeyTable.key C) ->
  constructible C
  /\ KeyTable.types C = types
  /\ KeyTable.StringToNumber C = StringToNumber.
Proof.
  unfold Table_new. destruct defs as [[[colString|] [keyString|]]|]; try done.
  simpl. destruct (parseColumns inherited types colString)
    as [columns|e] eqn:Hcols; [|done].
  destruct (parseKey inherited columns keyString) as [key|e] eqn:Hkey;
    [|done].
  intros [= <-]. simpl. intros Htypes Hkeys. split; [|done].
  unfold parseColumns in Hcols.
  destruct (Array_map_assert _ _) as [entries|e] eqn:Hmap; [|done].
  destruct (first_failing _ entries); [done|]. injection Hcols as <-.
  destruct (fromEntries_spec entries) as [Hnd Hin].
  unfold parseKey in Hkey.
  destruct (first_failing (has_property inherited (fromEntries entries)) _)
    eqn:Hfirst; [done|].
  case_bool_decide as Hempty; [done|]. injection Hkey as <-.
  apply first_failing_None in Hfirst. split; simpl.
  - exact Hnd.
  - apply Forall_forall. intros [name type] Hct. simpl.
    rewrite Forall_forall in Htypes. specialize (Htypes _ Hct). simpl in Htypes.
    destruct (Array_map_assert_Made _ _ _ Hmap _ (Hin _ Hct))
      as (colDef & _ & Hparse).
    apply parseColumn_Made in Hparse. unfold has_property in Hparse.
    by rewrite Htypes, orb_false_r in Hparse.
  - apply Forall_forall. intros col Hcol.
    rewrite Forall_forall in Hfirst. rewrite Forall_forall in Hkeys.
    specialize (Hfirst col Hcol). unfold has_property in Hfirst.
    by rewrite (Hkeys col Hcol), orb_false_r in Hfirst.
  - done.
Qed.

Lemma Table_new_constructible_witness :
  Table_new Object_prototype [("default"%string, Examples.default_type)]
    (fun _ => None)
    (Some {| defs_cols := Some "k1,k2,foo"%string;
             defs_key := Some "k1,k2"%string |})
  = Made Examples.cfg
  /\ constructible Examples.cfg.
Proof.
  assert (Table_new Object_prototype
            [("default"%string, Examples.default_type)] (fun _ => None)
            (Some {| defs_cols := Some "k1,k2,foo"%string;
                     defs_key := Some "k1,k2"%string |})
          = Made Examples.cfg) as Hnew by (vm_compute; reflexivity).
  split; [exact Hnew|].
  apply (Table_new_constructible _ _ _ _ _ Hnew); by repeat constructor.
Defined.

(** X14.  Columns written as [name] or [name:type], with names that are
    not empty, do not start with a digit and are all different, names and
    types free of spaces, commas and colons, and types that are
    registered, joined by any mixture of spaces and commas, and a key
    written the same way from some of these names, at least one: the
    constructor returns, [cols] gives the names in the order written,
    [key] the key columns in the order written, and a column without a
    type has the type [default]. *)
Theorem Table_new_reads_definition inherited types StringToNumber
    (cts : list (string * option string)) (ks : list string) sep1 sep2 :
  separator sep1 -> separator sep2 ->
  Forall well_formed cts ->
  NoDup cts.*1 ->
  Forall (fun ct => has_property inherited types (column_entry ct).2 = true)
    cts ->
  ks <> [] ->
  Forall (fun k => k ∈ cts.*1) ks ->
  exists C,
    Table_new inherited types StringToNumber
      (Some {| defs_cols := Some (String.concat sep1 (map column_token cts));
               defs_key := Some (String.concat sep2 ks) |})
    = Made C
    /\ columns C = map column_entry cts
    /\ cols C = cts.*1
    /\ Schema.key C = ks.
Proof.
  intros Hsep1 Hsep2 Hwf Hnd Hreg Hne Hks.
  unfold Table_new. simpl.
  rewrite (parseColumns_well_formed inherited types cts sep1) by done.
  rewrite parseKey_tokens; [|done|].
  2: { apply Forall_forall. intros k Hk.
       rewrite Forall_forall in Hks. rewrite Forall_forall in Hwf.
       pose proof (Hks k Hk) as Hin.
       apply list_elem_of_fmap in Hin as (ct & -> & Hct).
       destruct (Hwf ct Hct) as ([Hn Hb] & _).
       split; [done|]. by apply bare_no_separator. }
  rewrite (proj2 (first_failing_None _ _)).
  2: { apply Forall_forall. intros k Hk. rewrite Forall_forall in Hks.
       unfold has_property. rewrite (proj2 (al_has_true _ _)); [done|].
       rewrite column_entry_names. by apply Hks. }
  rewrite bool_decide_eq_false_2 by done.
  eexists. split; [done|]. simpl. split; [done|]. split; [|done].
  unfold cols. simpl. apply column_entry_names.
Qed.

Lemma Table_new_reads_definition_witness :
  exists C,
    Table_new Object_prototype
      [("default"%string,
        {| serialize_fn := None; deserialize_fn := None |});
       ("foo"%string,
        {| serialize_fn := Some (fun v => v); deserialize_fn := None |})]
      (fun _ => None)
      (Some {| defs_cols := Some "id, data:foo"%string;
               defs_key := Some "id"%string |})
    = Made C
    /\ columns C = [("id", "default"); ("data", "foo")]%string
    /\ cols C = ["id"; "data"]%string
    /\ Schema.key C = ["id"%string].
Proof.
  apply (Table_new_reads_definition Object_prototype _ _
           [("id"%string, None); ("data"%string, Some "foo"%string)]
           ["id"%string] ", "%string ","%string).
  - by split.
  - by split.
  - repeat constructor; done.
  - compute_done.
  - by repeat constructor.
  - done.
  - repeat constructor; compute_done.
Defined.

End TableConstruction.

Section TableRejection.
Import KeyTable Schema SchemaSpec.
Import Stdlib.Strings.Ascii.
Implicit Types (ct : string * option string) (C : config).

(** X15.  What the constructor rejects, in the order it checks.  Without
    a definition, without a string for [cols], or with one but without a
    string for [key], it fails with the message for that, before anything
    is parsed.  For well-formed columns joined by spaces and commas, it
    fails with the unknown-type message for the first column whose type
    is not registered, whatever the key.  For columns that parse, it
    fails with the no-such-column message for the first key column that
    is not declared, and with the message that the key must have a column
    when the key string holds nothing but spaces and commas, or nothing at
    all. *)
Theorem Table_new_rejects inherited types StringToNumber :
  Table_new inherited types StringToNumber None = Failed MustSupplyDefinition
  /\ (forall k,
        Table_new inherited types StringToNumber
          (Some {| defs_cols := None; defs_key := k |})
        = Failed NoColumnsSupplied)
  /\ (forall colString,
        Table_new inherited types StringToNumber
          (Some {| defs_cols := Some colString; defs_key := None |})
        = Failed NoKeySupplied)
  /\ (forall (pre post : list (string * option string)) bad sep keyString,
        separator sep ->
        Forall well_formed (pre ++ bad :: post) ->
        Forall (fun ct =>
                  has_property inherited types (column_entry ct).2 = true)
          pre ->
        has_property inherited types (column_entry bad).2 = false ->
        Table_new inherited types StringToNumber
          (Some {| defs_cols :=
                     Some (String.concat sep
                             (map column_token (pre ++ bad :: post)));
                   defs_key := Some keyString |})
        = Failed (UnknownType (column_entry bad).2))
  /\ (forall colString columns (pre post : list string) col sep,
        parseColumns inherited types colString = Made columns ->
        separator sep ->
        Forall (fun k => k <> EmptyString
                         /\ without space_or_comma k = true)
          (pre ++ col :: post) ->
        Forall (fun k => has_property inherited columns k = true) pre ->
        has_property inherited columns col = false ->
        Table_new inherited types StringToNumber
          (Some {| defs_cols := Some colString;
                   defs_key := Some (String.concat sep (pre ++ col :: post)) |})
        = Failed (NoSuchColumn col))
  /\ (forall colString columns keyString,
        parseColumns inherited types colString = Made columns ->
        without (fun c => negb (space_or_comma c)) keyString = true ->
        Table_new inherited types StringToNumber
          (Some {| defs_cols := Some colString;
                   defs_key := Some keyString |})
        = Failed KeyEmpty).
Proof.
  split_and!; try done.
  - intros pre post bad sep keyString Hsep Hwf Hpre Hbad.
    unfold Table_new. simpl. rewrite parseColumns_tokens by done.
    rewrite (Array_map_assert_first _ column_token column_entry pre bad post
               (UnknownType (column_entry bad).2)); [done| |].
    + apply Forall_forall. intros ct Hct.
      rewrite Forall_forall in Hwf. rewrite Forall_forall in Hpre.
      rewrite parseColumn_token, (Hpre ct Hct); [done|].
      apply Hwf. apply elem_of_app. by left.
    + rewrite parseColumn_token, Hbad; [done|].
      rewrite Forall_forall in Hwf. apply Hwf.
      apply elem_of_app. right. apply list_elem_of_here.
  - intros colString columns pre post col sep Hcols Hsep Hks Hpre Hcol.
    unfold Table_new. simpl. rewrite Hcols, parseKey_tokens by done.
    by rewrite (first_failing_Some _ pre col post Hpre Hcol).
  - intros colString columns keyString Hcols Hkey.
    unfold Table_new. simpl. rewrite Hcols. unfold parseKey.
    by rewrite tokens_none.
Qed.

Lemma Table_new_rejects_witness :
  Table_new Object_prototype [("default"%string, Examples.default_type)]
    (fun _ => None)
    (Some {| defs_cols := Some "id,data:foo"%string;
             defs_key := Some "id"%string |})
  = Failed (UnknownType "foo")
  /\ Table_new Object_prototype [("default"%string, Examples.default_type)]
       (fun _ => None)
       (Some {| defs_cols := Some "id,data"%string;
                defs_key := Some "id,nope"%string |})
     = Failed (NoSuchColumn "nope")
  /\ Table_new Object_prototype [("default"%string, Examples.default_type)]
       (fun _ => None)
       (Some {| defs_cols := Some "id,data"%string;
                defs_key := Some " , "%string |})
     = Failed KeyEmpty.
Proof.
  destruct (Table_new_rejects Object_prototype
              [("default"%string, Examples.default_type)] (fun _ => None))
    as (_ & _ & _ & Htype & Hcol & Hkey).
  split_and!.
  - apply (Htype [("id"%string, None)] []
             ("data"%string, Some "foo"%string) ","%string "id"%string).
    + by split.
    + repeat constructor; done.
    + by repeat constructor.
    + done.
  - apply (Hcol "id,data"%string
             [("id", "default"); ("data", "default")]%string
             ["id"%string] [] "nope"%string ","%string).
    + vm_compute. reflexivity.
    + by split.
    + repeat constructor; done.
    + by repeat constructor.
    + done.
  - apply (Hkey "id,data"%string
             [("id", "default"); ("data", "default")]%string).
    + vm_compute. reflexivity.
    + done.
Defined.

End TableRejection.

Section IndexHolds.
Import IndexTable IndexTableSpec.
Implicit Types (fn : pojo -> value) (h : list pojo) (rows : list rowid)
  (r row : rowid) (ix : index).

Lemma rows_deref_app_old h (o : pojo) r :
  (r < length h)%nat -> deref (h ++ [o]) r = deref h r.
Proof. intros Hr. unfold deref. by rewrite lookup_app_l. Qed.


Lemma rows_deref_insert_ne h r r' (o : pojo) :
  r <> r' -> deref (<[r := o]> h) r' = deref h r'.
Proof. intros Hne. unfold deref. by rewrite list_lookup_insert_ne. Qed.


(** Only which rows there are matters, and what they hold. *)
Lemma holds_ext h h' rows rows' ix :
  (forall r, r ∈ rows' <-> r ∈ rows) ->
  (forall r, r ∈ rows -> deref h' r = deref h r) ->
  holds h rows ix -> holds h' rows' ix.
Proof.
  intros Hrows Hh. destruct ix as [fn map|fn map]; simpl.
  - intros Hix key. specialize (Hix key).
    destruct (map !! key) as [entry|].
    + destruct Hix as (Hne & Hnd & Hin). split_and!; [done|done|].
      intros r. rewrite Hin, Hrows. split; intros [Hr Hk]; split; try done.
      * by rewrite Hh.
      * by rewrite <- Hh.
    + intros r Hr%Hrows. rewrite Hh by done. by apply Hix.
  - intros Hix key r. rewrite Hix, Hrows.
    split; intros [Hr Hk]; split; try done.
    + by rewrite Hh.
    + by rewrite <- Hh.
Qed.


(** [ix.delete(row)] for a row the index holds. *)
Lemma ix_delete_holds h rows ix row :
  holds h rows ix -> row ∈ rows ->
  exists ix',
    ix_delete ix h row = (ix', Ok tt)
    /\ holds h (Set_delete rows row) ix'.
Proof.
  intros Hix Hrow. destruct ix as [fn map|fn map]; simpl in *.
  - unfold Index_delete. pose proof (Hix (fn (deref h row))) as Hkey.
    destruct (map !! fn (deref h row)) as [entry|] eqn:Hentry.
    2: { by destruct (Hkey row Hrow). }
    destruct Hkey as (Hne & Hnd & Hin).
    case_bool_decide as Hlen.
    + eexists. split; [done|]. simpl. intros key.
      destruct (decide (key = fn (deref h row))) as [->|Hk].
      * rewrite lookup_delete_eq. intros r [Hr Hrne]%elem_of_Set_delete Hfn.
        assert (r ∈ Set_delete entry row) as Hmem.
        { apply elem_of_Set_delete. split; [|done]. by apply Hin. }
        apply length_zero_iff_nil in Hlen. rewrite Hlen in Hmem.
        by apply elem_of_nil in Hmem.
      * rewrite lookup_delete_ne by done. specialize (Hix key).
        destruct (map !! key) as [s|].
        -- destruct Hix as (Hsne & Hsnd & Hsin). split_and!; [done|done|].
           intros r. rewrite Hsin, elem_of_Set_delete.
           split; [|tauto]. intros [Hr Hfn]. split_and!; try done.
           intros ->. done.
        -- intros r [Hr _]%elem_of_Set_delete. by apply Hix.
    + eexists. split; [done|]. simpl. intros key.
      destruct (decide (key = fn (deref h row))) as [->|Hk].
      * rewrite lookup_insert_eq. split_and!.
        -- intros Hnil. apply Hlen. by rewrite Hnil.
        -- by apply NoDup_Set_delete.
        -- intros r. rewrite !elem_of_Set_delete, Hin. tauto.
      * rewrite lookup_insert_ne by done. specialize (Hix key).
        destruct (map !! key) as [s|].
        -- destruct Hix as (Hsne & Hsnd & Hsin). split_and!; [done|done|].
           intros r. rewrite Hsin, elem_of_Set_delete.
           split; [|tauto]. intros [Hr Hfn]. split_and!; try done.
           intros ->. done.
        -- intros r [Hr _]%elem_of_Set_delete. by apply Hix.
  - eexists. split; [done|]. simpl. unfold UniqueIndex_delete.
    intros key r. rewrite elem_of_Set_delete.
    destruct (decide (key = fn (deref h row))) as [->|Hk].
    + rewrite lookup_delete_eq. split; [done|]. intros [[Hr Hne] Hfn].
      destruct Hne.
      assert (map !! fn (deref h row) = Some r) as H1 by (by apply Hix).
      assert (map !! fn (deref h row) = Some row) as H2 by (by apply Hix).
      congruence.
    + rewrite lookup_delete_ne by done. rewrite Hix.
      split; [|tauto]. intros [Hr Hfn]. split_and!; try done.
      intros ->. done.
Qed.

(** [ix.add(row)] that returns, for a row the index does not hold. *)
Lemma ix_add_holds h rows ix ix' row :
  holds h rows ix -> row ∉ rows ->
  ix_add ix h row = (ix', Ok tt) ->
  holds h (Set_add rows row) ix'.
Proof.
  intros Hix Hrow. destruct ix as [fn map|fn map]; simpl in *.
  - intros [= <-]. simpl. unfold Index_add. intros key.
    pose proof (Hix (fn (deref h row))) as Hkey.
    destruct (map !! fn (deref h row)) as [entry|] eqn:Hentry.
    + destruct Hkey as (Hne & Hnd & Hin).
      destruct (decide (key = fn (deref h row))) as [->|Hk].
      * rewrite lookup_insert_eq. split_and!.
        -- intros Hnil. assert (row ∈ Set_add entry row) as Hmem
             by apply Set_add_here.
           rewrite Hnil in Hmem. by apply elem_of_nil in Hmem.
        -- by apply NoDup_Set_add.
        -- intros r. rewrite !elem_of_Set_add, Hin. split.
           ++ intros [[Hr Hfn]| ->]; [by split; [left|]|by split; [right|]].
           ++ intros [[Hr| ->] Hfn]; [by left|by right].
      * rewrite lookup_insert_ne by done. specialize (Hix key).
        destruct (map !! key) as [s|].
        -- destruct Hix as (Hsne & Hsnd & Hsin). split_and!; [done|done|].
           intros r. rewrite Hsin, elem_of_Set_add. split.
           ++ intros [Hr Hfn]. by split; [left|].
           ++ intros [[Hr| ->] Hfn]; [done|]. by destruct Hk.
        -- intros r [Hr| ->]%elem_of_Set_add; [by apply Hix|].
           intros Heq. by destruct Hk.
    + destruct (decide (key = fn (deref h row))) as [->|Hk].
      * rewrite lookup_insert_eq. split_and!.
        -- done.
        -- apply NoDup_singleton.
        -- intros r. rewrite list_elem_of_singleton, elem_of_Set_add.
           split; [intros ->; split; [by right|done]|].
           intros [[Hr| ->] Hfn]; [|done]. by destruct (Hkey r Hr).
      * rewrite lookup_insert_ne by done. specialize (Hix key).
        destruct (map !! key) as [s|].
        -- destruct Hix as (Hsne & Hsnd & Hsin). split_and!; [done|done|].
           intros r. rewrite Hsin, elem_of_Set_add. split.
           ++ intros [Hr Hfn]. by split; [left|].
           ++ intros [[Hr| ->] Hfn]; [done|]. by destruct Hk.
        -- intros r [Hr| ->]%elem_of_Set_add; [by apply Hix|].
           intros Heq. by destruct Hk.
  - unfold UniqueIndex_add. case_bool_decide as Hsome; [done|].
    intros [= <-]. simpl. intros key r. rewrite elem_of_Set_add.
    assert (map !! fn (deref h row) = None) as Hnone.
    { destruct (map !! fn (deref h row)) eqn:E; [|done].
      destruct Hsome. eauto. }
    destruct (decide (key = fn (deref h row))) as [->|Hk].
    + rewrite lookup_insert_eq. split.
      * intros [= <-]. split; [by right|done].
      * intros [[Hr| ->] Hfn]; [|done].
        assert (map !! fn (deref h row) = Some r) as Hr' by (by apply Hix).
        congruence.
    + rewrite lookup_insert_ne by done. rewrite Hix. split.
      * intros [Hr Hfn]. by split; [left|].
      * intros [[Hr| ->] Hfn]; [done|]. by destruct Hk.
Qed.

(** The loop over the indexes. *)
Lemma each_ix_names method ixs : (each_ix method ixs).1.*1 = ixs.*1.
Proof.
  induction ixs as [|[k ix] ixs IH]; simpl; [done|].
  destruct (method ix) as [ix' [[]|e]]; simpl; [|done].
  destruct (each_ix method ixs) as [rest res]. simpl in *. by f_equal.
Qed.

Lemma each_ix_all (P Q : index -> Prop) method ixs :
  (forall ix, P ix -> exists ix', method ix = (ix', Ok tt) /\ Q ix') ->
  Forall (fun kix => P kix.2) ixs ->
  exists ixs',
    each_ix method ixs = (ixs', Ok tt)
    /\ Forall (fun kix => Q kix.2) ixs'.
Proof.
  intros Hm. induction 1 as [|[k ix] ixs Hix _ (ixs' & IH & HQ)]; simpl.
  { by exists []. }
  destruct (Hm ix Hix) as (ix' & -> & Hix'). rewrite IH.
  eexists. split; [done|]. by constructor.
Qed.

Lemma each_ix_Ok (P Q : index -> Prop) method ixs ixs' :
  (forall ix ix', P ix -> method ix = (ix', Ok tt) -> Q ix') ->
  Forall (fun kix => P kix.2) ixs ->
  each_ix method ixs = (ixs', Ok tt) ->
  Forall (fun kix => Q kix.2) ixs'.
Proof.
  intros Hm HP. revert ixs'.
  induction HP as [|[k ix] ixs Hix _ IH]; intros ixs'; simpl.
  { intros [= <-]. constructor. }
  destruct (method ix) as [ix' [[]|e]] eqn:Hix'; [|done].
  destruct (each_ix method ixs) as [rest res]. intros [= <- ->].
  constructor; [by apply (Hm ix ix')|by apply IH].
Qed.

End IndexHolds.

Section IndexTableSteps.
Import IndexTable IndexTableSpec IndexTableLaws.
Implicit Types (st : state) (row r : rowid) (data : pojo).

Lemma main_row_run data st :
  main_row data st
  = (st,
     match al_lookup (_ix st) "main" with
     | None => Ok None
     | Some (UniqueIndex fn map) => Ok (UniqueIndex_get fn map data)
     | Some (Index _ _) => Throw Unmodelled
     end).
Proof.
  unfold main_row. rewrite bind_run. simpl.
  by destruct (al_lookup (_ix st) "main") as [[fn map|fn map]|].
Qed.

Lemma al_lookup_elem {A} (o : list (string * A)) k v :
  al_lookup o k = Some v -> (k, v) ∈ o.
Proof.
  induction o as [|[k' v'] o IH]; simpl; [done|].
  case_decide as Hk.
  - intros [= ->]. subst. apply list_elem_of_here.
  - intros Hv. apply list_elem_of_further. by apply IH.
Qed.

(** The row [main] gives for the data is a row of the table. *)
Lemma main_row_found data st row :
  indexes_agree st ->
  (main_row data st).2 = Ok (Some row) ->
  row ∈ _data st.
Proof.
  intros (_ & _ & _ & Hix). rewrite main_row_run. simpl.
  destruct (al_lookup (_ix st) "main") as [[fn map|fn map]|] eqn:Hmain;
    [done| |done].
  intros [= Hget]. apply al_lookup_elem in Hmain.
  rewrite Forall_forall in Hix. specialize (Hix _ Hmain). simpl in Hix.
  by apply Hix in Hget as [Hrow _].
Qed.

Lemma delete_from_indexes_agree st row :
  Forall (fun kix => holds (heap st) (_data st) kix.2) (_ix st) ->
  row ∈ _data st ->
  exists ixs,
    delete_from_indexes row st = (set_ix (fun _ => ixs) st, Ok tt)
    /\ ixs.*1 = (_ix st).*1
    /\ Forall (fun kix => holds (heap st) (Set_delete (_data st) row) kix.2)
         ixs.
Proof.
  intros Hix Hrow. unfold delete_from_indexes.
  destruct (each_ix_all (holds (heap st) (_data st))
              (holds (heap st) (Set_delete (_data st) row))
              (fun ix => ix_delete ix (heap st) row) (_ix st))
    as (ixs & Heach & Hixs); [|done|].
  { intros ix Hh. by apply ix_delete_holds. }
  pose proof (each_ix_names (fun ix => ix_delete ix (heap st) row) (_ix st))
    as Hnames.
  rewrite Heach in *. by exists ixs.
Qed.

Lemma add_to_indexes_agree st st' row rows :
  Forall (fun kix => holds (heap st) rows kix.2) (_ix st) ->
  row ∉ rows ->
  add_to_indexes row st = (st', Ok tt) ->
  st' = set_ix (fun _ => _ix st') st
  /\ (_ix st').*1 = (_ix st).*1
  /\ Forall (fun kix => holds (heap st) (Set_add rows row) kix.2) (_ix st').
Proof.
  intros Hix Hrow. unfold add_to_indexes.
  pose proof (each_ix_names (fun ix => ix_add ix (heap st) row) (_ix st))
    as Hnames.
  destruct (each_ix _ (_ix st)) as [ixs res] eqn:Heach. intros [= <- ->].
  simpl. split_and!; [done|done|].
  apply (each_ix_Ok (holds (heap st) rows) _ _ _ _ (fun ix ix' H1 H2 =>
           ix_add_holds (heap st) rows ix ix' row H1 Hrow H2) Hix Heach).
Qed.

End IndexTableSteps.

Section IndexTableSound.
Import IndexTable IndexTableSpec IndexTableLaws.
Implicit Types (st : state) (row r : rowid) (data : pojo).

(** What a call of [upsert] that returns has done. *)
Lemma upsert_Ok data st st' row :
  upsert data st = (st', Ok row) ->
  exists ixs0 ixs1,
    let found := match (main_row data st).2 with
                 | Ok (Some r) => Some r
                 | _ => None
                 end in
    let st1 := match found with
               | Some r => set_ix (fun _ => ixs0) st
               | None =>
                   set_data (fun s => Set_add s (length (heap st)))
                     (set_heap (fun h => h ++ [factory st]) st)
               end in
    let st2 :=
      set_heap (fun h => <[row := obj_spread (deref h row) data]> h) st1 in
    row = default (length (heap st)) found
    /\ (forall r, found = Some r ->
          delete_from_indexes r st = (set_ix (fun _ => ixs0) st, Ok tt))
    /\ add_to_indexes row st2 = (set_ix (fun _ => ixs1) st2, Ok tt)
    /\ st' = set_changed (fun s => Set_add s row) (set_ix (fun _ => ixs1) st2).
Proof.
  intros H. unfold upsert in H. bind_inv H.
  injection H as <- <-. injection Hm3 as <- _.
  unfold assign, modify in Hm1. injection Hm1 as <- _.
  rewrite main_row_run in Hm. injection Hm as <- Hfound.
  rewrite main_row_run. cbn [snd]. rewrite Hfound.
  assert (st3 = set_ix (fun _ => _ix st3)
                  (set_heap
                     (fun h => <[a0 := obj_spread (deref h a0) data]> h) st1))
    as Hst3.
  { unfold add_to_indexes in Hm2.
    destruct (each_ix _ _) as [ixs res]. by injection Hm2 as <- _. }
  destruct a2. destruct a as [r|].
  - apply bind_Ok in Hm0 as (sd & ad & Hdel & Hret).
    injection Hret as <- <-.
    assert (sd = set_ix (fun _ => _ix sd) st) as Hsd.
    { unfold delete_from_indexes in Hdel.
      destruct (each_ix _ _) as [ixs res]. by injection Hdel as <- _. }
    destruct ad. exists (_ix sd), (_ix st3). cbv zeta. rewrite <- Hsd.
    split_and!; try done.
    + by intros r' [= <-].
    + by rewrite <- Hst3.
    + by rewrite <- Hst3.
  - apply bind_Ok in Hm0 as (sa & aa & Halloc & Hm0).
    apply bind_Ok in Hm0 as (sb & ab & Hset & Hret).
    injection Hret as <- <-.
    unfold alloc in Halloc. injection Halloc as <- <-.
    unfold modify in Hset. injection Hset as <- _.
    exists [], (_ix st3). cbv zeta. split_and!; try done.
    + by rewrite <- Hst3.
    + by rewrite <- Hst3.
Qed.

Lemma upsert_sound data st st' row :
  table_ok st -> upsert data st = (st', Ok row) -> table_ok st'.
Proof.
  intros [Hagree Htrack] Hup. pose proof Hagree as (Hnd & Hlt & Hnames & Hix).
  destruct Htrack as ((_ & Hndc & Hndd) & Hcd & Hdd & Hbound).
  destruct (upsert_Ok data st st' row Hup)
    as (ixs0 & ixs1 & Hrow & Hdel & Hadd & ->).
  cbv zeta in *.
  destruct (main_row data st).2 as [[r|]|e] eqn:Hmain.
  - simpl in Hrow. subst row.
    pose proof (main_row_found data st r Hagree Hmain) as Hr.
    destruct (delete_from_indexes_agree st r Hix Hr)
      as (ixs & Hdel' & Hn0 & Hix0).
    rewrite (Hdel r eq_refl) in Hdel'.
    apply (f_equal (fun p => _ix p.1)) in Hdel'. simpl in Hdel'.
    subst ixs0.
    set (st2 := set_heap
                  (fun h => <[r := obj_spread (deref h r) data]> h)
                  (set_ix (fun _ => ixs) st)) in *.
    assert (Forall (fun kix =>
                      holds (heap st2) (Set_delete (_data st) r) kix.2)
              (_ix st2)) as Hix2.
    { simpl. apply (Forall_impl _ _ _ Hix0). intros kix.
      apply holds_ext; [done|]. intros x [_ Hx]%elem_of_Set_delete.
      by apply rows_deref_insert_ne. }
    assert (r ∉ Set_delete (_data st) r) as Hgone.
    { rewrite elem_of_Set_delete. tauto. }
    destruct (add_to_indexes_agree st2 _ r _ Hix2 Hgone Hadd)
      as (_ & Hn1 & Hix1).
    simpl in Hn1, Hix1. split.
    + split_and!; simpl; try done.
      * intros x Hx. rewrite length_insert. by apply Hlt.
      * by rewrite Hn1, Hn0.
      * apply (Forall_impl _ _ _ Hix1). intros kix.
        apply holds_ext; [|done]. intros x.
        rewrite elem_of_Set_add, elem_of_Set_delete.
        destruct (decide (x = r)) as [->|Hne]; tauto.
    + split_and!; simpl; try done.
      * by apply NoDup_Set_add.
      * intros x [Hx| ->]%elem_of_Set_add; [by apply Hcd|done].
      * intros x Hx. rewrite length_insert. by apply Hbound.
  - simpl in Hrow. subst row.
    set (n := length (heap st)) in *.
    set (st2 := set_heap
                  (fun h => <[n := obj_spread (deref h n) data]> h)
                  (set_data (fun s => Set_add s n)
                     (set_heap (fun h => h ++ [factory st]) st))) in *.
    assert (n ∉ _data st) as Hnew.
    { intros Hin%Hlt. unfold n in Hin. lia. }
    assert (Forall (fun kix => holds (heap st2) (_data st) kix.2) (_ix st2))
      as Hix2.
    { simpl. apply (Forall_impl _ _ _ Hix). intros kix.
      apply holds_ext; [done|]. intros x Hx.
      rewrite rows_deref_insert_ne by (by intros ->).
      apply rows_deref_app_old. by apply Hlt. }
    destruct (add_to_indexes_agree st2 _ n _ Hix2 Hnew Hadd)
      as (_ & Hn1 & Hix1).
    simpl in Hn1, Hix1. split.
    + split_and!; simpl; try done.
      * by apply NoDup_Set_add.
      * intros x. rewrite elem_of_Set_add, length_insert, length_app. simpl.
        intros [Hx%Hlt| ->]; unfold n; lia.
      * by rewrite Hn1.
    + split_and!; simpl; try done.
      * by apply NoDup_Set_add.
      * by apply NoDup_Set_add.
      * intros x. rewrite !elem_of_Set_add.
        intros [Hx| ->]; [left; by apply Hcd|by right].
      * intros x Hx. rewrite elem_of_Set_add. intros [Hin| ->].
        -- by apply (Hdd x).
        -- pose proof (Hbound n (or_intror Hx)). unfold n in *. lia.
      * intros x. rewrite elem_of_Set_add, length_insert, length_app. simpl.
        intros [[Hx| ->]|Hx].
        -- pose proof (Hbound x (or_introl Hx)). lia.
        -- unfold n. lia.
        -- pose proof (Hbound x (or_intror Hx)). lia.
  - simpl in Hrow. subst row.
    unfold upsert in Hup. rewrite bind_run in Hup.
    destruct (main_row data st) as [st0 res]. simpl in Hmain. subst res.
    done.
Qed.

End IndexTableSound.

Section IndexTableSound2.
Import IndexTable IndexTableSpec IndexTableLaws.
Implicit Types (st : state) (row r : rowid) (data : pojo).

(** [delete(data)] of a single record on a sound table. *)
Lemma ix_table_delete_run data st :
  table_ok st ->
  match al_lookup (_ix st) "main" with
  | Some (Index _ _) => delete data st = (st, Throw Unmodelled)
  | None => delete data st = (st, Ok None)
  | Some (UniqueIndex fn map) =>
      match map !! fn data with
      | None => delete data st = (st, Ok None)
      | Some row =>
          row ∈ _data st
          /\ fn (deref (heap st) row) = fn data
          /\ exists ixs,
               delete data st
               = (set_deleted (fun s => Set_add s row)
                    (set_changed (fun s => Set_delete s row)
                       (set_data (fun s => Set_delete s row)
                          (set_ix (fun _ => ixs) st))),
                  Ok (Some row))
               /\ delete_from_indexes row st
                  = (set_ix (fun _ => ixs) st, Ok tt)
               /\ ixs.*1 = (_ix st).*1
               /\ Forall (fun kix =>
                            holds (heap st) (Set_delete (_data st) row) kix.2)
                    ixs
      end
  end.
Proof.
  intros [Hagree Htrack]. pose proof Hagree as (Hnd & Hlt & Hnames & Hix).
  unfold delete. rewrite bind_run. simpl. unfold al_has.
  destruct (al_lookup (_ix st) "main") as [[fn map|fn map]|] eqn:Hmain;
    [| |done].
  - rewrite bind_run, main_row_run, Hmain. done.
  - rewrite bind_run, main_row_run, Hmain. simpl. unfold UniqueIndex_get.
    destruct (map !! fn data) as [row|] eqn:Hrow; [|done].
    apply al_lookup_elem in Hmain. rewrite Forall_forall in Hix.
    pose proof (Hix _ Hmain) as Hh. simpl in Hh.
    apply Hh in Hrow as [Hin Hfn]. split; [done|]. split; [done|].
    destruct (delete_from_indexes_agree st row) as (ixs & Hdel & Hn & Hixs);
      [by apply Forall_forall|done|].
    exists ixs. split; [|done].
    rewrite bind_run, Hdel. done.
Qed.

Lemma delete_sound data st st' o :
  table_ok st -> delete data st = (st', Ok o) -> table_ok st'.
Proof.
  intros Hok Hdel. pose proof (ix_table_delete_run data st Hok) as Hrun.
  destruct Hok as [Hagree Htrack].
  pose proof Hagree as (Hnd & Hlt & Hnames & Hix).
  destruct Htrack as ((_ & Hndc & Hndd) & Hcd & Hdd & Hbound).
  destruct (al_lookup (_ix st) "main") as [[fn map|fn map]|].
  - rewrite Hrun in Hdel. done.
  - destruct (map !! fn data) as [row|].
    + destruct Hrun as (Hrow & _ & ixs & Hrun & _ & Hn & Hixs).
      rewrite Hrun in Hdel. injection Hdel as <- _. split.
      * split_and!; simpl.
        -- by apply NoDup_Set_delete.
        -- intros r [Hr _]%elem_of_Set_delete. by apply Hlt.
        -- by rewrite Hn.
        -- done.
      * split_and!; simpl.
        -- by apply NoDup_Set_delete.
        -- by apply NoDup_Set_delete.
        -- by apply NoDup_Set_add.
        -- intros r [Hr Hne]%elem_of_Set_delete.
           apply elem_of_Set_delete. split; [by apply Hcd|done].
        -- intros r [Hr| ->]%elem_of_Set_add.
           ++ rewrite elem_of_Set_delete. pose proof (Hdd r Hr). tauto.
           ++ rewrite elem_of_Set_delete. tauto.
        -- intros r. rewrite elem_of_Set_delete, elem_of_Set_add.
           intros [[Hr _]|[Hr| ->]]; apply Hbound; auto.
    + rewrite Hrun in Hdel. by injection Hdel as <- _.
  - rewrite Hrun in Hdel. by injection Hdel as <- _.
Qed.

Lemma save_run st :
  save st
  = (set_deleted (fun _ => []) (set_changed (fun _ => []) st),
     Ok (if onsave st
         then Some (Set_from (_changed st), Set_from (_deleted st))
         else None)).
Proof.
  unfold save, bind, gets, modify, ret. simpl. by destruct (onsave st).
Qed.






Lemma Table_new_sound has_onsave main Factory :
  table_ok (Table_new has_onsave main Factory).
Proof.
  split.
  - split_and!; simpl.
    + apply NoDup_nil_2.
    + by intros r ?%elem_of_nil.
    + destruct main; simpl; [apply NoDup_singleton|apply NoDup_nil_2].
    + destruct main as [fn|]; [|constructor].
      apply Forall_singleton. simpl. intros key r.
      rewrite lookup_empty. split; [done|]. by intros [?%elem_of_nil _].
  - split_and!; simpl; try apply NoDup_nil_2.
    + by intros r ?%elem_of_nil.
    + by intros r ?%elem_of_nil.
    + by intros r [?%elem_of_nil|?%elem_of_nil].
Qed.

End IndexTableSound2.

Section IndexTableSound3.
Import IndexTable IndexTableSpec IndexTableLaws IndexTableArrays.
Implicit Types (st : state) (row r : rowid) (data : pojo).





End IndexTableSound3.

Section IndexTableTheorems.
Import IndexTable IndexTableSpec IndexTableLaws.
Implicit Types (st : state) (row r : rowid) (data : pojo).



End IndexTableTheorems.

Section IndexTableAnswers.
Import IndexTable IndexTableSpec IndexTableLaws.
Implicit Types (st : state) (row r : rowid) (data : pojo).

(** A table with one row. *)
Lemma upserted_table_ok :
  table_ok
    (IndexTable.upsert [("id", VNum 1); ("foo", VStr "bar")]
       (Table_new true (Some Examples.by_id) None)).1.
Proof.
  apply (upsert_sound [("id", VNum 1); ("foo", VStr "bar")]
           (Table_new true (Some Examples.by_id) None) _ 0%nat).
  - apply Table_new_sound.
  - vm_compute. reflexivity.
Qed.


(** X17.  On a sound table [get(data, k)] throws the no-such-index error
    if there is no index named [k], and changes nothing otherwise: from a
    non-unique index it returns a set holding exactly the rows of the
    table whose derived key is the one derived from the data, the empty
    set if there is none; from a unique index the one such row, or
    [undefined] if there is none. *)
Theorem get_answers_from_rows st data k :
  table_ok st ->
  match al_lookup (_ix st) k with
  | None => get data k st = (st, Throw (NoSuchIndex k))
  | Some (Index fn map) =>
      exists rows,
        get data k st = (st, Ok (GotSet rows))
        /\ NoDup rows
        /\ forall r, r ∈ rows <-> r ∈ _data st /\ fn (deref (heap st) r) = fn data
  | Some (UniqueIndex fn map) =>
      exists o,
        get data k st = (st, Ok (GotRow o))
        /\ forall r, o = Some r
                     <-> r ∈ _data st /\ fn (deref (heap st) r) = fn data
  end.
Proof.
  intros [(_ & _ & _ & Hix) _]. unfold get. rewrite bind_run. simpl.
  destruct (al_lookup (_ix st) k) as [[fn map|fn map]|] eqn:Hk; [| |done].
  - apply al_lookup_elem in Hk. rewrite Forall_forall in Hix.
    pose proof (Hix _ Hk (fn data)) as Hh. simpl in Hh.
    eexists. split; [done|]. unfold Index_get.
    destruct (map !! fn data) as [entry|]; simpl.
    + by destruct Hh as (_ & Hnd & Hin).
    + split; [apply NoDup_nil_2|]. intros r. split; [by intros ?%elem_of_nil|].
      intros [Hr Hfn]. by destruct (Hh r Hr).
  - apply al_lookup_elem in Hk. rewrite Forall_forall in Hix.
    pose proof (Hix _ Hk) as Hh. simpl in Hh.
    eexists. split; [done|]. intros r. apply Hh.
Qed.

Lemma get_answers_from_rows_witness :
  get [("id", VNum 1)] "main"
    (IndexTable.upsert [("id", VNum 1); ("foo", VStr "bar")]
       (Table_new true (Some Examples.by_id) None)).1
  = ((IndexTable.upsert [("id", VNum 1); ("foo", VStr "bar")]
        (Table_new true (Some Examples.by_id) None)).1,
     Ok (GotRow (Some 0%nat))).
Proof.
  pose proof (get_answers_from_rows _ [("id", VNum 1)] "main"
                upserted_table_ok) as Hget.
  simpl in Hget. destruct Hget as (o & Hget & Ho).
  rewrite Hget. do 3 f_equal. apply (Ho 0%nat). split; compute_done.
Defined.

End IndexTableAnswers.

Section IndexTableRows.
Import IndexTable IndexTableSpec IndexTableLaws.
Implicit Types (st : state) (row r : rowid) (data : pojo).




End IndexTableRows.

Section IndexTableDelete.
Import IndexTable IndexTableSpec IndexTableLaws.
Implicit Types (st : state) (row r : rowid) (data : pojo).

Lemma ix_delete_fn ix h r : ix_fn (ix_delete ix h r).1 = ix_fn ix.
Proof.
  destruct ix as [fn map|fn map]; simpl; [|done].
  by destruct (Index_delete fn map h r).
Qed.

Lemma ix_add_fn ix h r : ix_fn (ix_add ix h r).1 = ix_fn ix.
Proof.
  destruct ix as [fn map|fn map]; simpl; [done|].
  by destruct (UniqueIndex_add fn map h r).
Qed.

Lemma each_ix_fn method ixs k :
  (forall ix, ix_fn (method ix).1 = ix_fn ix) ->
  ix_fn <$> al_lookup (each_ix method ixs).1 k = ix_fn <$> al_lookup ixs k.
Proof.
  intros Hm. induction ixs as [|[k' ix] ixs IH]; simpl; [done|].
  pose proof (Hm ix) as Hix.
  destruct (method ix) as [ix' [[]|e]]; simpl in *.
  - destruct (each_ix method ixs) as [rest res]. simpl in *.
    case_decide; simpl; [by rewrite Hix|done].
  - case_decide; simpl; [by rewrite Hix|done].
Qed.

Lemma delete_from_indexes_fn row st k :
  ix_fn <$> al_lookup (_ix (delete_from_indexes row st).1) k
  = ix_fn <$> al_lookup (_ix st) k.
Proof.
  unfold delete_from_indexes.
  pose proof (each_ix_fn (fun ix => ix_delete ix (heap st) row) (_ix st) k
                (fun ix => ix_delete_fn ix (heap st) row)) as Hfn.
  by destruct (each_ix _ _) as [ixs res].
Qed.

(** X19.  On a sound table whose index [main], if there is one, is
    unique, a single-record [delete] never throws.  If a row of the table
    derives the key that [main] derives from the data, that row is
    returned; it is then no row of the table, out of [_changed] and in
    [_deleted], the table is sound, so the row is in no index, the row
    objects are untouched, and [get] finds nothing under the data any
    more.  If no row does, and always when there is no index [main], it
    returns [undefined] and changes nothing. *)
Theorem delete_removes_row data st :
  table_ok st ->
  match al_lookup (_ix st) "main" with
  | Some (Index _ _) => True
  | None => IndexTable.delete data st = (st, Ok None)
  | Some (UniqueIndex fn map) =>
      ((forall r, r ∈ _data st -> fn (deref (heap st) r) <> fn data) ->
       IndexTable.delete data st = (st, Ok None))
      /\ (forall r, r ∈ _data st -> fn (deref (heap st) r) = fn data ->
          exists st',
            IndexTable.delete data st = (st', Ok (Some r))
            /\ (forall x, x ∈ _data st' <-> x ∈ _data st /\ x <> r)
            /\ (forall x, x ∈ _changed st' <-> x ∈ _changed st /\ x <> r)
            /\ r ∈ _deleted st'
            /\ heap st' = heap st
            /\ table_ok st'
            /\ get data "main" st' = (st', Ok (GotRow None)))
  end.
Proof.
  intros Hok. pose proof (ix_table_delete_run data st Hok) as Hrun.
  pose proof Hok as [(_ & _ & _ & Hix) _].
  destruct (al_lookup (_ix st) "main") as [[fn map|fn map]|] eqn:Hmain;
    [done| |done].
  pose proof (al_lookup_elem _ _ _ Hmain) as Hin.
  rewrite Forall_forall in Hix. pose proof (Hix _ Hin) as Hh. simpl in Hh.
  split.
  - intros Hnone. destruct (map !! fn data) as [row|] eqn:Hrow; [|done].
    apply Hh in Hrow as [Hr Hfn]. by destruct (Hnone row Hr).
  - intros r Hr Hfn.
    assert (map !! fn data = Some r) as Hrow by (by apply Hh).
    rewrite Hrow in Hrun.
    destruct Hrun as (_ & _ & ixs & Hdel & Hdix & Hn & Hixs).
    eexists. split; [exact Hdel|].
    pose proof (delete_sound data st _ _ Hok Hdel) as Hok'.
    split_and!; simpl; try done.
    + intros x. apply elem_of_Set_delete.
    + intros x. apply elem_of_Set_delete.
    + apply Set_add_here.
    + pose proof (get_answers_from_rows _ data "main" Hok') as Hget.
      simpl in Hget.
      pose proof (delete_from_indexes_fn r st "main") as Hfnm.
      rewrite Hdix, Hmain in Hfnm. simpl in Hfnm.
      destruct (al_lookup ixs "main") as [[fn' map'|fn' map']|];
        simpl in Hfnm; try done.
      injection Hfnm as ->. destruct Hget as (o & -> & Ho).
      do 3 f_equal. destruct o as [x|]; [|done].
      destruct (proj1 (Ho x) eq_refl) as [[Hx Hne]%elem_of_Set_delete Hxfn].
      destruct Hne.
      assert (map !! fn data = Some x) as Hx' by (by apply Hh).
      congruence.
Qed.

Lemma delete_removes_row_witness :
  exists st',
    IndexTable.delete [("id", VNum 1)]
      (IndexTable.upsert [("id", VNum 1); ("foo", VStr "bar")]
         (Table_new true (Some Examples.by_id) None)).1
    = (st', Ok (Some 0%nat))
    /\ _data st' = [] /\ _changed st' = [] /\ _deleted st' = [0%nat].
Proof.
  pose proof (delete_removes_row [("id", VNum 1)] _ upserted_table_ok)
    as Hdel.
  simpl in Hdel. destruct Hdel as [_ Hdel].
  destruct (Hdel 0%nat) as (st' & Hd & _); [compute_done|done|].
  exists st'. split; [exact Hd|].
  assert (forall p : state * result (option rowid),
            IndexTable.delete [("id", VNum 1)]
              (IndexTable.upsert [("id", VNum 1); ("foo", VStr "bar")]
                 (Table_new true (Some Examples.by_id) None)).1 = p ->
            _data p.1 = [] /\ _changed p.1 = [] /\ _deleted p.1 = [0%nat])
    as Hp by (intros p <-; vm_compute; done).
  apply (Hp _ Hd).
Defined.

End IndexTableDelete.

Section IndexTableSave.
Import IndexTable IndexTableSpec IndexTableLaws.
Implicit Types (st : state) (row r : rowid) (data : pojo).

(** X20.  [save()] on a sound table.  With an [onsave] callback it hands
    over copies of [_changed] and [_deleted] as they are: every changed
    row is a row of the table, no deleted row is one, and no row is in
    both sets; without a callback it returns [undefined].  Either way it
    empties both sets and touches nothing else, so a [save()] right after
    it hands over two empty sets. *)
Theorem save_hands_over_changes st :
  table_ok st ->
  exists st',
    save st
    = (st', Ok (if onsave st then Some (_changed st, _deleted st) else None))
    /\ (forall r, r ∈ _changed st -> r ∈ _data st /\ r ∉ _deleted st)
    /\ (forall r, r ∈ _deleted st -> r ∉ _data st)
    /\ _changed st' = [] /\ _deleted st' = []
    /\ _data st' = _data st /\ _ix st' = _ix st /\ heap st' = heap st
    /\ save st' = (st', Ok (if onsave st then Some ([], []) else None)).
Proof.
  intros [_ ((_ & Hndc & Hndd) & Hcd & Hdd & _)]. rewrite save_run.
  rewrite !Set_from_NoDup by done. eexists. split; [done|].
  split_and!; simpl; try done.
  - intros r Hr. split; [by apply Hcd|]. intros Hd.
    by apply (Hdd r Hd), Hcd.
  - rewrite save_run. simpl. done.
Qed.

Lemma save_hands_over_changes_witness :
  (save
     (IndexTable.upsert [("id", VNum 1); ("foo", VStr "bar")]
        (Table_new true (Some Examples.by_id) None)).1).2
  = Ok (Some ([0%nat], [])).
Proof.
  destruct (save_hands_over_changes _ upserted_table_ok)
    as (st' & Hsave & _).
  rewrite Hsave. vm_compute. reflexivity.
Defined.






End IndexTableSave.
